(** * The audio-player hook ([useAudioPlayer]) as a transition system

    A shallow embedding of the queue/transport controller of
    [hooks/useAudioPlayer]: the React state object is a record, the two
    refs the callbacks mutate (the synthetic-progress timer and the audio
    element) are explicit components of the hook's world, and every
    callback is a function from world to world.  What the callbacks cannot
    decide themselves (the random draw, the enrichment service's reply,
    whether [audio.play()] resolves) is an explicit input of the call.

    The hook is described twice.  First callback by callback, each call
    run to completion with its replies at hand: this is what a callback
    computes.  Then as the mounted component (module [Live]): a call is
    cut at its awaits, replies arrive later and in any order, React
    commits after every synchronous block and the clean-ups of the two
    effects cancel timers.  [call_run_to_completion] relates the two. *)

From Stdlib Require Import ZArith QArith List String Bool Lia Permutation.
Import ListNotations.
Local Open Scope Z_scope.

(** ** Data model *)

(** [ITrack] is imported from [@/types]; the hook reads exactly two of its
    fields, the identity and the optional playable reference. *)
Record ITrack : Type := mkTrack {
  id : string;
  preview_url : option string
}.

Inductive RepeatMode : Type := RepeatOff | RepeatOne | RepeatAll.

(** [interface AudioPlayerState].  Indices are the integers the callbacks
    compute; percentages are rationals (every value the hook itself writes
    is a constant or a counter, the rest is passed through unchanged). *)
Record AudioPlayerState : Type := mkState {
  currentTrack : option ITrack;
  currentIndex : Z;
  queue : list ITrack;
  isPlaying : bool;
  progress : Q;
  volume : Q;
  isShuffled : bool;
  repeatMode : RepeatMode;
  isMinimized : bool;
  isQueueOpen : bool
}.

(** The argument of [useState]. *)
Definition initialState : AudioPlayerState :=
  {| currentTrack := None; currentIndex := -1; queue := [];
     isPlaying := false; progress := 0%Q; volume := 80%Q;
     isShuffled := false; repeatMode := RepeatOff;
     isMinimized := false; isQueueOpen := false |}.

(** Calls made on the [HTMLAudioElement] behind [audioRef]. *)
Inductive AudioCall : Type :=
| AudioPause
| AudioPlay
| AudioSetSrc (src : string)
| AudioSetVolume (v : Q)
| AudioSetCurrentTime (position duration : Q).

(** The hook instance: the state object, the [simulationInterval] ref
    ([Some n] while a synthetic timer runs, [n] being its closure variable
    [simulatedProgress]) and the calls issued to the audio element so far. *)
Record Hook : Type := mkHook {
  state : AudioPlayerState;
  simulationInterval : option Z;
  audio : list AudioCall
}.

Definition mount : Hook :=
  {| state := initialState; simulationInterval := None; audio := [] |}.

(** What a call receives from outside the hook: the value of
    [Math.floor(Math.random() * queue.length)], the enrichment service
    ([mcpAudioService], imported from [@/services]; [None] when its promise
    rejects) and whether [audio.play()] resolves. *)
Record Env : Type := mkEnv {
  randomIndex : Z;
  enhanceTrackWithPreview : ITrack -> option ITrack;
  playResolves : bool
}.

(** ** Object-spread updates of the state record *)

Definition set_currentTrack (v : option ITrack) (s : AudioPlayerState) :=
  mkState v (currentIndex s) (queue s) (isPlaying s) (progress s) (volume s)
          (isShuffled s) (repeatMode s) (isMinimized s) (isQueueOpen s).
Definition set_currentIndex (v : Z) (s : AudioPlayerState) :=
  mkState (currentTrack s) v (queue s) (isPlaying s) (progress s) (volume s)
          (isShuffled s) (repeatMode s) (isMinimized s) (isQueueOpen s).
Definition set_queue (v : list ITrack) (s : AudioPlayerState) :=
  mkState (currentTrack s) (currentIndex s) v (isPlaying s) (progress s)
          (volume s) (isShuffled s) (repeatMode s) (isMinimized s)
          (isQueueOpen s).
Definition set_isPlaying (v : bool) (s : AudioPlayerState) :=
  mkState (currentTrack s) (currentIndex s) (queue s) v (progress s)
          (volume s) (isShuffled s) (repeatMode s) (isMinimized s)
          (isQueueOpen s).
Definition set_progress (v : Q) (s : AudioPlayerState) :=
  mkState (currentTrack s) (currentIndex s) (queue s) (isPlaying s) v
          (volume s) (isShuffled s) (repeatMode s) (isMinimized s)
          (isQueueOpen s).
Definition set_volume (v : Q) (s : AudioPlayerState) :=
  mkState (currentTrack s) (currentIndex s) (queue s) (isPlaying s)
          (progress s) v (isShuffled s) (repeatMode s) (isMinimized s)
          (isQueueOpen s).
Definition set_isShuffled (v : bool) (s : AudioPlayerState) :=
  mkState (currentTrack s) (currentIndex s) (queue s) (isPlaying s)
          (progress s) (volume s) v (repeatMode s) (isMinimized s)
          (isQueueOpen s).
Definition set_repeatMode (v : RepeatMode) (s : AudioPlayerState) :=
  mkState (currentTrack s) (currentIndex s) (queue s) (isPlaying s)
          (progress s) (volume s) (isShuffled s) v (isMinimized s)
          (isQueueOpen s).
Definition set_isMinimized (v : bool) (s : AudioPlayerState) :=
  mkState (currentTrack s) (currentIndex s) (queue s) (isPlaying s)
          (progress s) (volume s) (isShuffled s) (repeatMode s) v
          (isQueueOpen s).
Definition set_isQueueOpen (v : bool) (s : AudioPlayerState) :=
  mkState (currentTrack s) (currentIndex s) (queue s) (isPlaying s)
          (progress s) (volume s) (isShuffled s) (repeatMode s)
          (isMinimized s) v.

(** ** The JavaScript array primitives the hook uses *)

Module JsArray.
Section Ops.
Context {A : Type}.

Definition length (l : list A) : Z := Z.of_nat (List.length l).

(** [l[i]]: [None] stands for [undefined]. *)
Definition get (l : list A) (i : Z) : option A :=
  if i <? 0 then None else nth_error l (Z.to_nat i).

(** [l.findIndex(p)]: the first position satisfying [p], or [-1]. *)
Fixpoint findIndex (p : A -> bool) (l : list A) : Z :=
  match l with
  | [] => -1
  | x :: rest =>
      if p x then 0
      else let r := findIndex p rest in if r =? -1 then -1 else r + 1
  end.

(** The way [slice] and [splice] read their start argument: a negative
    start counts from the end, and the result is clamped to the array. *)
Definition clampStart (start : Z) (l : list A) : nat :=
  if start <? 0 then Z.to_nat (Z.max (length l + start) 0)
  else Z.to_nat (Z.min start (length l)).

(** [l.slice(start)]. *)
Definition slice (start : Z) (l : list A) : list A :=
  skipn (clampStart start l) l.

(** [l.splice(start, 0, x)], the array afterwards. *)
Definition spliceInsert (start : Z) (x : A) (l : list A) : list A :=
  let k := clampStart start l in firstn k l ++ x :: skipn k l.

(** [l.splice(start, 1)]: the removed elements and the array afterwards. *)
Definition spliceDelete1 (start : Z) (l : list A) : list A * list A :=
  let k := clampStart start l in
  (firstn 1 (skipn k l), firstn k l ++ skipn (S k) l).
End Ops.
End JsArray.

(** ** Primitive effects *)

Definition setState (f : AudioPlayerState -> AudioPlayerState) (h : Hook) : Hook :=
  {| state := f (state h);
     simulationInterval := simulationInterval h;
     audio := audio h |}.

(** A call on [audioRef.current], appended to one log: the log does not
    tell the elements apart that the audio effect creates each time it is
    restarted. *)
Definition audioCall (c : AudioCall) (h : Hook) : Hook :=
  {| state := state h;
     simulationInterval := simulationInterval h;
     audio := audio h ++ [c] |}.

(** [if (simulationInterval.current) { clearInterval(...); ... = null }] *)
Definition clearSimulation (h : Hook) : Hook :=
  {| state := state h; simulationInterval := None; audio := audio h |}.

(** [startSimulation]: a fresh timer whose counter starts at 0. *)
Definition startSimulation (h : Hook) : Hook :=
  {| state := state h; simulationInterval := Some 0; audio := audio h |}.

(** One firing of the timer set up by [startSimulation]. *)
Definition simulationTick (h : Hook) : Hook :=
  match simulationInterval h with
  | None => h
  | Some simulatedProgress =>
      let simulatedProgress := simulatedProgress + 1 in
      let h := setState (set_progress (inject_Z simulatedProgress)) h in
      if simulatedProgress >=? 100 then
        setState (fun prev => set_progress 0%Q (set_isPlaying false prev))
                 (clearSimulation h)
      else
        {| state := state h;
           simulationInterval := Some simulatedProgress;
           audio := audio h |}
  end.

(** [n] firings in a row. *)
Fixpoint simulationTicks (n : nat) (h : Hook) : Hook :=
  match n with
  | O => h
  | S k => simulationTicks k (simulationTick h)
  end.

(** A string that is neither missing nor empty: JavaScript truthiness of
    [track.preview_url]. *)
Definition hasPreview (t : ITrack) : bool :=
  match preview_url t with
  | Some url => negb (String.eqb url EmptyString)
  | None => false
  end.

(** ** The callbacks

    A callback created by [useCallback] reads [state] from the render that
    created it; that snapshot is the argument [cl] below, and every exposed
    operation passes the state it starts from.  [audioRef.current] is the
    element created when the hook mounts, so its null checks succeed. *)

(** The part of [loadTrack] after the reference has been resolved. *)
Definition playResolved (cl : AudioPlayerState) (env : Env)
    (enhancedTrack : ITrack) (shouldPlay : bool) (h : Hook) : Hook :=
  let h := setState (set_currentTrack (Some enhancedTrack)) h in
  match preview_url enhancedTrack with
  | Some url =>
      if hasPreview enhancedTrack && shouldPlay then
        let h := audioCall (AudioSetSrc url) h in
        let h := audioCall (AudioSetVolume (volume cl / 100)%Q) h in
        let h := audioCall AudioPlay h in
        if playResolves env then h else startSimulation h
      else if shouldPlay then startSimulation h else h
  | None => if shouldPlay then startSimulation h else h
  end.

Definition loadTrack (cl : AudioPlayerState) (env : Env)
    (track : ITrack) (shouldPlay : bool) (h : Hook) : Hook :=
  let h := clearSimulation h in
  let h := setState (fun prev =>
             set_progress 0%Q
               (set_isPlaying shouldPlay
                  (set_currentTrack (Some track) prev))) h in
  if hasPreview track then playResolved cl env track shouldPlay h
  else
    match enhanceTrackWithPreview env track with
    | Some enhancedTrack => playResolved cl env enhancedTrack shouldPlay h
    | None => if shouldPlay then startSimulation h else h
    end.

Definition goToIndex (cl : AudioPlayerState) (env : Env)
    (nextIndex : option Z) (autoPlay : bool) (h : Hook) : Hook :=
  let stop :=
    setState (fun prev => set_progress 0%Q (set_isPlaying false prev))
             (audioCall AudioPause h) in
  match nextIndex with
  | None => stop
  | Some nextIndex =>
      if (nextIndex <? 0) || (nextIndex >=? JsArray.length (queue cl)) then stop
      else
        let nextTrack := JsArray.get (queue cl) nextIndex in
        let h := setState (fun prev =>
                   set_progress 0%Q
                     (set_isPlaying autoPlay
                        (set_currentTrack nextTrack
                           (set_currentIndex nextIndex prev)))) h in
        match nextTrack with
        | Some nextTrack =>
            if autoPlay then loadTrack cl env nextTrack true h else h
        | None => h
        end
  end.

Definition isRepeatOne (m : RepeatMode) : bool :=
  match m with RepeatOne => true | _ => false end.
Definition isRepeatAll (m : RepeatMode) : bool :=
  match m with RepeatAll => true | _ => false end.

Definition skipNext (env : Env) (h : Hook) : Hook :=
  let cl := state h in
  let len := JsArray.length (queue cl) in
  if len =? 0 then h
  else if isRepeatOne (repeatMode cl) && (currentIndex cl >=? 0) then
    goToIndex cl env (Some (currentIndex cl)) true h
  else
    let nextIndex :=
      if isShuffled cl then randomIndex env else currentIndex cl + 1 in
    let nextIndex :=
      if isShuffled cl && (len >? 1) && (nextIndex =? currentIndex cl)
      then Z.rem (nextIndex + 1) len else nextIndex in
    if nextIndex >=? len then
      if isRepeatAll (repeatMode cl) then goToIndex cl env (Some 0) true h
      else goToIndex cl env None true h
    else goToIndex cl env (Some nextIndex) true h.

Definition skipPrevious (env : Env) (h : Hook) : Hook :=
  let cl := state h in
  let len := JsArray.length (queue cl) in
  if len =? 0 then h
  else
    let prevIndex :=
      if isShuffled cl then randomIndex env else currentIndex cl - 1 in
    if prevIndex <? 0 then
      if isRepeatAll (repeatMode cl) then goToIndex cl env (Some (len - 1)) true h
      else goToIndex cl env None true h
    else goToIndex cl env (Some prevIndex) true h.

Definition openQueuePanel : Hook -> Hook := setState (set_isQueueOpen true).
Definition closeQueuePanel : Hook -> Hook := setState (set_isQueueOpen false).
Definition toggleQueuePanel : Hook -> Hook :=
  setState (fun prev => set_isQueueOpen (negb (isQueueOpen prev)) prev).

Definition togglePlay (h : Hook) : Hook :=
  let cl := state h in
  match currentTrack cl with
  | None => h
  | Some track =>
      let h :=
        if isPlaying cl then clearSimulation (audioCall AudioPause h)
        else if hasPreview track then audioCall AudioPlay h
        else startSimulation h in
      setState (fun prev => set_isPlaying (negb (isPlaying prev)) prev) h
  end.

(** [togglePlay] is declared further down in the hook; the call is
    resolved when the callback runs. *)
Definition playTrack (env : Env) (track : ITrack) (h : Hook) : Hook :=
  let cl := state h in
  let same :=
    match currentTrack cl with
    | Some current => String.eqb (id current) (id track)
    | None => false
    end in
  if same then togglePlay h
  else
    let h := setState (fun prev =>
               set_progress 0%Q
                 (set_isPlaying true
                    (set_currentTrack (Some track)
                       (set_currentIndex 0 (set_queue [track] prev))))) h in
    loadTrack cl env track true h.

Definition enqueue (track : ITrack) : Hook -> Hook :=
  setState (fun prev =>
    let nextQueue := queue prev ++ [track] in
    let nextIndex := if currentIndex prev =? -1 then 0 else currentIndex prev in
    set_currentTrack
      (match currentTrack prev with Some c => Some c | None => Some track end)
      (set_currentIndex nextIndex (set_queue nextQueue prev))).

Definition enqueueNext (track : ITrack) : Hook -> Hook :=
  setState (fun prev =>
    if currentIndex prev =? -1 then
      set_currentTrack (Some track)
        (set_currentIndex 0 (set_queue [track] prev))
    else
      set_queue
        (JsArray.spliceInsert (currentIndex prev + 1) track (queue prev)) prev).

(** [duration] is the audio element's duration when it is known and
    non-zero (the truthiness test of [audioRef.current.duration]).  The
    element's [currentTime] is assigned [(position / 100) * duration], a
    product of doubles; the call records its two operands and not a
    value. *)
Definition seek (duration : option Q) (position : Q) (h : Hook) : Hook :=
  let h := setState (set_progress position) h in
  match duration with
  | Some d => audioCall (AudioSetCurrentTime position d) h
  | None => h
  end.

Definition setVolume (v : Q) (h : Hook) : Hook :=
  audioCall (AudioSetVolume (v / 100)%Q) (setState (set_volume v) h).

Definition toggleShuffle : Hook -> Hook :=
  setState (fun prev => set_isShuffled (negb (isShuffled prev)) prev).

(** [modes[(modes.indexOf(prev.repeatMode) + 1) % modes.length]] with
    [modes = ['off', 'one', 'all']]. *)
Definition nextRepeatMode (m : RepeatMode) : RepeatMode :=
  match m with
  | RepeatOff => RepeatOne
  | RepeatOne => RepeatAll
  | RepeatAll => RepeatOff
  end.

Definition toggleRepeat : Hook -> Hook :=
  setState (fun prev => set_repeatMode (nextRepeatMode (repeatMode prev)) prev).

(** Logs a message and nothing else. *)
Definition toggleFavorite (h : Hook) : Hook := h.

Definition toggleMinimize : Hook -> Hook :=
  setState (fun prev => set_isMinimized (negb (isMinimized prev)) prev).

(** Both timers are cancelled with [clearInterval]; the refs keep the
    stale handles, which no later call can fire. *)
Definition clearQueue (h : Hook) : Hook :=
  let h := audioCall (AudioSetSrc EmptyString) (audioCall AudioPause h) in
  let h := clearSimulation h in
  setState (fun prev =>
    set_progress 0%Q
      (set_isPlaying false
         (set_currentTrack None
            (set_currentIndex (-1) (set_queue [] prev))))) h.

(** The block of [removeFromQueue] that picks [nextIndex] and
    [nextTrack] once the position [index] of the match is known. *)
Definition removalSelection (cl : AudioPlayerState) (index : Z)
    (nextQueue : list ITrack) : Z * option ITrack :=
  if index =? currentIndex cl then
    if JsArray.length nextQueue =? 0 then (-1, None)
    else if currentIndex cl >=? JsArray.length nextQueue then
      (JsArray.length nextQueue - 1,
       JsArray.get nextQueue (JsArray.length nextQueue - 1))
    else (currentIndex cl, JsArray.get nextQueue (currentIndex cl))
  else if index <? currentIndex cl then
    let nextIndex := Z.max (currentIndex cl - 1) 0 in
    (nextIndex, JsArray.get nextQueue nextIndex)
  else (currentIndex cl, currentTrack cl).

Definition removeFromQueue (env : Env) (trackId : string) (h : Hook) : Hook :=
  let cl := state h in
  let currentQueue := queue cl in
  let index :=
    JsArray.findIndex (fun t => String.eqb (id t) trackId) currentQueue in
  if index =? -1 then h
  else
    let nextQueue :=
      filter (fun t => negb (String.eqb (id t) trackId)) currentQueue in
    let '(nextIndex, nextTrack) := removalSelection cl index nextQueue in
    let h := setState (fun prev =>
               set_progress
                 (match nextTrack with Some _ => progress prev | None => 0%Q end)
                 (set_isPlaying
                    (match nextTrack with
                     | Some _ => isPlaying prev
                     | None => false
                     end)
                    (set_currentTrack nextTrack
                       (set_currentIndex nextIndex
                          (set_queue nextQueue prev))))) h in
    match nextTrack with
    | Some nextTrack => loadTrack cl env nextTrack (isPlaying cl) h
    | None => audioCall AudioPause h
    end.

Definition reorderQueue (from to : Z) : Hook -> Hook :=
  setState (fun prev =>
    if (from =? to) || (from <? 0) || (to <? 0)
       || (from >=? JsArray.length (queue prev))
       || (to >=? JsArray.length (queue prev))
    then prev
    else
      let '(removed, updated) := JsArray.spliceDelete1 from (queue prev) in
      match removed with
      | moved :: _ =>
          let updated := JsArray.spliceInsert to moved updated in
          let nextIndex :=
            if from =? currentIndex prev then to
            else if (from <? currentIndex prev) && (to >=? currentIndex prev)
            then currentIndex prev - 1
            else if (from >? currentIndex prev) && (to <=? currentIndex prev)
            then currentIndex prev + 1
            else currentIndex prev in
          set_currentIndex nextIndex (set_queue updated prev)
      | [] => prev (* not reached: [from] is a position of the queue *)
      end).

Definition playFromQueue (env : Env) (index : Z) (h : Hook) : Hook :=
  goToIndex (state h) env (Some index) true h.

Definition closePlayer (h : Hook) : Hook :=
  let h := audioCall (AudioSetSrc EmptyString) (audioCall AudioPause h) in
  setState (fun _ => initialState) h.

(** The derived field of the object the hook returns. *)
Definition upNext (s : AudioPlayerState) : list ITrack :=
  JsArray.slice (currentIndex s + 1) (queue s).

(** The two raw setters the hook returns besides its callbacks. *)
Definition setQueue (q : list ITrack) : Hook -> Hook := setState (set_queue q).
Definition setCurrentIndex (idx : Z) : Hook -> Hook :=
  setState (set_currentIndex idx).

(** ** Events that reach the hook without a caller *)

(** The audio element's [ended] listener. *)
Definition handleEnded : Env -> Hook -> Hook := skipNext.

(** The audio element's [error] listener. *)
Definition handleError : Hook -> Hook := setState (set_isPlaying false).

(** One firing of the sampling timer, which lives while [isPlaying];
    [currentProgress] is the percentage it computed from the element. *)
Definition progressSample (currentProgress : Q) (h : Hook) : Hook :=
  if isPlaying (state h) then setState (set_progress currentProgress) h else h.

(** The clean-up of the [isPlaying] effect: it cancels the synthetic timer
    whenever React re-runs the effect. *)
Definition effectCleanup : Hook -> Hook := clearSimulation.

(** ** The transition system

    One step is one call with its awaits settled at once from the [Env]
    it carries, or one event.  No commit follows a step here: the
    clean-up of an effect is the explicit event [EffectCleanup], and
    what React does between calls is the subject of [Live] below. *)

Inductive Op : Type :=
| PlayTrack (env : Env) (track : ITrack)
| Enqueue (track : ITrack)
| EnqueueNext (track : ITrack)
| TogglePlay
| SkipNext (env : Env)
| SkipPrevious (env : Env)
| Seek (duration : option Q) (position : Q)
| SetVolume (v : Q)
| ToggleShuffle
| ToggleRepeat
| ToggleFavorite
| ToggleMinimize
| ClearQueue
| RemoveFromQueue (env : Env) (trackId : string)
| ReorderQueue (from to : Z)
| PlayFromQueue (env : Env) (index : Z)
| ClosePlayer
| OpenQueuePanel
| CloseQueuePanel
| ToggleQueuePanel
| SimulationTick
| Ended (env : Env)
| Error
| ProgressSample (currentProgress : Q)
| EffectCleanup.

Definition step (op : Op) (h : Hook) : Hook :=
  match op with
  | PlayTrack env track => playTrack env track h
  | Enqueue track => enqueue track h
  | EnqueueNext track => enqueueNext track h
  | TogglePlay => togglePlay h
  | SkipNext env => skipNext env h
  | SkipPrevious env => skipPrevious env h
  | Seek duration position => seek duration position h
  | SetVolume v => setVolume v h
  | ToggleShuffle => toggleShuffle h
  | ToggleRepeat => toggleRepeat h
  | ToggleFavorite => toggleFavorite h
  | ToggleMinimize => toggleMinimize h
  | ClearQueue => clearQueue h
  | RemoveFromQueue env trackId => removeFromQueue env trackId h
  | ReorderQueue from to => reorderQueue from to h
  | PlayFromQueue env index => playFromQueue env index h
  | ClosePlayer => closePlayer h
  | OpenQueuePanel => openQueuePanel h
  | CloseQueuePanel => closeQueuePanel h
  | ToggleQueuePanel => toggleQueuePanel h
  | SimulationTick => simulationTick h
  | Ended env => handleEnded env h
  | Error => handleError h
  | ProgressSample currentProgress => progressSample currentProgress h
  | EffectCleanup => effectCleanup h
  end.

Definition run (ops : list Op) (h : Hook) : Hook :=
  fold_left (fun h op => step op h) ops h.

(** A percentage handed to the hook lies between 0 and 100. *)
Definition percent (p : Q) : Prop := (0 <= p /\ p <= 100)%Q.

(** Calls and events whose percentage argument is one. *)
Definition admissible (op : Op) : Prop :=
  match op with
  | Seek _ position => percent position
  | ProgressSample currentProgress => percent currentProgress
  | _ => True
  end.

(** States the hook can be in: from the mounted hook, by any sequence of
    admissible calls and events. *)
Inductive reachable : Hook -> Prop :=
| reachable_mount : reachable mount
| reachable_step (op : Op) (h : Hook) :
    reachable h -> admissible op -> reachable (step op h).

(** ** Reference definitions, in the words of the specification *)

(** The entries of [l] at positions strictly after [i], entries of [l]
    being numbered from [pos]. *)
Fixpoint entriesAfter {A : Type} (i pos : Z) (l : list A) : list A :=
  match l with
  | [] => []
  | x :: rest =>
      if i <? pos then x :: entriesAfter i (pos + 1) rest
      else entriesAfter i (pos + 1) rest
  end.

(** Remove the entry at position [n]. *)
Fixpoint removeAt {A : Type} (n : nat) (l : list A) : list A :=
  match l, n with
  | [], _ => []
  | _ :: rest, O => rest
  | x :: rest, S k => x :: removeAt k rest
  end.

(** Insert [x] so that it ends up at position [n]. *)
Fixpoint insertAt {A : Type} (n : nat) (x : A) (l : list A) : list A :=
  match n, l with
  | O, _ => x :: l
  | S k, y :: rest => y :: insertAt k x rest
  | S _, [] => [x]
  end.

(** Single-element relocation: remove, then insert at the target. *)
Definition relocate {A : Type} (from to : nat) (l : list A) : list A :=
  match nth_error l from with
  | Some x => insertAt to x (removeAt from l)
  | None => l
  end.

(** The rebasing rule for the current index. *)
Definition rebase (from to current : Z) : Z :=
  if from =? current then to
  else if (from <? current) && (current <=? to) then current - 1
  else if (current <? from) && (to <=? current) then current + 1
  else current.

(** The enrichment service answers with a track of the same identity. *)
Definition keepsId (env : Env) : Prop :=
  forall t t', enhanceTrackWithPreview env t = Some t' -> id t' = id t.

(** What the loader leaves as current track when asked for [track]. *)
Definition resolved (env : Env) (track : ITrack) : ITrack :=
  if hasPreview track then track
  else match enhanceTrackWithPreview env track with
       | Some enhancedTrack => enhancedTrack
       | None => track
       end.

(** The three ways a navigation call can end: nothing happens, playback
    stops with the selection kept, or an entry of the queue is selected
    and loaded. *)
Inductive navigated (env : Env) (h : Hook) : AudioPlayerState -> Prop :=
| nav_idle : navigated env h (state h)
| nav_stop :
    navigated env h (set_progress 0%Q (set_isPlaying false (state h)))
| nav_play (i : Z) (track : ITrack) :
    0 <= i < JsArray.length (queue (state h)) ->
    JsArray.get (queue (state h)) i = Some track ->
    navigated env h
      (set_currentTrack (Some (resolved env track))
         (set_progress 0%Q
            (set_isPlaying true (set_currentIndex i (state h))))).

(** The counter of a running synthetic timer is below 100. *)
Definition clockInRange (h : Hook) : Prop :=
  match simulationInterval h with
  | Some n => 0 <= n < 100
  | None => True
  end.

(** The two calls that select a track without loading it. *)
Definition isEnqueue (op : Op) : bool :=
  match op with
  | Enqueue _ | EnqueueNext _ => true
  | _ => false
  end.

(** The selection invariant of the specification, on the three fields it
    relates: the index is the sentinel exactly when there is no current
    track, and otherwise designates a queue entry with the current
    track's id.  The last clause (nothing queued while nothing is
    selected) is what [enqueue] relies on. *)
Definition consistent (track : option ITrack) (index : Z)
    (q : list ITrack) : Prop :=
  (index = -1 <-> track = None)
  /\ (index <> -1 ->
      0 <= index < JsArray.length q
      /\ exists entry current,
           JsArray.get q index = Some entry
           /\ track = Some current /\ id entry = id current)
  /\ (index = -1 -> q = []).

Definition selectionConsistent (s : AudioPlayerState) : Prop :=
  consistent (currentTrack s) (currentIndex s) (queue s).

(** How often an id is queued. *)
Definition copies (trackId : string) (q : list ITrack) : nat :=
  List.length (filter (fun t => String.eqb (id t) trackId) q).

(** Calls that stay inside what the index arithmetic of [removeFromQueue]
    covers (the id to remove is queued at most once) and whose enrichment
    replies keep the id of the track asked about. *)
Definition singleCopy (op : Op) (h : Hook) : Prop :=
  match op with
  | RemoveFromQueue env trackId =>
      keepsId env /\ (copies trackId (queue (state h)) <= 1)%nat
  | PlayTrack env _ | SkipNext env | SkipPrevious env
  | PlayFromQueue env _ | Ended env => keepsId env
  | _ => True
  end.

Inductive reachableSingleCopy : Hook -> Prop :=
| single_mount : reachableSingleCopy mount
| single_step (op : Op) (h : Hook) :
    reachableSingleCopy h -> singleCopy op h ->
    reachableSingleCopy (step op h).

(** ** Scenario data *)

Module Scenario.
Local Open Scope string_scope.

Definition T1 : ITrack := mkTrack "t1" None.
Definition T2 : ITrack := mkTrack "t2" (Some "https://p.example/t2.mp3").
Definition T3 : ITrack := mkTrack "t3" None.

(** No random draw is used, the service rejects, the element plays. *)
Definition quiet : Env := mkEnv 0 (fun _ => None) true.

(** The service attaches a reference to the track it is given. *)
Definition enriching : Env :=
  mkEnv 0 (fun t => Some (mkTrack (id t) (Some "https://p.example/x.mp3"))) true.

(** Scenario B of the specification: queue [T1; T2], T2 current. *)
Definition endOfQueue : Hook :=
  run [Enqueue T1; Enqueue T2; SkipNext quiet] mount.

(** A queue holding the same song twice, its second copy current. *)
Definition repeatedSong : Hook :=
  run [Enqueue T1; Enqueue T2; Enqueue T1; PlayFromQueue quiet 2] mount.

(** The synthetic clock freshly started for T1. *)
Definition simulating : Hook := run [PlayTrack quiet T1] mount.

(** A position dragged on the seek bar before anything is selected. *)
Definition seekedEmpty : Hook := run [Seek None 50%Q] mount.

(** Queue [T1; T2; T3] with T2 current. *)
Definition threeTracks : Hook :=
  run [Enqueue T1; Enqueue T2; Enqueue T3; SkipNext quiet] mount.
End Scenario.

(** ** The mounted hook, one synchronous block at a time

    The callbacks above describe a call that runs to completion with
    nothing in between.  In the mounted component a call is cut at each
    [await] of [loadTrack]: the part before it runs at once, the part
    after it runs when the enrichment service or [audio.play()] settles,
    and other calls may come in between.  After every such block React
    commits the state, and the clean-ups of the two effects run when one
    of their dependencies has changed.  Both clean-ups cancel the timer
    the [simulationInterval] ref holds.

    Three readings of React are fixed here.  Every [setState] of a block
    is applied before the next block runs, and a callback called then
    reads the state so committed; the states between two writes of one
    block are not observed.  An effect is restarted, clean-up first,
    exactly when one of its dependencies differs from the previous
    commit: numbers and flags by value, the queue by the identity of its
    array, which is a new one whenever a callback assigns the field.  The
    [simulationInterval] component is the timer the ref holds while that
    timer lives: the clean-ups cancel the timer and leave its handle in
    the ref, which no callback can tell from an empty ref. *)

Module Live.

(** A [loadTrack] call waiting at one of its two awaits; the first keeps
    what its continuation reads: the track, [shouldPlay] and the
    [state.volume] of the render that created the callback. *)
Inductive Suspended : Type :=
| AwaitEnrichment (track : ITrack) (shouldPlay : bool) (volume : Q)
| AwaitPlay.

(** The component: the hook, the counters of synthetic timers that still
    fire although the ref no longer holds them, the suspended calls in
    the order they were suspended, and whether the sampling timer of the
    [isPlaying] effect is running. *)
Record Mounted : Type := mkMounted {
  hook : Hook;
  leaked : list Z;
  awaiting : list Suspended;
  sampling : bool
}.

Definition mounted : Mounted := mkMounted mount [] [] false.

Definition onHook (f : Hook -> Hook) (m : Mounted) : Mounted :=
  mkMounted (f (hook m)) (leaked m) (awaiting m) (sampling m).

Definition suspend (s : Suspended) (m : Mounted) : Mounted :=
  mkMounted (hook m) (leaked m) (awaiting m ++ [s]) (sampling m).

(** [startSimulation] in the component: the ref is overwritten without
    [clearInterval], so a timer it held goes on firing. *)
Definition startTimer (m : Mounted) : Mounted :=
  mkMounted (startSimulation (hook m))
            (match simulationInterval (hook m) with
             | Some n => n :: leaked m
             | None => leaked m
             end)
            (awaiting m) (sampling m).

(** [loadTrack] from the write of the resolved track up to
    [await audio.play()]. *)
Definition playResolvedStart (volume : Q) (enhancedTrack : ITrack)
    (shouldPlay : bool) (m : Mounted) : Mounted :=
  let m := onHook (setState (set_currentTrack (Some enhancedTrack))) m in
  match preview_url enhancedTrack with
  | Some url =>
      if hasPreview enhancedTrack && shouldPlay then
        let m := onHook (audioCall (AudioSetSrc url)) m in
        let m := onHook (audioCall (AudioSetVolume (volume / 100)%Q)) m in
        let m := onHook (audioCall AudioPlay) m in
        suspend AwaitPlay m
      else if shouldPlay then startTimer m else m
  | None => if shouldPlay then startTimer m else m
  end.

(** [loadTrack] up to its first await: a track with a preview reference
    goes on to [audio.play()] without waiting, any other waits for the
    enrichment service. *)
Definition loadTrackStart (cl : AudioPlayerState) (track : ITrack)
    (shouldPlay : bool) (m : Mounted) : Mounted :=
  let m := onHook clearSimulation m in
  let m := onHook (setState (fun prev =>
             set_progress 0%Q
               (set_isPlaying shouldPlay
                  (set_currentTrack (Some track) prev)))) m in
  if hasPreview track then playResolvedStart (volume cl) track shouldPlay m
  else suspend (AwaitEnrichment track shouldPlay (volume cl)) m.

(** The continuation after [await enhanceTrackWithPreview(track)];
    [None] is a rejected promise, handled by the outer [catch]. *)
Definition afterEnrichment (shouldPlay : bool) (volume : Q)
    (reply : option ITrack) (m : Mounted) : Mounted :=
  match reply with
  | Some enhancedTrack => playResolvedStart volume enhancedTrack shouldPlay m
  | None => if shouldPlay then startTimer m else m
  end.

(** The continuation after [await audio.play()]. *)
Definition afterPlay (resolves : bool) (m : Mounted) : Mounted :=
  if resolves then m else startTimer m.

Definition goToIndexStart (cl : AudioPlayerState) (nextIndex : option Z)
    (autoPlay : bool) (m : Mounted) : Mounted :=
  let stop :=
    onHook (fun h =>
      setState (fun prev => set_progress 0%Q (set_isPlaying false prev))
               (audioCall AudioPause h)) m in
  match nextIndex with
  | None => stop
  | Some nextIndex =>
      if (nextIndex <? 0) || (nextIndex >=? JsArray.length (queue cl)) then stop
      else
        let nextTrack := JsArray.get (queue cl) nextIndex in
        let m := onHook (setState (fun prev =>
                   set_progress 0%Q
                     (set_isPlaying autoPlay
                        (set_currentTrack nextTrack
                           (set_currentIndex nextIndex prev))))) m in
        match nextTrack with
        | Some nextTrack =>
            if autoPlay then loadTrackStart cl nextTrack true m else m
        | None => m
        end
  end.

Definition skipNextStart (drawn : Z) (m : Mounted) : Mounted :=
  let cl := state (hook m) in
  let len := JsArray.length (queue cl) in
  if len =? 0 then m
  else if isRepeatOne (repeatMode cl) && (currentIndex cl >=? 0) then
    goToIndexStart cl (Some (currentIndex cl)) true m
  else
    let nextIndex := if isShuffled cl then drawn else currentIndex cl + 1 in
    let nextIndex :=
      if isShuffled cl && (len >? 1) && (nextIndex =? currentIndex cl)
      then Z.rem (nextIndex + 1) len else nextIndex in
    if nextIndex >=? len then
      if isRepeatAll (repeatMode cl) then goToIndexStart cl (Some 0) true m
      else goToIndexStart cl None true m
    else goToIndexStart cl (Some nextIndex) true m.

Definition skipPreviousStart (drawn : Z) (m : Mounted) : Mounted :=
  let cl := state (hook m) in
  let len := JsArray.length (queue cl) in
  if len =? 0 then m
  else
    let prevIndex := if isShuffled cl then drawn else currentIndex cl - 1 in
    if prevIndex <? 0 then
      if isRepeatAll (repeatMode cl)
      then goToIndexStart cl (Some (len - 1)) true m
      else goToIndexStart cl None true m
    else goToIndexStart cl (Some prevIndex) true m.

Definition togglePlayStart (m : Mounted) : Mounted :=
  let cl := state (hook m) in
  match currentTrack cl with
  | None => m
  | Some track =>
      let m :=
        if isPlaying cl
        then onHook (fun h => clearSimulation (audioCall AudioPause h)) m
        else if hasPreview track then onHook (audioCall AudioPlay) m
        else startTimer m in
      onHook (setState (fun prev => set_isPlaying (negb (isPlaying prev)) prev))
             m
  end.

(** Whether [playTrack] finds its track already current. *)
Definition isCurrent (track : ITrack) (cl : AudioPlayerState) : bool :=
  match currentTrack cl with
  | Some current => String.eqb (id current) (id track)
  | None => false
  end.

Definition playTrackStart (track : ITrack) (m : Mounted) : Mounted :=
  let cl := state (hook m) in
  if isCurrent track cl then togglePlayStart m
  else
    let m := onHook (setState (fun prev =>
               set_progress 0%Q
                 (set_isPlaying true
                    (set_currentTrack (Some track)
                       (set_currentIndex 0 (set_queue [track] prev)))))) m in
    loadTrackStart cl track true m.

Definition removeFromQueueStart (trackId : string) (m : Mounted) : Mounted :=
  let cl := state (hook m) in
  let currentQueue := queue cl in
  let index :=
    JsArray.findIndex (fun t => String.eqb (id t) trackId) currentQueue in
  if index =? -1 then m
  else
    let nextQueue :=
      filter (fun t => negb (String.eqb (id t) trackId)) currentQueue in
    let '(nextIndex, nextTrack) := removalSelection cl index nextQueue in
    let m := onHook (setState (fun prev =>
               set_progress
                 (match nextTrack with Some _ => progress prev | None => 0%Q end)
                 (set_isPlaying
                    (match nextTrack with
                     | Some _ => isPlaying prev
                     | None => false
                     end)
                    (set_currentTrack nextTrack
                       (set_currentIndex nextIndex
                          (set_queue nextQueue prev)))))) m in
    match nextTrack with
    | Some nextTrack => loadTrackStart cl nextTrack (isPlaying cl) m
    | None => onHook (audioCall AudioPause) m
    end.

(** [clearQueue] also cancels the sampling timer. *)
Definition clearQueueBlock (m : Mounted) : Mounted :=
  mkMounted (clearQueue (hook m)) (leaked m) (awaiting m) false.

(** One firing of a timer the ref no longer holds: it publishes its own
    counter, and from 100 on it cancels whatever timer the ref holds and
    stops playback, at every firing. *)
Definition leakedTick (k : nat) (m : Mounted) : Mounted :=
  match nth_error (leaked m) k with
  | None => m
  | Some simulatedProgress =>
      let simulatedProgress := simulatedProgress + 1 in
      let counters :=
        firstn k (leaked m) ++ simulatedProgress :: skipn (S k) (leaked m) in
      let h := setState (set_progress (inject_Z simulatedProgress)) (hook m) in
      let h :=
        if simulatedProgress >=? 100 then
          setState (fun prev => set_progress 0%Q (set_isPlaying false prev))
                   (clearSimulation h)
        else h in
      mkMounted h counters (awaiting m) (sampling m)
  end.

(** The value such a firing writes first; from its 100th firing on the
    reset to 0 follows in the same callback. *)
Definition leakedWrite (k : nat) (m : Mounted) : option Q :=
  match nth_error (leaked m) k with
  | Some simulatedProgress => Some (inject_Z (simulatedProgress + 1))
  | None => None
  end.

(** What reaches the component: a call of the context type or a timer or
    engine event (of a call carrying an [Env], only the draw is read
    here), the settling of the [k]-th suspended call, and the firing of
    the [k]-th unreferenced timer. *)
Inductive Event : Type :=
| Sync (op : Op)
| EnrichmentReplied (k : nat) (reply : option ITrack)
| PlaySettled (k : nat) (resolves : bool)
| LeakedTick (k : nat).

(** The synchronous block an event runs.  The sampling timer fires only
    while it runs; the clean-up of an effect belongs to [commit] below
    and is nothing as an event of its own. *)
Definition block (e : Event) (m : Mounted) : Mounted :=
  match e with
  | Sync (PlayTrack _ track) => playTrackStart track m
  | Sync (Enqueue track) => onHook (enqueue track) m
  | Sync (EnqueueNext track) => onHook (enqueueNext track) m
  | Sync TogglePlay => togglePlayStart m
  | Sync (SkipNext env) => skipNextStart (randomIndex env) m
  | Sync (SkipPrevious env) => skipPreviousStart (randomIndex env) m
  | Sync (Seek duration position) => onHook (seek duration position) m
  | Sync (SetVolume v) => onHook (setVolume v) m
  | Sync ToggleShuffle => onHook toggleShuffle m
  | Sync ToggleRepeat => onHook toggleRepeat m
  | Sync ToggleFavorite => onHook toggleFavorite m
  | Sync ToggleMinimize => onHook toggleMinimize m
  | Sync ClearQueue => clearQueueBlock m
  | Sync (RemoveFromQueue _ trackId) => removeFromQueueStart trackId m
  | Sync (ReorderQueue from to) => onHook (reorderQueue from to) m
  | Sync (PlayFromQueue _ index) =>
      goToIndexStart (state (hook m)) (Some index) true m
  | Sync ClosePlayer => onHook closePlayer m
  | Sync OpenQueuePanel => onHook openQueuePanel m
  | Sync CloseQueuePanel => onHook closeQueuePanel m
  | Sync ToggleQueuePanel => onHook toggleQueuePanel m
  | Sync SimulationTick => onHook simulationTick m
  | Sync (Ended env) => skipNextStart (randomIndex env) m
  | Sync Error => onHook handleError m
  | Sync (ProgressSample currentProgress) =>
      if sampling m
      then onHook (setState (set_progress currentProgress)) m
      else m
  | Sync EffectCleanup => m
  | EnrichmentReplied k reply =>
      match nth_error (awaiting m) k with
      | Some (AwaitEnrichment _ shouldPlay volume) =>
          afterEnrichment shouldPlay volume reply
            (mkMounted (hook m) (leaked m) (removeAt k (awaiting m))
                       (sampling m))
      | _ => m
      end
  | PlaySettled k resolves =>
      match nth_error (awaiting m) k with
      | Some AwaitPlay =>
          afterPlay resolves
            (mkMounted (hook m) (leaked m) (removeAt k (awaiting m))
                       (sampling m))
      | _ => m
      end
  | LeakedTick k => leakedTick k m
  end.

(** Whether the block assigns a new array to [queue]. *)
Definition assignsQueue (e : Event) (m : Mounted) : bool :=
  match e with
  | Sync (PlayTrack _ track) => negb (isCurrent track (state (hook m)))
  | Sync (Enqueue _) | Sync (EnqueueNext _)
  | Sync ClearQueue | Sync ClosePlayer => true
  | Sync (RemoveFromQueue _ trackId) =>
      negb (JsArray.findIndex (fun t => String.eqb (id t) trackId)
              (queue (state (hook m))) =? -1)
  | Sync (ReorderQueue from to) =>
      negb ((from =? to) || (from <? 0) || (to <? 0)
            || (from >=? JsArray.length (queue (state (hook m))))
            || (to >=? JsArray.length (queue (state (hook m)))))
  | _ => false
  end.

Definition sameMode (a b : RepeatMode) : bool :=
  match a, b with
  | RepeatOff, RepeatOff | RepeatOne, RepeatOne | RepeatAll, RepeatAll => true
  | _, _ => false
  end.

(** The dependencies of [skipNext], through [goToIndex] and [loadTrack]:
    volume, the queue array, currentIndex, isShuffled, repeatMode. *)
Definition skipNextChanged (before after : AudioPlayerState)
    (queueAssigned : bool) : bool :=
  queueAssigned
  || negb (Qeq_bool (volume before) (volume after))
  || negb (currentIndex before =? currentIndex after)
  || negb (Bool.eqb (isShuffled before) (isShuffled after))
  || negb (sameMode (repeatMode before) (repeatMode after)).

Definition playingChanged (before after : AudioPlayerState) : bool :=
  negb (Bool.eqb (isPlaying before) (isPlaying after)).

(** The commit that follows a block.  The [skipNext] effect and the
    [isPlaying] effect are run again when their dependency changed; the
    clean-up of either cancels the timer the ref holds and the sampling
    timer, and only the [isPlaying] effect starts sampling again, while
    playing. *)
Definition commit (before : AudioPlayerState) (queueAssigned : bool)
    (m : Mounted) : Mounted :=
  let after := state (hook m) in
  if playingChanged before after || skipNextChanged before after queueAssigned
  then
    mkMounted (clearSimulation (hook m)) (leaked m) (awaiting m)
              (playingChanged before after && isPlaying after)
  else m.

Definition step (e : Event) (m : Mounted) : Mounted :=
  commit (state (hook m)) (assignsQueue e m) (block e m).

Definition run (events : list Event) (m : Mounted) : Mounted :=
  fold_left (fun m e => step e m) events m.

(** Events whose percentage argument is one. *)
Definition admissible (e : Event) : Prop :=
  match e with
  | Sync (Seek _ position) => percent position
  | Sync (ProgressSample currentProgress) => percent currentProgress
  | _ => True
  end.

(** The two enqueue calls and the enrichment reply: the events that can
    change the current track without writing progress. *)
Definition selectsWithoutLoading (e : Event) : bool :=
  match e with
  | Sync (Enqueue _) | Sync (EnqueueNext _) | EnrichmentReplied _ _ => true
  | _ => false
  end.

(** Settling at once the call that [block] has just suspended, with the
    replies [env] holds: the call run to completion. *)
Definition settleNow (env : Env) (m0 m : Mounted) : Mounted :=
  let k := List.length (awaiting m0) in
  let m :=
    match nth_error (awaiting m) k with
    | Some (AwaitEnrichment track _ _) =>
        block (EnrichmentReplied k (enhanceTrackWithPreview env track)) m
    | _ => m
    end in
  match nth_error (awaiting m) k with
  | Some AwaitPlay => block (PlaySettled k (playResolves env)) m
  | _ => m
  end.

End Live.

(** ** Vocabulary for the mounted hook *)

(** An environment whose enrichment service rejects: the call as it
    stands when it returns, before any reply. *)
Definition unanswered (drawn : Z) : Env := mkEnv drawn (fun _ => None) true.

(** The call with its replies withheld. *)
Definition withheld (op : Op) : Op :=
  match op with
  | PlayTrack env track => PlayTrack (unanswered (randomIndex env)) track
  | SkipNext env => SkipNext (unanswered (randomIndex env))
  | SkipPrevious env => SkipPrevious (unanswered (randomIndex env))
  | RemoveFromQueue env trackId =>
      RemoveFromQueue (unanswered (randomIndex env)) trackId
  | PlayFromQueue env index => PlayFromQueue (unanswered (randomIndex env)) index
  | Ended env => Ended (unanswered (randomIndex env))
  | other => other
  end.

(** The environment a call carries; the two events whose liveness the
    callbacks alone do not decide carry none. *)
Definition carries (op : Op) (env : Env) : Prop :=
  match op with
  | PlayTrack e _ | SkipNext e | SkipPrevious e | RemoveFromQueue e _
  | PlayFromQueue e _ | Ended e => e = env
  | ProgressSample _ | EffectCleanup => False
  | _ => True
  end.

(** isPlaying is never true without a current track, and the sentinel
    index goes with an empty queue. *)
Definition anchored (s : AudioPlayerState) : Prop :=
  (isPlaying s = true -> currentTrack s <> None)
  /\ (currentIndex s = -1 -> queue s = []).

(** Every counter of the component is one its timer can show. *)
Definition countersInRange (m : Live.Mounted) : Prop :=
  clockInRange (Live.hook m) /\ Forall (fun n => 0 <= n) (Live.leaked m).

(** No loader waits for the enrichment service. *)
Definition noReplyAwaited (m : Live.Mounted) : Prop :=
  Forall (fun s => match s with
                   | Live.AwaitEnrichment _ _ _ => False
                   | Live.AwaitPlay => True
                   end) (Live.awaiting m).

(** Calls that load another track or clear the selection. *)
Definition reselects (op : Op) : bool :=
  match op with
  | PlayTrack _ _ | SkipNext _ | SkipPrevious _ | RemoveFromQueue _ _
  | PlayFromQueue _ _ | ClearQueue | ClosePlayer | Ended _ => true
  | _ => false
  end.

(** An event that keeps to the following: a call that loads another
    track or clears the selection comes only while no enrichment reply is
    awaited, a removal names an id queued at most once, and a reply has
    the id of the track it was asked about. *)
Definition orderly (e : Live.Event) (m : Live.Mounted) : Prop :=
  match e with
  | Live.Sync op =>
      (reselects op = true -> noReplyAwaited m)
      /\ match op with
         | RemoveFromQueue _ trackId =>
             (copies trackId (queue (state (Live.hook m))) <= 1)%nat
         | _ => True
         end
  | Live.EnrichmentReplied k (Some reply) =>
      match nth_error (Live.awaiting m) k with
      | Some (Live.AwaitEnrichment track _ _) => id reply = id track
      | _ => True
      end
  | _ => True
  end.

Fixpoint orderlyRun (events : list Live.Event) (m : Live.Mounted) : Prop :=
  match events with
  | [] => True
  | e :: rest => orderly e m /\ orderlyRun rest (Live.step e m)
  end.

(** Every awaited reply is for the track that is current. *)
Definition repliesForCurrent (m : Live.Mounted) : Prop :=
  Forall (fun s => match s with
                   | Live.AwaitEnrichment track _ _ =>
                       exists current,
                         currentTrack (state (Live.hook m)) = Some current
                         /\ id current = id track
                   | Live.AwaitPlay => True
                   end) (Live.awaiting m).

(** ** Further vocabulary for the properties below *)

(** Calls that only change a setting or a presentation flag. *)
Definition isSetting (op : Op) : bool :=
  match op with
  | Seek _ _ | SetVolume _ | ToggleShuffle | ToggleRepeat | ToggleFavorite
  | ToggleMinimize | OpenQueuePanel | CloseQueuePanel | ToggleQueuePanel =>
      true
  | _ => false
  end.


(** The calls [loadTrack] makes on the audio element when it starts real
    playback of [url]. *)
Definition startCalls (cl : AudioPlayerState) (url : string) : list AudioCall :=
  [AudioSetSrc url; AudioSetVolume (volume cl / 100)%Q; AudioPlay].

(** The five settings of the state record. *)
Definition settings (s : AudioPlayerState) : Q * bool * RepeatMode * bool * bool :=
  (volume s, isShuffled s, repeatMode s, isMinimized s, isQueueOpen s).

(** Calls that write a setting: [setVolume], the toggles, the panel calls
    and [closePlayer], which restores the defaults. *)
Definition touchesSettings (op : Op) : bool :=
  match op with
  | SetVolume _ | ToggleShuffle | ToggleRepeat | ToggleMinimize
  | OpenQueuePanel | CloseQueuePanel | ToggleQueuePanel | ClosePlayer => true
  | _ => false
  end.

(** Whether a settings call changes one of the values [skipNext] is
    rebuilt on: [toggleShuffle] and [toggleRepeat] always do, [setVolume]
    when the volume is another number than before. *)
Definition renewsSkipNext (op : Op) (s : AudioPlayerState) : bool :=
  match op with
  | ToggleShuffle | ToggleRepeat => true
  | SetVolume v => negb (Qeq_bool (volume s) v)
  | _ => false
  end.

(** ** Scenario data for the mounted hook *)

Module Late.
Import Scenario.
Local Open Scope string_scope.

(** T1 as an enrichment service returns it. *)
Definition T1enriched : ITrack :=
  mkTrack "t1" (Some "https://p.example/t1.mp3").

(** [playTrack(T1)] waits for the service; [playTrack(T3)] follows, its
    enrichment is rejected, its synthetic clock starts and fires five
    times. *)
Definition overtaking : list Live.Event :=
  [Live.Sync (PlayTrack quiet T1); Live.Sync (PlayTrack quiet T3);
   Live.EnrichmentReplied 1 None;
   Live.Sync SimulationTick; Live.Sync SimulationTick;
   Live.Sync SimulationTick; Live.Sync SimulationTick;
   Live.Sync SimulationTick].

Definition overtaken : Live.Mounted := Live.run overtaking Live.mounted.

(** The reply to the first call arrives. *)
Definition lateReply : Live.Event :=
  Live.EnrichmentReplied 0 (Some T1enriched).

(** [playTrack(T1)] waits for the service and the queue is cleared. *)
Definition clearedWhileLoading : Live.Mounted :=
  Live.run [Live.Sync (PlayTrack quiet T1); Live.Sync ClearQueue] Live.mounted.

(** T1 plays on the synthetic clock, which has fired five times. *)
Definition clockStarted : list Live.Event :=
  [Live.Sync (PlayTrack quiet T1); Live.EnrichmentReplied 0 None;
   Live.Sync SimulationTick; Live.Sync SimulationTick;
   Live.Sync SimulationTick; Live.Sync SimulationTick;
   Live.Sync SimulationTick].

Definition ticking : Live.Mounted := Live.run clockStarted Live.mounted.

(** Two loads are started one after the other and both enrichments are
    rejected: each starts a synthetic timer, and the first one is no
    longer held by the ref. *)
Definition twoClocks : Live.Mounted :=
  Live.run [Live.Sync (Enqueue T1); Live.Sync (Enqueue T3);
            Live.Sync (PlayFromQueue quiet 0);
            Live.Sync (PlayFromQueue quiet 1);
            Live.EnrichmentReplied 0 None; Live.EnrichmentReplied 0 None]
           Live.mounted.

(** T1 is played and enriched, T3 is queued behind it and skipped to,
    every reply arriving before the next call. *)
Definition inTurn : list Live.Event :=
  [Live.Sync (PlayTrack quiet T1); Live.EnrichmentReplied 0 (Some T1enriched);
   Live.Sync (Enqueue T3); Live.Sync (SkipNext quiet)].

End Late.

(** What a call adds to the suspended loads: nothing, a load waiting for
    [audio.play()], or a load waiting for the reply about the track it
    has just made current. *)
Definition suspendedBy (m m' : Live.Mounted) : Prop :=
  Live.awaiting m' = Live.awaiting m
  \/ Live.awaiting m' = Live.awaiting m ++ [Live.AwaitPlay]
  \/ exists track shouldPlay volume,
       Live.awaiting m'
       = Live.awaiting m ++ [Live.AwaitEnrichment track shouldPlay volume]
       /\ currentTrack (state (Live.hook m')) = Some track.

(** ** Proof automation *)

(** Case analysis on every conditional of the goal. *)
Ltac split_ifs :=
  repeat match goal with
         | |- context [if ?b then _ else _] => destruct b eqn:?
         end.

(** Boolean comparisons on integers, read as propositions. *)
Ltac bools_to_Z :=
  rewrite ?andb_true_iff, ?andb_false_iff, ?Z.eqb_eq, ?Z.eqb_neq,
    ?Z.ltb_lt, ?Z.ltb_ge, ?Z.leb_le, ?Z.leb_gt in *.

(** * Properties *)

(** ** Array primitives *)

Section ArrayFacts.
Context {A : Type}.
Implicit Types (l : list A) (p : A -> bool).

Lemma findIndex_range p l :
  -1 <= JsArray.findIndex p l < JsArray.length l.
Proof.
  unfold JsArray.length.
  induction l as [|x rest IH]; simpl JsArray.findIndex.
  - simpl. lia.
  - rewrite length_cons, Nat2Z.inj_succ.
    destruct (p x); [lia|].
    destruct (JsArray.findIndex p rest =? -1) eqn:E; lia.
Qed.

Lemma findIndex_absent p l :
  (forall x, In x l -> p x = false) -> JsArray.findIndex p l = -1.
Proof.
  induction l as [|x rest IH]; intros Hno; simpl; [reflexivity|].
  rewrite (Hno x (or_introl eq_refl)).
  rewrite IH by (intros y Hy; apply Hno; right; exact Hy).
  reflexivity.
Qed.

Lemma findIndex_found p l :
  JsArray.findIndex p l <> -1 -> exists x, In x l /\ p x = true.
Proof.
  induction l as [|x rest IH]; simpl; [congruence|].
  destruct (p x) eqn:Hp; intros Hne.
  - exists x; auto.
  - destruct (JsArray.findIndex p rest =? -1) eqn:E; [congruence|].
    apply Z.eqb_neq in E. destruct (IH E) as (y & Hy & Hpy).
    exists y; auto.
Qed.

Lemma findIndex_present p l (x : A) :
  In x l -> p x = true -> JsArray.findIndex p l <> -1.
Proof.
  intros Hin Hp Habs.
  induction l as [|y rest IH]; [contradiction|].
  simpl in Habs. destruct (p y) eqn:Hy; [discriminate|].
  destruct Hin as [->|Hin]; [congruence|].
  pose proof (findIndex_range p rest) as Hr.
  destruct (JsArray.findIndex p rest =? -1) eqn:E; [|lia].
  apply Z.eqb_eq in E. now apply IH.
Qed.

Lemma skipn_clamped (n : nat) l :
  skipn (Nat.min n (List.length l)) l = skipn n l.
Proof.
  destruct (Nat.le_gt_cases n (List.length l)) as [Hle|Hgt].
  - now rewrite Nat.min_l.
  - rewrite Nat.min_r by lia.
    rewrite skipn_all. symmetry. apply skipn_all2. lia.
Qed.

Lemma slice_nonneg (start : Z) l :
  0 <= start -> JsArray.slice start l = skipn (Z.to_nat start) l.
Proof.
  intros Hs. unfold JsArray.slice, JsArray.clampStart, JsArray.length.
  destruct (start <? 0) eqn:E; [apply Z.ltb_lt in E; lia|].
  rewrite Z2Nat.inj_min, Nat2Z.id. apply skipn_clamped.
Qed.

Lemma entriesAfter_skipn (i : Z) l :
  forall pos, entriesAfter i pos l = skipn (Z.to_nat (i + 1 - pos)) l.
Proof.
  induction l as [|x rest IH]; intros pos; simpl.
  - now rewrite skipn_nil.
  - destruct (i <? pos) eqn:E.
    + apply Z.ltb_lt in E. rewrite IH.
      replace (Z.to_nat (i + 1 - (pos + 1))) with O by lia.
      replace (Z.to_nat (i + 1 - pos)) with O by lia.
      reflexivity.
    + apply Z.ltb_ge in E. rewrite IH.
      replace (Z.to_nat (i + 1 - pos)) with (S (Z.to_nat (i + 1 - (pos + 1))))
        by lia.
      reflexivity.
Qed.
End ArrayFacts.

(** ** What the loader and the navigation primitive leave behind *)

Lemma loadTrack_state cl env track shouldPlay h :
  state (loadTrack cl env track shouldPlay h) =
  set_currentTrack (Some (resolved env track))
    (set_progress 0%Q (set_isPlaying shouldPlay (state h))).
Proof.
  unfold loadTrack, resolved, playResolved.
  destruct (hasPreview track) eqn:Hp.
  - unfold hasPreview in Hp.
    destruct (preview_url track) as [url|] eqn:Hu; [|discriminate].
    destruct shouldPlay; simpl; [destruct (playResolves env)|]; reflexivity.
  - destruct (enhanceTrackWithPreview env track) as [e|].
    + destruct (preview_url e), (hasPreview e), shouldPlay; simpl;
        try destruct (playResolves env); reflexivity.
    + destruct shouldPlay; reflexivity.
Qed.

Lemma goToIndex_stop_state cl env autoPlay h (nextIndex : option Z) :
  match nextIndex with
  | None => True
  | Some i => i < 0 \/ JsArray.length (queue cl) <= i
  end ->
  goToIndex cl env nextIndex autoPlay h =
  setState (fun prev => set_progress 0%Q (set_isPlaying false prev))
           (audioCall AudioPause h).
Proof.
  unfold goToIndex. destruct nextIndex as [i|]; [|reflexivity].
  intros Hout.
  replace ((i <? 0) || (i >=? JsArray.length (queue cl))) with true;
    [reflexivity|].
  symmetry. apply orb_true_iff. rewrite Z.ltb_lt, Z.geb_le. lia.
Qed.

Lemma goToIndex_play_state cl env h i track :
  0 <= i < JsArray.length (queue cl) ->
  JsArray.get (queue cl) i = Some track ->
  state (goToIndex cl env (Some i) true h) =
  set_currentTrack (Some (resolved env track))
    (set_progress 0%Q (set_isPlaying true (set_currentIndex i (state h)))).
Proof.
  intros Hin Hget. unfold goToIndex.
  replace ((i <? 0) || (i >=? JsArray.length (queue cl))) with false.
  - rewrite Hget, loadTrack_state. reflexivity.
  - symmetry. apply orb_false_iff. rewrite Z.ltb_ge, Z.geb_leb, Z.leb_gt. lia.
Qed.

Lemma get_in_range {A : Type} (l : list A) (i : Z) :
  0 <= i < JsArray.length l -> exists x, JsArray.get l i = Some x.
Proof.
  unfold JsArray.get, JsArray.length. intros Hi.
  destruct (i <? 0) eqn:E; [apply Z.ltb_lt in E; lia|].
  destruct (nth_error l (Z.to_nat i)) as [x|] eqn:Hn; [eauto|].
  apply nth_error_None in Hn. lia.
Qed.

Lemma goToIndex_navigated env h (nextIndex : option Z) :
  navigated env h (state (goToIndex (state h) env nextIndex true h)).
Proof.
  destruct nextIndex as [i|].
  - destruct (Z.lt_ge_cases i 0) as [Hneg|Hpos].
    + rewrite goToIndex_stop_state by (left; exact Hneg). apply nav_stop.
    + destruct (Z.lt_ge_cases i (JsArray.length (queue (state h))))
        as [Hlt|Hge].
      * destruct (get_in_range (queue (state h)) i (conj Hpos Hlt))
          as [track Hget].
        rewrite (goToIndex_play_state _ _ _ _ track) by auto.
        now apply nav_play.
      * rewrite goToIndex_stop_state by (right; exact Hge). apply nav_stop.
  - rewrite goToIndex_stop_state by exact I. apply nav_stop.
Qed.

Lemma skipNext_navigated env h : navigated env h (state (skipNext env h)).
Proof.
  unfold skipNext.
  split_ifs;
    first [apply nav_idle | apply goToIndex_navigated].
Qed.

Lemma skipPrevious_navigated env h :
  navigated env h (state (skipPrevious env h)).
Proof.
  unfold skipPrevious.
  split_ifs;
    first [apply nav_idle | apply goToIndex_navigated].
Qed.

Lemma playFromQueue_navigated env index h :
  navigated env h (state (playFromQueue env index h)).
Proof. apply goToIndex_navigated. Qed.

(** ** Splicing against the reference relocation *)

Section SpliceFacts.
Context {A : Type}.
Implicit Types (l : list A) (x : A) (n k : nat).

Lemma clampStart_inside (i : Z) l :
  0 <= i <= JsArray.length l -> JsArray.clampStart i l = Z.to_nat i.
Proof.
  intros Hi. unfold JsArray.clampStart.
  destruct (i <? 0) eqn:E; [apply Z.ltb_lt in E; lia|].
  now rewrite Z.min_l.
Qed.

Lemma removeAt_firstn_skipn n l :
  firstn n l ++ skipn (S n) l = removeAt n l.
Proof.
  revert l; induction n as [|n IH]; intros [|y rest]; simpl; auto.
  f_equal. destruct rest; [now destruct n|]. apply IH.
Qed.

Lemma insertAt_firstn_skipn n x l :
  (n <= List.length l)%nat -> firstn n l ++ x :: skipn n l = insertAt n x l.
Proof.
  revert l; induction n as [|n IH]; intros [|y rest] Hn; simpl in *;
    try reflexivity; try lia.
  f_equal. apply IH. lia.
Qed.

Lemma length_removeAt n l :
  (n < List.length l)%nat ->
  List.length (removeAt n l) = (List.length l - 1)%nat.
Proof.
  revert l; induction n as [|n IH]; intros [|y rest] Hn; simpl in *;
    try lia.
  rewrite IH by lia. lia.
Qed.

Lemma length_insertAt n x l :
  List.length (insertAt n x l) = S (List.length l).
Proof.
  revert l; induction n as [|n IH]; intros [|y rest]; simpl; auto.
Qed.

Lemma nth_error_removeAt n l k :
  nth_error (removeAt n l) k =
  if (k <? n)%nat then nth_error l k else nth_error l (S k).
Proof.
  revert l k; induction n as [|n IH]; intros [|y rest] k; simpl.
  - now destruct k.
  - reflexivity.
  - destruct (k <? S n)%nat; now destruct k.
  - destruct k as [|k]; [reflexivity|]. simpl. rewrite IH.
    change (S k <? S n)%nat with (k <? n)%nat. reflexivity.
Qed.

Lemma nth_error_insertAt n x l k :
  (n <= List.length l)%nat ->
  nth_error (insertAt n x l) k =
  if (k <? n)%nat then nth_error l k
  else if (k =? n)%nat then Some x else nth_error l (k - 1).
Proof.
  revert l k; induction n as [|n IH]; intros l k Hn.
  - destruct k as [|k]; simpl; [reflexivity|]. now rewrite Nat.sub_0_r.
  - destruct l as [|y rest]; simpl in Hn; [lia|].
    destruct k as [|k]; [reflexivity|]. simpl insertAt. simpl nth_error.
    rewrite IH by lia.
    change (S k <? S n)%nat with (k <? n)%nat.
    change (S k =? S n)%nat with (k =? n)%nat.
    destruct (k <? n)%nat eqn:E1; [reflexivity|].
    destruct (k =? n)%nat eqn:E2; [reflexivity|].
    apply Nat.ltb_ge in E1. apply Nat.eqb_neq in E2.
    destruct k as [|k]; [lia|]. simpl. now rewrite Nat.sub_0_r.
Qed.

Lemma spliceDelete1_removeAt (i : Z) l x :
  0 <= i < JsArray.length l ->
  nth_error l (Z.to_nat i) = Some x ->
  JsArray.spliceDelete1 i l = ([x], removeAt (Z.to_nat i) l).
Proof.
  intros Hi Hx. unfold JsArray.spliceDelete1.
  rewrite clampStart_inside by lia.
  rewrite removeAt_firstn_skipn. f_equal.
  destruct (nth_error_split l (Z.to_nat i) Hx) as (l1 & l2 & Hl & Hlen).
  subst l. rewrite <- Hlen, skipn_app, skipn_all, Nat.sub_diag. reflexivity.
Qed.

Lemma spliceInsert_insertAt (i : Z) x l :
  0 <= i <= JsArray.length l ->
  JsArray.spliceInsert i x l = insertAt (Z.to_nat i) x l.
Proof.
  intros Hi. unfold JsArray.spliceInsert.
  rewrite clampStart_inside by lia.
  apply insertAt_firstn_skipn. unfold JsArray.length in Hi. lia.
Qed.

(** The splice pair of [reorderQueue] is the reference relocation. *)
Lemma splice_relocate (from to : Z) l x :
  0 <= from < JsArray.length l -> 0 <= to < JsArray.length l ->
  nth_error l (Z.to_nat from) = Some x ->
  JsArray.spliceDelete1 from l = ([x], removeAt (Z.to_nat from) l) /\
  JsArray.spliceInsert to x (removeAt (Z.to_nat from) l) =
  relocate (Z.to_nat from) (Z.to_nat to) l.
Proof.
  intros Hf Ht Hx. split; [now apply spliceDelete1_removeAt|].
  unfold relocate. rewrite Hx. apply spliceInsert_insertAt.
  unfold JsArray.length in *. rewrite length_removeAt by lia. lia.
Qed.

(** Where the entries of a relocated list come from. *)
Lemma nth_error_relocate (from to : nat) l k :
  (from < List.length l)%nat -> (to < List.length l)%nat ->
  nth_error (relocate from to l) k =
  if (k =? to)%nat then nth_error l from
  else
    let j := if (k <? to)%nat then k else (k - 1)%nat in
    if (j <? from)%nat then nth_error l j else nth_error l (S j).
Proof.
  intros Hf Ht. unfold relocate.
  destruct (nth_error l from) as [x|] eqn:Hx;
    [|apply nth_error_None in Hx; lia].
  rewrite nth_error_insertAt by (rewrite length_removeAt; lia).
  destruct (k =? to)%nat eqn:E.
  - apply Nat.eqb_eq in E. subst k. now rewrite Nat.ltb_irrefl.
  - destruct (k <? to)%nat; cbv zeta; apply nth_error_removeAt.
Qed.

End SpliceFacts.

(** ** reorderQueue *)

Lemma rebase_matches_source (from to current : Z) :
  (if from =? current then to
   else if (from <? current) && (to >=? current) then current - 1
   else if (from >? current) && (to <=? current) then current + 1
   else current) = rebase from to current.
Proof.
  unfold rebase. now rewrite Z.geb_leb, Z.gtb_ltb.
Qed.

Lemma setState_same (h : Hook) : setState (fun prev => prev) h = h.
Proof. now destruct h. Qed.

Lemma reorderQueue_rejects (from to : Z) (h : Hook) :
  from = to \/ from < 0 \/ to < 0
  \/ JsArray.length (queue (state h)) <= from
  \/ JsArray.length (queue (state h)) <= to ->
  reorderQueue from to h = h.
Proof.
  intros Hbad. unfold reorderQueue.
  rewrite <- (setState_same h) at 2. unfold setState. f_equal.
  replace ((from =? to) || (from <? 0) || (to <? 0)
           || (from >=? JsArray.length (queue (state h)))
           || (to >=? JsArray.length (queue (state h)))) with true;
    [reflexivity|].
  symmetry. rewrite !orb_true_iff, Z.eqb_eq, !Z.ltb_lt, !Z.geb_le. tauto.
Qed.

Lemma reorderQueue_moves (from to : Z) (h : Hook) :
  from <> to ->
  0 <= from < JsArray.length (queue (state h)) ->
  0 <= to < JsArray.length (queue (state h)) ->
  reorderQueue from to h =
  setState (fun prev =>
    set_currentIndex (rebase from to (currentIndex (state h)))
      (set_queue (relocate (Z.to_nat from) (Z.to_nat to) (queue (state h)))
         prev)) h.
Proof.
  intros Hne Hf Ht. unfold reorderQueue, setState. f_equal.
  replace ((from =? to) || (from <? 0) || (to <? 0)
           || (from >=? JsArray.length (queue (state h)))
           || (to >=? JsArray.length (queue (state h)))) with false.
  - destruct (nth_error (queue (state h)) (Z.to_nat from)) as [x|] eqn:Hx.
    + destruct (splice_relocate from to _ x Hf Ht Hx) as [Hdel Hins].
      rewrite Hdel, Hins, rebase_matches_source. reflexivity.
    + apply nth_error_None in Hx. unfold JsArray.length in Hf. lia.
  - symmetry. rewrite !orb_false_iff, Z.eqb_neq, !Z.ltb_ge, !Z.geb_leb,
      !Z.leb_gt. lia.
Qed.

Lemma reorderQueue_cases (from to : Z) (h : Hook) :
  reorderQueue from to h = h
  \/ (from <> to
      /\ 0 <= from < JsArray.length (queue (state h))
      /\ 0 <= to < JsArray.length (queue (state h))
      /\ reorderQueue from to h =
         setState (fun prev =>
           set_currentIndex (rebase from to (currentIndex (state h)))
             (set_queue
                (relocate (Z.to_nat from) (Z.to_nat to) (queue (state h)))
                prev)) h).
Proof.
  destruct (Z.eq_dec from to) as [Heq|Hne];
    [left; apply reorderQueue_rejects; auto|].
  destruct (Z.lt_ge_cases from 0) as [Hf|Hf];
    [left; apply reorderQueue_rejects; auto|].
  destruct (Z.lt_ge_cases to 0) as [Ht|Ht];
    [left; apply reorderQueue_rejects; auto|].
  destruct (Z.lt_ge_cases from (JsArray.length (queue (state h)))) as [Hfl|Hfl];
    [|left; apply reorderQueue_rejects; auto].
  destruct (Z.lt_ge_cases to (JsArray.length (queue (state h)))) as [Htl|Htl];
    [|left; apply reorderQueue_rejects; auto 6].
  right. repeat split; try assumption. now apply reorderQueue_moves.
Qed.

(** C5.  [reorderQueue(from, to)] leaves the hook as it is when the two
    indices are equal, negative or past the end of the queue; otherwise the
    queue becomes the single-element relocation of the entry at [from] to
    position [to], every other field but [currentIndex] is kept, and
    [currentIndex] becomes [to] if it was [from], one less if the moved
    entry went from before it to at-or-after it, one more if the entry
    went from after it to at-or-before it, and stays otherwise.  On
    [a; b; c] with index 1, moving 0 to 2 gives [b; c; a] with index 0. *)
Theorem reorderQueue_relocates_and_rebases (from to : Z) (h : Hook) :
  let s := state h in
  let s' := state (reorderQueue from to h) in
  let len := JsArray.length (queue s) in
  let cur := currentIndex s in
  (from = to \/ from < 0 \/ to < 0 \/ len <= from \/ len <= to ->
   reorderQueue from to h = h)
  /\ (from <> to /\ 0 <= from < len /\ 0 <= to < len ->
      queue s' = relocate (Z.to_nat from) (Z.to_nat to) (queue s)
      /\ (from = cur -> currentIndex s' = to)
      /\ (from < cur <= to -> currentIndex s' = cur - 1)
      /\ (to <= cur < from -> currentIndex s' = cur + 1)
      /\ (from <> cur -> ~ from < cur <= to -> ~ to <= cur < from ->
          currentIndex s' = cur)
      /\ reorderQueue from to h =
         setState (fun prev =>
           set_currentIndex (currentIndex s') (set_queue (queue s') prev)) h)
  /\ (forall a b c : ITrack,
      queue s = [a; b; c] -> cur = 1 ->
      queue (state (reorderQueue 0 2 h)) = [b; c; a]
      /\ currentIndex (state (reorderQueue 0 2 h)) = 0).
Proof.
  cbv zeta. split; [apply reorderQueue_rejects|]. split.
  - intros (Hne & Hf & Ht).
    rewrite (reorderQueue_moves from to h Hne Hf Ht). simpl.
    repeat split; try reflexivity; unfold rebase; intros;
      split_ifs; bools_to_Z; lia.
  - intros a b c Hq Hc.
    rewrite reorderQueue_moves; rewrite ?Hq, ?Hc; simpl;
      unfold JsArray.length; simpl; try lia.
    split; reflexivity.
Qed.

Lemma reorderQueue_relocates_and_rebases_witness :
  queue (state (reorderQueue 0 2 Scenario.threeTracks))
  = [Scenario.T2; Scenario.T3; Scenario.T1]
  /\ currentIndex (state (reorderQueue 0 2 Scenario.threeTracks)) = 0.
Proof.
  destruct (reorderQueue_relocates_and_rebases 0 2 Scenario.threeTracks)
    as (_ & _ & Hex).
  apply (Hex Scenario.T1 Scenario.T2 Scenario.T3); reflexivity.
Defined.

(** After a reorder the rebased index designates the entry it designated
    before. *)
Lemma reorderQueue_keeps_pointing (from to : Z) (h : Hook) :
  from <> to ->
  0 <= from < JsArray.length (queue (state h)) ->
  0 <= to < JsArray.length (queue (state h)) ->
  0 <= currentIndex (state h) < JsArray.length (queue (state h)) ->
  JsArray.get (queue (state (reorderQueue from to h)))
              (currentIndex (state (reorderQueue from to h)))
  = JsArray.get (queue (state h)) (currentIndex (state h)).
Proof.
  intros Hne Hf Ht Hc. rewrite reorderQueue_moves by assumption. simpl.
  set (q := queue (state h)) in *. set (cur := currentIndex (state h)) in *.
  unfold JsArray.length in *.
  assert (Hr : 0 <= rebase from to cur < Z.of_nat (List.length q)).
  { unfold rebase.
    split_ifs; bools_to_Z; lia. }
  unfold JsArray.get.
  destruct (rebase from to cur <? 0) eqn:E1; [apply Z.ltb_lt in E1; lia|].
  destruct (cur <? 0) eqn:E2; [apply Z.ltb_lt in E2; lia|].
  rewrite nth_error_relocate by lia.
  unfold rebase in *.
  destruct (from =? cur) eqn:Ea;
    [|destruct ((from <? cur) && (cur <=? to)) eqn:Eb;
      [|destruct ((cur <? from) && (to <=? cur)) eqn:Ec]];
  split_ifs;
    rewrite ?andb_true_iff, ?andb_false_iff, ?Z.eqb_eq, ?Z.eqb_neq,
      ?Z.ltb_lt, ?Z.ltb_ge, ?Z.leb_le, ?Z.leb_gt,
      ?Nat.eqb_eq, ?Nat.eqb_neq, ?Nat.ltb_lt, ?Nat.ltb_ge in *;
    try lia; f_equal; lia.
Qed.

(** ** clearQueue *)

(** C8.  [clearQueue] empties the queue, clears the selection, stops
    playback and resets progress; volume, shuffle, repeat mode and the two
    presentation flags are kept. *)
Theorem clearQueue_frame (h : Hook) :
  let s := state h in
  let s' := state (clearQueue h) in
  queue s' = [] /\ currentIndex s' = -1 /\ currentTrack s' = None
  /\ isPlaying s' = false /\ progress s' = 0%Q
  /\ volume s' = volume s /\ isShuffled s' = isShuffled s
  /\ repeatMode s' = repeatMode s /\ isMinimized s' = isMinimized s
  /\ isQueueOpen s' = isQueueOpen s.
Proof. cbv zeta. repeat split. Qed.

(** The engine side of [clearQueue]: paused and unloaded, timer gone. *)
Lemma clearQueue_engine (h : Hook) :
  audio (clearQueue h) = audio h ++ [AudioPause; AudioSetSrc EmptyString]
  /\ simulationInterval (clearQueue h) = None.
Proof.
  split; [|reflexivity]. unfold clearQueue; simpl. now rewrite <- app_assoc.
Qed.

(** ** removeFromQueue on an id that is not queued *)

(** C10.  When no queue entry has the given id, [removeFromQueue] returns
    the hook as it found it: same state, same timer, no call on the audio
    element. *)
Theorem removeFromQueue_unknown_id (env : Env) (trackId : string) (h : Hook) :
  (forall t, In t (queue (state h)) -> id t <> trackId) ->
  removeFromQueue env trackId h = h.
Proof.
  intros Hno. unfold removeFromQueue.
  rewrite findIndex_absent; [reflexivity|].
  intros t Ht. apply String.eqb_neq. now apply Hno.
Qed.

Lemma removeFromQueue_unknown_id_witness :
  removeFromQueue Scenario.quiet "t9" Scenario.threeTracks
  = Scenario.threeTracks.
Proof.
  apply (removeFromQueue_unknown_id Scenario.quiet "t9" Scenario.threeTracks).
  simpl. intros t [<-|[<-|[<-|[]]]]; discriminate.
Defined.

(** ** Skipping at the ends of the queue *)

Lemma resolved_id (env : Env) (track : ITrack) :
  keepsId env -> id (resolved env track) = id track.
Proof.
  intros Hk. unfold resolved. destruct (hasPreview track); [reflexivity|].
  destruct (enhanceTrackWithPreview env track) as [e|] eqn:He;
    [now apply Hk|reflexivity].
Qed.

Lemma resolved_playable (env : Env) (track : ITrack) :
  hasPreview track = true -> resolved env track = track.
Proof. intros Hp. unfold resolved. now rewrite Hp. Qed.

Lemma length_pos_of_get {A : Type} (l : list A) (i : Z) (x : A) :
  JsArray.get l i = Some x -> 0 <= i < JsArray.length l.
Proof.
  unfold JsArray.get, JsArray.length. destruct (i <? 0) eqn:E; [discriminate|].
  intros Hn. apply Z.ltb_ge in E.
  assert (Z.to_nat i < List.length l)%nat by (apply nth_error_Some; congruence).
  lia.
Qed.

Lemma skipNext_overflow (env : Env) (h : Hook) :
  isShuffled (state h) = false ->
  repeatMode (state h) <> RepeatOne ->
  0 < JsArray.length (queue (state h)) ->
  currentIndex (state h) = JsArray.length (queue (state h)) - 1 ->
  skipNext env h =
  if isRepeatAll (repeatMode (state h))
  then goToIndex (state h) env (Some 0) true h
  else goToIndex (state h) env None true h.
Proof.
  intros Hs Hr Hlen Hi. unfold skipNext. rewrite Hs, Hi.
  replace (JsArray.length (queue (state h)) =? 0) with false
    by (symmetry; apply Z.eqb_neq; lia).
  replace (isRepeatOne (repeatMode (state h))) with false
    by (destruct (repeatMode (state h)) eqn:E; simpl; congruence).
  simpl.
  replace (JsArray.length (queue (state h)) - 1 + 1
           >=? JsArray.length (queue (state h))) with true
    by (symmetry; apply Z.geb_le; lia).
  reflexivity.
Qed.

(** C2, as the code has it.  With shuffle off and repeat off, [skipNext]
    at the last position of a non-empty queue pauses the audio element and
    sets isPlaying = false and progress = 0; currentIndex (still the last
    position), currentTrack and the queue are left as they were. *)
Theorem skipNext_end_of_queue_stops (env : Env) (h : Hook) :
  isShuffled (state h) = false ->
  repeatMode (state h) = RepeatOff ->
  queue (state h) <> [] ->
  currentIndex (state h) = JsArray.length (queue (state h)) - 1 ->
  let s' := state (skipNext env h) in
  isPlaying s' = false /\ progress s' = 0%Q
  /\ currentIndex s' = currentIndex (state h)
  /\ currentTrack s' = currentTrack (state h)
  /\ queue s' = queue (state h)
  /\ s' = set_progress 0%Q (set_isPlaying false (state h))
  /\ audio (skipNext env h) = audio h ++ [AudioPause].
Proof.
  intros Hs Hr Hq Hi. cbv zeta.
  rewrite skipNext_overflow; try assumption.
  - rewrite Hr. simpl. repeat split.
  - rewrite Hr. discriminate.
  - unfold JsArray.length. destruct (queue (state h)); [congruence|].
    rewrite length_cons. lia.
Qed.

Lemma skipNext_end_of_queue_stops_witness :
  isPlaying (state (skipNext Scenario.quiet Scenario.endOfQueue)) = false
  /\ currentIndex (state (skipNext Scenario.quiet Scenario.endOfQueue)) = 1.
Proof.
  destruct (skipNext_end_of_queue_stops Scenario.quiet Scenario.endOfQueue)
    as (Hp & _ & Hi & _); try reflexivity; [discriminate|].
  split; [exact Hp|exact Hi].
Defined.

(** Scenario B on the code: the queue is [T1; T2] with T2 current, shuffle
    and repeat are off, and after [skipNext] the selection is still T2 at
    index 1. *)
Lemma skipNext_end_of_queue_keeps_selection :
  queue (state Scenario.endOfQueue) = [Scenario.T1; Scenario.T2]
  /\ currentIndex (state Scenario.endOfQueue) = 1
  /\ isShuffled (state Scenario.endOfQueue) = false
  /\ repeatMode (state Scenario.endOfQueue) = RepeatOff
  /\ ~ (currentIndex (state (skipNext Scenario.quiet Scenario.endOfQueue)) = -1
        /\ currentTrack (state (skipNext Scenario.quiet Scenario.endOfQueue))
           = None
        /\ isPlaying (state (skipNext Scenario.quiet Scenario.endOfQueue))
           = false).
Proof.
  repeat split. intros (Hi & _). vm_compute in Hi. discriminate.
Qed.

Lemma skipPrevious_underflow (env : Env) (h : Hook) :
  isShuffled (state h) = false ->
  0 < JsArray.length (queue (state h)) ->
  currentIndex (state h) = 0 ->
  skipPrevious env h =
  if isRepeatAll (repeatMode (state h))
  then goToIndex (state h) env
         (Some (JsArray.length (queue (state h)) - 1)) true h
  else goToIndex (state h) env None true h.
Proof.
  intros Hs Hlen Hi. unfold skipPrevious. rewrite Hs, Hi.
  replace (JsArray.length (queue (state h)) =? 0) with false
    by (symmetry; apply Z.eqb_neq; lia).
  reflexivity.
Qed.

(** C6, as the code has it.  With repeat = all and shuffle off, on a
    queue whose first entry is [first] and whose last entry is [final]:
    [skipNext] from the last position selects index 0 and [skipPrevious]
    from position 0 selects the last index, with isPlaying = true and
    progress = 0.  Once the load has run, the current track is the track
    the loader ends with for the selected entry: the entry itself when it
    carries a non-empty preview reference or when the enrichment service
    rejects, and otherwise whatever track the enrichment service replied
    with. *)
Theorem repeat_all_wraps (env : Env) (h : Hook) (first final : ITrack) :
  isShuffled (state h) = false ->
  repeatMode (state h) = RepeatAll ->
  JsArray.get (queue (state h)) 0 = Some first ->
  JsArray.get (queue (state h)) (JsArray.length (queue (state h)) - 1)
  = Some final ->
  (currentIndex (state h) = JsArray.length (queue (state h)) - 1 ->
   let s' := state (skipNext env h) in
   currentIndex s' = 0
   /\ currentTrack s' = Some (resolved env first)
   /\ (hasPreview first = true -> currentTrack s' = Some first)
   /\ (enhanceTrackWithPreview env first = None ->
       currentTrack s' = Some first)
   /\ (forall reply,
         hasPreview first = false ->
         enhanceTrackWithPreview env first = Some reply ->
         currentTrack s' = Some reply)
   /\ isPlaying s' = true /\ progress s' = 0%Q)
  /\ (currentIndex (state h) = 0 ->
      let s' := state (skipPrevious env h) in
      currentIndex s' = JsArray.length (queue (state h)) - 1
      /\ currentTrack s' = Some (resolved env final)
      /\ (hasPreview final = true -> currentTrack s' = Some final)
      /\ (enhanceTrackWithPreview env final = None ->
          currentTrack s' = Some final)
      /\ (forall reply,
            hasPreview final = false ->
            enhanceTrackWithPreview env final = Some reply ->
            currentTrack s' = Some reply)
      /\ isPlaying s' = true /\ progress s' = 0%Q).
Proof.
  intros Hs Hr Hfirst Hfinal.
  pose proof (length_pos_of_get _ _ _ Hfirst) as Hlen.
  split; intros Hi; cbv zeta.
  - rewrite skipNext_overflow; try assumption; try lia;
      [|rewrite Hr; discriminate].
    rewrite Hr. simpl isRepeatAll. cbv iota.
    rewrite (goToIndex_play_state _ _ _ _ first) by auto. simpl.
    repeat split.
    + intros Hp. now rewrite resolved_playable.
    + intros Hrej. unfold resolved. rewrite Hrej. now destruct (hasPreview first).
    + intros reply Hp Hrep. unfold resolved. now rewrite Hp, Hrep.
  - rewrite skipPrevious_underflow; try assumption; try lia.
    rewrite Hr. simpl isRepeatAll. cbv iota.
    rewrite (goToIndex_play_state _ _ _ _ final) by (auto; lia). simpl.
    repeat split.
    + intros Hp. now rewrite resolved_playable.
    + intros Hrej. unfold resolved. rewrite Hrej. now destruct (hasPreview final).
    + intros reply Hp Hrep. unfold resolved. now rewrite Hp, Hrep.
Qed.

Lemma enriching_keepsId : keepsId Scenario.enriching.
Proof. intros t t' Ht. vm_compute in Ht. injection Ht as <-. reflexivity. Qed.

Lemma repeat_all_wraps_witness :
  currentIndex
    (state (skipNext Scenario.enriching
              (toggleRepeat (toggleRepeat Scenario.endOfQueue)))) = 0
  /\ currentIndex
       (state (skipPrevious Scenario.enriching
                 (toggleRepeat (toggleRepeat
                    (skipPrevious Scenario.quiet Scenario.endOfQueue))))) = 1.
Proof.
  split.
  - apply (repeat_all_wraps Scenario.enriching
             (toggleRepeat (toggleRepeat Scenario.endOfQueue))
             Scenario.T1 Scenario.T2 eq_refl eq_refl eq_refl eq_refl).
    reflexivity.
  - apply (repeat_all_wraps Scenario.enriching
             (toggleRepeat (toggleRepeat
                (skipPrevious Scenario.quiet Scenario.endOfQueue)))
             Scenario.T1 Scenario.T2 eq_refl eq_refl eq_refl eq_refl).
    reflexivity.
Defined.

(** Scenario C on the code, the enrichment service attaching a preview
    reference: after [skipNext] the index is 0, but the current track is
    the service's reply and not the first queue element. *)
Lemma repeat_all_current_is_the_reply :
  isShuffled (state (toggleRepeat (toggleRepeat Scenario.endOfQueue))) = false
  /\ repeatMode (state (toggleRepeat (toggleRepeat Scenario.endOfQueue)))
     = RepeatAll
  /\ queue (state (toggleRepeat (toggleRepeat Scenario.endOfQueue)))
     = [Scenario.T1; Scenario.T2]
  /\ currentIndex (state (toggleRepeat (toggleRepeat Scenario.endOfQueue)))
     = 1
  /\ currentIndex
       (state (skipNext Scenario.enriching
                 (toggleRepeat (toggleRepeat Scenario.endOfQueue)))) = 0
  /\ currentTrack
       (state (skipNext Scenario.enriching
                 (toggleRepeat (toggleRepeat Scenario.endOfQueue))))
     <> Some Scenario.T1.
Proof. repeat split. discriminate. Qed.

(** ** The synthetic progress clock *)

Lemma simulationTicks_succ (k : nat) (h : Hook) :
  simulationTicks (S k) h = simulationTick (simulationTicks k h).
Proof.
  revert h; induction k as [|k IH]; intros h; [reflexivity|].
  change (simulationTicks (S (S k)) h)
    with (simulationTicks (S k) (simulationTick h)).
  now rewrite IH.
Qed.

Lemma simulationTick_running (n : Z) (h : Hook) :
  simulationInterval h = Some n -> n + 1 < 100 ->
  simulationTick h =
  mkHook (set_progress (inject_Z (n + 1)) (state h)) (Some (n + 1)) (audio h).
Proof.
  intros Hs Hn. unfold simulationTick. rewrite Hs.
  replace (n + 1 >=? 100) with false; [reflexivity|].
  symmetry. rewrite Z.geb_leb. apply Z.leb_gt. lia.
Qed.

Lemma simulationTick_finishing (n : Z) (h : Hook) :
  simulationInterval h = Some n -> 100 <= n + 1 ->
  simulationTick h =
  mkHook (set_progress 0%Q (set_isPlaying false (state h))) None (audio h).
Proof.
  intros Hs Hn. unfold simulationTick. rewrite Hs.
  replace (n + 1 >=? 100) with true; [reflexivity|].
  symmetry. now apply Z.geb_le.
Qed.

Lemma simulationTicks_running (k : nat) (h : Hook) :
  simulationInterval h = Some 0 -> (S k < 100)%nat ->
  simulationTicks (S k) h =
  mkHook (set_progress (inject_Z (Z.of_nat (S k))) (state h))
         (Some (Z.of_nat (S k))) (audio h).
Proof.
  intros Hs. induction k as [|k IH]; intros Hk.
  - simpl simulationTicks. now rewrite (simulationTick_running 0) by (auto; lia).
  - rewrite simulationTicks_succ, IH by lia.
    rewrite (simulationTick_running (Z.of_nat (S k))) by (simpl; auto; lia).
    simpl state. simpl audio.
    replace (Z.of_nat (S k) + 1) with (Z.of_nat (S (S k))) by lia.
    reflexivity.
Qed.

Lemma simulationTicks_finish (h : Hook) :
  simulationInterval h = Some 0 ->
  simulationTicks 100 h =
  mkHook (set_progress 0%Q (set_isPlaying false (state h))) None (audio h).
Proof.
  intros Hs.
  rewrite simulationTicks_succ, (simulationTicks_running 98) by (auto; lia).
  now rewrite (simulationTick_finishing 99) by (simpl; auto; lia).
Qed.

(** C4, as the code has it.  Started at progress 0, the synthetic clock
    shows progress k after k ticks for every k below 100, still running
    and with isPlaying untouched; the 100th tick stops the clock and sets
    isPlaying = false and progress = 0, with no call on the audio
    element. *)
Theorem synthetic_clock_runs_100_ticks (h : Hook) :
  progress (state h) = 0%Q ->
  (forall k : nat, (k < 100)%nat ->
     progress (state (simulationTicks k (startSimulation h)))
     = inject_Z (Z.of_nat k)
     /\ simulationInterval (simulationTicks k (startSimulation h))
        = Some (Z.of_nat k)
     /\ isPlaying (state (simulationTicks k (startSimulation h)))
        = isPlaying (state h))
  /\ simulationTicks 100 (startSimulation h)
     = mkHook (set_progress 0%Q (set_isPlaying false (state h))) None (audio h).
Proof.
  intros Hp. split.
  - intros [|k] Hk.
    + simpl. rewrite Hp. repeat split.
    + rewrite (simulationTicks_running k (startSimulation h) eq_refl Hk).
      repeat split.
  - now rewrite (simulationTicks_finish (startSimulation h) eq_refl).
Qed.

Lemma synthetic_clock_runs_100_ticks_witness :
  simulationTicks 100 (startSimulation Scenario.simulating)
  = mkHook (set_progress 0%Q
              (set_isPlaying false (state Scenario.simulating)))
           None (audio Scenario.simulating).
Proof.
  apply (synthetic_clock_runs_100_ticks Scenario.simulating). reflexivity.
Defined.

(** Scenario F on the code: 25 ticks after the clock started at progress
    0 it shows 25, is still running, and isPlaying is still true. *)
Lemma synthetic_clock_after_25_ticks :
  progress (state Scenario.simulating) = 0%Q
  /\ simulationInterval Scenario.simulating = Some 0
  /\ progress (state (simulationTicks 25 Scenario.simulating)) = 25%Q
  /\ ~ (isPlaying (state (simulationTicks 25 Scenario.simulating)) = false
        /\ progress (state (simulationTicks 25 Scenario.simulating)) = 0%Q
        /\ simulationInterval (simulationTicks 25 Scenario.simulating) = None).
Proof.
  repeat split. intros (Hp & _). vm_compute in Hp. discriminate.
Qed.

(** ** removeFromQueue on an id that is queued *)

Lemma removeFromQueue_state (env : Env) (trackId : string) (h : Hook) :
  let cl := state h in
  let index :=
    JsArray.findIndex (fun t => String.eqb (id t) trackId) (queue cl) in
  let nextQueue :=
    filter (fun t => negb (String.eqb (id t) trackId)) (queue cl) in
  index <> -1 ->
  state (removeFromQueue env trackId h) =
  match snd (removalSelection cl index nextQueue) with
  | Some nextTrack =>
      set_currentTrack (Some (resolved env nextTrack))
        (set_progress 0%Q
           (set_currentIndex (fst (removalSelection cl index nextQueue))
              (set_queue nextQueue cl)))
  | None =>
      set_progress 0%Q
        (set_isPlaying false
           (set_currentTrack None
              (set_currentIndex (fst (removalSelection cl index nextQueue))
                 (set_queue nextQueue cl))))
  end.
Proof.
  cbv zeta. intros Hfound. unfold removeFromQueue.
  apply Z.eqb_neq in Hfound. rewrite Hfound.
  destruct (removalSelection _ _ _) as [nextIndex [nextTrack|]]; simpl.
  - rewrite loadTrack_state. reflexivity.
  - reflexivity.
Qed.

(** The queue after a removal holds exactly the entries with another id. *)
Lemma removeFromQueue_queue (env : Env) (trackId : string) (h : Hook) :
  queue (state (removeFromQueue env trackId h)) =
  filter (fun t => negb (String.eqb (id t) trackId)) (queue (state h)).
Proof.
  set (p := fun t : ITrack => String.eqb (id t) trackId).
  destruct (Z.eq_dec (JsArray.findIndex p (queue (state h))) (-1))
    as [Habs|Hfound].
  - unfold removeFromQueue. fold p. rewrite Habs. simpl.
    symmetry. apply forallb_filter_id, forallb_forall. intros t Ht.
    destruct (p t) eqn:E; [|unfold p in E; now rewrite E].
    now destruct (findIndex_present p _ t Ht E).
  - rewrite removeFromQueue_state by exact Hfound.
    destruct (snd _); reflexivity.
Qed.

Lemma removalSelection_index_lower cl index nextQueue :
  -1 <= currentIndex cl ->
  -1 <= fst (removalSelection cl index nextQueue).
Proof.
  intros Hc. unfold removalSelection, JsArray.length.
  split_ifs; simpl; rewrite ?Z.eqb_neq in *; lia.
Qed.

(** ** The index never drops below the sentinel *)

Lemma navigated_index_lower env h s' :
  navigated env h s' ->
  -1 <= currentIndex (state h) -> -1 <= currentIndex s'.
Proof. intros [| |i track Hi _] Hc; simpl; lia. Qed.

Lemma togglePlay_selection (h : Hook) :
  currentIndex (state (togglePlay h)) = currentIndex (state h)
  /\ currentTrack (state (togglePlay h)) = currentTrack (state h)
  /\ queue (state (togglePlay h)) = queue (state h)
  /\ progress (state (togglePlay h)) = progress (state h).
Proof.
  unfold togglePlay. destruct (currentTrack (state h)) as [track|] eqn:Ht.
  - destruct (isPlaying (state h)), (hasPreview track); simpl; auto.
  - auto.
Qed.

Lemma reorderQueue_index_lower (from to : Z) (h : Hook) :
  -1 <= currentIndex (state h) ->
  -1 <= currentIndex (state (reorderQueue from to h)).
Proof.
  intros Hc.
  destruct (reorderQueue_cases from to h) as [-> | (_ & Hf & Ht & ->)];
    [exact Hc|].
  simpl. unfold rebase.
  split_ifs;
    rewrite ?andb_true_iff, ?Z.ltb_lt in *; lia.
Qed.

Lemma step_index_lower (op : Op) (h : Hook) :
  -1 <= currentIndex (state h) -> -1 <= currentIndex (state (step op h)).
Proof.
  intros Hc. destruct op; simpl step; try exact Hc; try (simpl; lia).
  - (* playTrack *)
    unfold playTrack.
    destruct (match currentTrack (state h) with
              | Some current => String.eqb (id current) (id track)
              | None => false
              end).
    + now rewrite (proj1 (togglePlay_selection h)).
    + rewrite loadTrack_state. simpl. lia.
  - (* enqueue *)
    simpl. destruct (currentIndex (state h) =? -1); lia.
  - (* enqueueNext *)
    simpl. destruct (currentIndex (state h) =? -1); simpl; lia.
  - now rewrite (proj1 (togglePlay_selection h)).
  - exact (navigated_index_lower _ _ _ (skipNext_navigated env h) Hc).
  - exact (navigated_index_lower _ _ _ (skipPrevious_navigated env h) Hc).
  - (* seek *)
    unfold seek. now destruct duration.
  - (* removeFromQueue *)
    destruct (Z.eq_dec
                (JsArray.findIndex (fun t => String.eqb (id t) trackId)
                   (queue (state h))) (-1)) as [Habs|Hfound].
    + unfold removeFromQueue. now rewrite Habs.
    + rewrite removeFromQueue_state by exact Hfound.
      pose proof (removalSelection_index_lower (state h)
                    (JsArray.findIndex (fun t => String.eqb (id t) trackId)
                       (queue (state h)))
                    (filter (fun t => negb (String.eqb (id t) trackId))
                       (queue (state h))) Hc).
      destruct (snd _); simpl; assumption.
  - now apply reorderQueue_index_lower.
  - exact (navigated_index_lower _ _ _ (playFromQueue_navigated env index h) Hc).
  - (* simulationTick *)
    unfold simulationTick. destruct (simulationInterval h); [|exact Hc].
    destruct (_ >=? 100); exact Hc.
  - exact (navigated_index_lower _ _ _ (skipNext_navigated env h) Hc).
  - (* progressSample *)
    unfold progressSample. destruct (isPlaying (state h)); exact Hc.
Qed.

Lemma reachable_index_lower (h : Hook) :
  reachable h -> -1 <= currentIndex (state h).
Proof.
  induction 1 as [|op h _ IH _]; [simpl; lia|].
  now apply step_index_lower.
Qed.

(** ** upNext *)

Lemma upNext_entriesAfter (s : AudioPlayerState) :
  -1 <= currentIndex s ->
  upNext s = entriesAfter (currentIndex s) 0 (queue s).
Proof.
  intros Hc. unfold upNext. rewrite slice_nonneg by lia.
  rewrite entriesAfter_skipn. f_equal. lia.
Qed.

Lemma run_index_lower (ops : list Op) (h : Hook) :
  -1 <= currentIndex (state h) -> -1 <= currentIndex (state (run ops h)).
Proof.
  revert h; induction ops as [|op ops IH]; intros h Hc; [exact Hc|].
  simpl. apply IH. now apply step_index_lower.
Qed.

(** For the states the hook gets into from its mounted state, by
    whatever sequence of calls and events. *)
Lemma upNext_is_suffix_after_current (ops : list Op) :
  let s := state (run ops mount) in
  upNext s = entriesAfter (currentIndex s) 0 (queue s)
  /\ upNext s = skipn (Z.to_nat (currentIndex s + 1)) (queue s)
  /\ (currentIndex s = -1 -> upNext s = queue s).
Proof.
  cbv zeta.
  assert (Hc : -1 <= currentIndex (state (run ops mount)))
    by (apply run_index_lower; simpl; lia).
  split; [now apply upNext_entriesAfter|].
  assert (Hs : upNext (state (run ops mount))
               = skipn (Z.to_nat (currentIndex (state (run ops mount)) + 1))
                   (queue (state (run ops mount))))
    by (unfold upNext; apply slice_nonneg; lia).
  split; [exact Hs|].
  intros Hnone. rewrite Hs, Hnone. reflexivity.
Qed.

(** C9, as the code has it.  In every state whose currentIndex is -1 or
    more, [upNext] is the list of queue entries at positions strictly
    after [currentIndex], that is the queue without its first
    [currentIndex + 1] entries; with [currentIndex = -1] it is the whole
    queue. *)
Theorem upNext_suffix_from_sentinel_up (s : AudioPlayerState) :
  -1 <= currentIndex s ->
  upNext s = entriesAfter (currentIndex s) 0 (queue s)
  /\ upNext s = skipn (Z.to_nat (currentIndex s + 1)) (queue s)
  /\ (currentIndex s = -1 -> upNext s = queue s).
Proof.
  intros Hc. split; [now apply upNext_entriesAfter|].
  assert (Hs : upNext s = skipn (Z.to_nat (currentIndex s + 1)) (queue s))
    by (unfold upNext; apply slice_nonneg; lia).
  split; [exact Hs|].
  intros Hnone. rewrite Hs, Hnone. reflexivity.
Qed.

Lemma upNext_suffix_from_sentinel_up_witness :
  upNext (state Scenario.threeTracks) = [Scenario.T3].
Proof.
  refine (proj1 (proj2 (upNext_suffix_from_sentinel_up
                          (state Scenario.threeTracks) _))).
  vm_compute. discriminate.
Defined.

(** On the code: [setCurrentIndex(-3)], which the hook returns among its
    callbacks, leaves an index below the sentinel; [slice] then counts
    from the end of the queue, and [upNext] is its last two entries while
    the entries after position -3 are all three. *)
Lemma upNext_counts_from_the_end :
  queue (state (setCurrentIndex (-3) Scenario.threeTracks))
  = [Scenario.T1; Scenario.T2; Scenario.T3]
  /\ currentIndex (state (setCurrentIndex (-3) Scenario.threeTracks)) = -3
  /\ upNext (state (setCurrentIndex (-3) Scenario.threeTracks))
     = [Scenario.T2; Scenario.T3]
  /\ upNext (state (setCurrentIndex (-3) Scenario.threeTracks))
     <> entriesAfter (-3) 0
          (queue (state (setCurrentIndex (-3) Scenario.threeTracks))).
Proof. repeat split. discriminate. Qed.

Lemma reachable_run (ops : list Op) (h : Hook) :
  reachable h -> Forall admissible ops -> reachable (run ops h).
Proof.
  revert h; induction ops as [|op ops IH]; intros h Hr Hall; [exact Hr|].
  inversion Hall; subst. simpl. apply IH; [|assumption].
  now apply reachable_step.
Qed.

(** ** Progress *)

Lemma percent_zero : percent 0%Q.
Proof. split; discriminate. Qed.

Lemma percent_counter (n : Z) : 0 <= n <= 100 -> percent (inject_Z n).
Proof. intros Hn. unfold percent, Qle. simpl. lia. Qed.

Lemma loadTrack_timer cl env track shouldPlay h :
  simulationInterval (loadTrack cl env track shouldPlay h) = None
  \/ simulationInterval (loadTrack cl env track shouldPlay h) = Some 0.
Proof.
  unfold loadTrack, playResolved.
  repeat match goal with
         | |- context [if ?b then _ else _] => destruct b
         | |- context [match ?x with Some _ => _ | None => _ end] => destruct x
         end; simpl; auto.
Qed.

Lemma loadTrack_clock cl env track shouldPlay h :
  clockInRange (loadTrack cl env track shouldPlay h).
Proof.
  unfold clockInRange.
  destruct (loadTrack_timer cl env track shouldPlay h) as [-> | ->];
    [exact I|lia].
Qed.

Lemma goToIndex_clock cl env nextIndex autoPlay h :
  clockInRange h -> clockInRange (goToIndex cl env nextIndex autoPlay h).
Proof.
  intros Hc. unfold goToIndex.
  destruct nextIndex as [i|]; [|exact Hc].
  destruct ((i <? 0) || (i >=? JsArray.length (queue cl))); [exact Hc|].
  destruct (JsArray.get (queue cl) i); [|exact Hc].
  destruct autoPlay; [apply loadTrack_clock|exact Hc].
Qed.

Lemma togglePlay_clock (h : Hook) : clockInRange h -> clockInRange (togglePlay h).
Proof.
  intros Hc. unfold togglePlay.
  destruct (currentTrack (state h)) as [track|]; [|exact Hc].
  destruct (isPlaying (state h)), (hasPreview track);
    unfold clockInRange; simpl; auto; lia.
Qed.

Lemma step_clock (op : Op) (h : Hook) :
  clockInRange h -> clockInRange (step op h).
Proof.
  intros Hc. destruct op; simpl step; try exact Hc; try exact I.
  - unfold playTrack. destruct (match currentTrack (state h) with
                                | Some _ => _ | None => _ end);
      [now apply togglePlay_clock|apply loadTrack_clock].
  - now apply togglePlay_clock.
  - unfold skipNext.
    split_ifs; auto using goToIndex_clock.
  - unfold skipPrevious.
    split_ifs; auto using goToIndex_clock.
  - unfold seek. now destruct duration.
  - unfold removeFromQueue. destruct (_ =? -1); [exact Hc|].
    destruct (removalSelection _ _ _) as [nextIndex [nextTrack|]];
      [apply loadTrack_clock|exact Hc].
  - now apply goToIndex_clock.
  - unfold simulationTick, clockInRange in *.
    destruct (simulationInterval h) as [n|] eqn:Hs; [|now rewrite Hs].
    destruct (n + 1 >=? 100) eqn:E; simpl; [exact I|].
    rewrite Z.geb_leb in E. apply Z.leb_gt in E. lia.
  - unfold handleEnded, skipNext.
    split_ifs; auto using goToIndex_clock.
  - unfold progressSample. now destruct (isPlaying (state h)).
Qed.

Lemma navigated_progress env h s' :
  navigated env h s' ->
  (currentTrack s' = currentTrack (state h)
   /\ (progress s' = progress (state h) \/ progress s' = 0%Q))
  \/ progress s' = 0%Q.
Proof. intros [| |i track _ _]; simpl; auto. Qed.

Lemma reorderQueue_selection (from to : Z) (h : Hook) :
  currentTrack (state (reorderQueue from to h)) = currentTrack (state h)
  /\ progress (state (reorderQueue from to h)) = progress (state h).
Proof.
  destruct (reorderQueue_cases from to h) as [-> | (_ & _ & _ & ->)]; auto.
Qed.

(** Every call and event either keeps the current track, or ends with
    progress 0, or is one of the two enqueue calls. *)
Lemma step_track_or_reset (op : Op) (h : Hook) :
  isEnqueue op = false ->
  currentTrack (state (step op h)) = currentTrack (state h)
  \/ progress (state (step op h)) = 0%Q.
Proof.
  intros Hop. destruct op; simpl step; try discriminate; auto.
  - unfold playTrack. destruct (match currentTrack (state h) with
                                | Some _ => _ | None => _ end).
    + left. apply togglePlay_selection.
    + right. now rewrite loadTrack_state.
  - left. apply togglePlay_selection.
  - destruct (navigated_progress _ _ _ (skipNext_navigated env h)); tauto.
  - destruct (navigated_progress _ _ _ (skipPrevious_navigated env h)); tauto.
  - left. unfold seek. now destruct duration.
  - destruct (Z.eq_dec
                (JsArray.findIndex (fun t => String.eqb (id t) trackId)
                   (queue (state h))) (-1)) as [Habs|Hfound].
    + left. unfold removeFromQueue. now rewrite Habs.
    + right. rewrite removeFromQueue_state by exact Hfound.
      now destruct (snd _).
  - left. apply reorderQueue_selection.
  - destruct (navigated_progress _ _ _ (playFromQueue_navigated env index h));
      tauto.
  - left. unfold simulationTick. destruct (simulationInterval h); [|reflexivity].
    now destruct (_ >=? 100).
  - destruct (navigated_progress _ _ _ (skipNext_navigated env h)); tauto.
  - left. unfold progressSample. now destruct (isPlaying (state h)).
Qed.

Lemma step_progress (op : Op) (h : Hook) :
  admissible op -> clockInRange h ->
  percent (progress (state h)) -> percent (progress (state (step op h))).
Proof.
  intros Hadm Hc Hp.
  destruct (isEnqueue op) eqn:Hop.
  - destruct op; try discriminate; exact Hp || (simpl;
      destruct (currentIndex (state h) =? -1); exact Hp).
  - destruct op; simpl step; try discriminate; try exact Hp;
      try exact percent_zero.
    + unfold playTrack. destruct (match currentTrack (state h) with
                                  | Some _ => _ | None => _ end).
      * now rewrite (proj2 (proj2 (proj2 (togglePlay_selection h)))).
      * rewrite loadTrack_state. exact percent_zero.
    + now rewrite (proj2 (proj2 (proj2 (togglePlay_selection h)))).
    + destruct (navigated_progress _ _ _ (skipNext_navigated env h))
        as [[_ [-> | ->]] | ->]; auto using percent_zero.
    + destruct (navigated_progress _ _ _ (skipPrevious_navigated env h))
        as [[_ [-> | ->]] | ->]; auto using percent_zero.
    + unfold seek. destruct duration; exact Hadm.
    + destruct (step_track_or_reset (RemoveFromQueue env trackId) h eq_refl)
        as [_ | Hz].
      * destruct (Z.eq_dec
                    (JsArray.findIndex (fun t => String.eqb (id t) trackId)
                       (queue (state h))) (-1)) as [Habs|Hfound].
        -- unfold removeFromQueue. now rewrite Habs.
        -- rewrite removeFromQueue_state by exact Hfound.
           destruct (snd _); exact percent_zero.
      * simpl in Hz. rewrite Hz. exact percent_zero.
    + now rewrite (proj2 (reorderQueue_selection from to h)).
    + destruct (navigated_progress _ _ _ (playFromQueue_navigated env index h))
        as [[_ [-> | ->]] | ->]; auto using percent_zero.
    + unfold simulationTick, clockInRange in *.
      destruct (simulationInterval h) as [n|]; [|exact Hp].
      destruct (n + 1 >=? 100); simpl; [exact percent_zero|].
      apply percent_counter. lia.
    + unfold handleEnded.
      destruct (navigated_progress _ _ _ (skipNext_navigated env h))
        as [[_ [-> | ->]] | ->]; auto using percent_zero.
    + unfold progressSample. destruct (isPlaying (state h)); [exact Hadm|exact Hp].
Qed.

Lemma reachable_progress (h : Hook) :
  reachable h -> clockInRange h /\ percent (progress (state h)).
Proof.
  induction 1 as [|op h _ [IHc IHp] Hadm].
  - split; [exact I|exact percent_zero].
  - split; [now apply step_clock|now apply step_progress].
Qed.

Lemma seekedEmpty_reachable : reachable Scenario.seekedEmpty.
Proof.
  apply reachable_run; [apply reachable_mount|].
  repeat constructor; discriminate.
Qed.

(** On the code: after [seek(50)] on the freshly mounted hook, [enqueue]
    makes T1 the current track and progress stays at 50. *)
Lemma enqueue_selects_without_reset :
  reachable Scenario.seekedEmpty
  /\ admissible (Enqueue Scenario.T1)
  /\ currentTrack (state (step (Enqueue Scenario.T1) Scenario.seekedEmpty))
     <> currentTrack (state Scenario.seekedEmpty)
  /\ progress (state (step (Enqueue Scenario.T1) Scenario.seekedEmpty)) = 50%Q
  /\ ~ progress (state (step (Enqueue Scenario.T1) Scenario.seekedEmpty))
       = 0%Q.
Proof.
  split; [exact seekedEmpty_reachable|].
  repeat split; discriminate.
Qed.

(** ** removeFromQueue and repeated ids *)

(** C3 on the code: with T1 queued twice, [removeFromQueue("t1")] removes
    both copies, not only the first. *)
Lemma removeFromQueue_removes_every_copy :
  queue (state Scenario.repeatedSong)
  = [Scenario.T1; Scenario.T2; Scenario.T1]
  /\ queue (state (removeFromQueue Scenario.quiet "t1" Scenario.repeatedSong))
     = [Scenario.T2]
  /\ queue (state (removeFromQueue Scenario.quiet "t1" Scenario.repeatedSong))
     <> removeAt 0 (queue (state Scenario.repeatedSong)).
Proof. repeat split; discriminate. Qed.

(** C1 on the code: the same removal leaves index 1 on a one-entry queue
    and no current track. *)
Lemma removeFromQueue_loses_selection :
  reachable (removeFromQueue Scenario.quiet "t1" Scenario.repeatedSong)
  /\ queue (state (removeFromQueue Scenario.quiet "t1" Scenario.repeatedSong))
     = [Scenario.T2]
  /\ currentIndex
       (state (removeFromQueue Scenario.quiet "t1" Scenario.repeatedSong)) = 1
  /\ currentTrack
       (state (removeFromQueue Scenario.quiet "t1" Scenario.repeatedSong))
     = None.
Proof.
  split; [|repeat split].
  change (removeFromQueue Scenario.quiet "t1" Scenario.repeatedSong)
    with (step (RemoveFromQueue Scenario.quiet "t1") Scenario.repeatedSong).
  apply reachable_step; [|exact I].
  apply reachable_run; [apply reachable_mount|repeat constructor].
Qed.

(** ** The selection invariant, away from repeated ids *)

Section FilterFacts.
Context {A : Type}.
Implicit Types (l : list A) (p : A -> bool).

Lemma filter_none_keeps_all p l :
  filter p l = [] -> filter (fun x => negb (p x)) l = l.
Proof.
  induction l as [|x rest IH]; simpl; [reflexivity|].
  destruct (p x); [discriminate|]. intros Hr. simpl. now rewrite IH.
Qed.

(** Filtering out a predicate that holds once removes the first match. *)
Lemma filter_single_match p l :
  (List.length (filter p l) <= 1)%nat ->
  JsArray.findIndex p l <> -1 ->
  filter (fun x => negb (p x)) l
  = removeAt (Z.to_nat (JsArray.findIndex p l)) l.
Proof.
  induction l as [|x rest IH]; simpl; [congruence|].
  destruct (p x) eqn:Hp; simpl; intros Hlen Hfound.
  - apply filter_none_keeps_all.
    destruct (filter p rest); [reflexivity|simpl in Hlen; lia].
  - pose proof (findIndex_range p rest) as Hr.
    destruct (JsArray.findIndex p rest =? -1) eqn:E; [congruence|].
    apply Z.eqb_neq in E.
    replace (Z.to_nat (JsArray.findIndex p rest + 1))
      with (S (Z.to_nat (JsArray.findIndex p rest))) by lia.
    simpl. now rewrite IH.
Qed.

Lemma get_removeAt (i k : Z) l :
  0 <= i -> 0 <= k ->
  JsArray.get (removeAt (Z.to_nat i) l) k
  = if k <? i then JsArray.get l k else JsArray.get l (k + 1).
Proof.
  intros Hi Hk. unfold JsArray.get.
  replace (k <? 0) with false by (symmetry; apply Z.ltb_ge; lia).
  replace (k + 1 <? 0) with false by (symmetry; apply Z.ltb_ge; lia).
  rewrite nth_error_removeAt.
  destruct (k <? i) eqn:E.
  - apply Z.ltb_lt in E.
    replace (Z.to_nat k <? Z.to_nat i)%nat with true; [reflexivity|].
    symmetry. apply Nat.ltb_lt. lia.
  - apply Z.ltb_ge in E.
    replace (Z.to_nat k <? Z.to_nat i)%nat with false
      by (symmetry; apply Nat.ltb_ge; lia).
    f_equal. lia.
Qed.

Lemma jsLength_removeAt (i : Z) l :
  0 <= i < JsArray.length l ->
  JsArray.length (removeAt (Z.to_nat i) l) = JsArray.length l - 1.
Proof.
  unfold JsArray.length. intros Hi. rewrite length_removeAt by lia. lia.
Qed.

Lemma get_insertAt_before (n k : Z) (x : A) l :
  0 <= k < n -> n <= JsArray.length l ->
  JsArray.get (JsArray.spliceInsert n x l) k = JsArray.get l k.
Proof.
  intros Hk Hn. rewrite spliceInsert_insertAt by lia. unfold JsArray.get.
  destruct (k <? 0); [reflexivity|].
  unfold JsArray.length in Hn. rewrite nth_error_insertAt by lia.
  replace (Z.to_nat k <? Z.to_nat n)%nat with true; [reflexivity|].
  symmetry. apply Nat.ltb_lt. lia.
Qed.

Lemma get_app_before (k : Z) (x : A) l :
  0 <= k < JsArray.length l ->
  JsArray.get (l ++ [x]) k = JsArray.get l k.
Proof.
  intros Hk. unfold JsArray.get, JsArray.length in *.
  destruct (k <? 0); [reflexivity|]. apply nth_error_app1. lia.
Qed.
End FilterFacts.

Lemma removalSelection_consistent (cl : AudioPlayerState) (index : Z) :
  selectionConsistent cl ->
  0 <= index < JsArray.length (queue cl) ->
  let nextQueue := removeAt (Z.to_nat index) (queue cl) in
  match snd (removalSelection cl index nextQueue) with
  | Some nextTrack =>
      0 <= fst (removalSelection cl index nextQueue)
        < JsArray.length nextQueue
      /\ exists entry,
           JsArray.get nextQueue (fst (removalSelection cl index nextQueue))
           = Some entry
           /\ id entry = id nextTrack
  | None =>
      fst (removalSelection cl index nextQueue) = -1 /\ nextQueue = []
  end.
Proof.
  intros (Hiff & Hsel & Hempty) Hi. cbv zeta.
  pose proof (jsLength_removeAt index (queue cl) Hi) as Hlen.
  unfold removalSelection.
  destruct (index =? currentIndex cl) eqn:E1.
  - apply Z.eqb_eq in E1.
    destruct (JsArray.length (removeAt (Z.to_nat index) (queue cl)) =? 0)
      eqn:E2.
    + apply Z.eqb_eq in E2. simpl. split; [reflexivity|].
      unfold JsArray.length in E2.
      destruct (removeAt (Z.to_nat index) (queue cl)); [reflexivity|].
      simpl in E2. lia.
    + apply Z.eqb_neq in E2.
      assert (Hpos : 0 <= JsArray.length (removeAt (Z.to_nat index) (queue cl)))
        by (unfold JsArray.length; lia).
      destruct (currentIndex cl
                >=? JsArray.length (removeAt (Z.to_nat index) (queue cl)))
        eqn:E3; simpl.
      * destruct (get_in_range (removeAt (Z.to_nat index) (queue cl))
                    (JsArray.length (removeAt (Z.to_nat index) (queue cl)) - 1))
          as [t Ht]; [lia|].
        rewrite Ht. split; [lia|]. now exists t.
      * rewrite Z.geb_leb in E3. apply Z.leb_gt in E3.
        destruct (get_in_range (removeAt (Z.to_nat index) (queue cl))
                    (currentIndex cl)) as [t Ht]; [lia|].
        rewrite Ht. split; [lia|]. now exists t.
  - apply Z.eqb_neq in E1.
    destruct (index <? currentIndex cl) eqn:E2.
    + apply Z.ltb_lt in E2.
      destruct Hsel as (Hrange & entry & current & Hget & Htrack & Hid);
        [lia|].
      replace (Z.max (currentIndex cl - 1) 0) with (currentIndex cl - 1) by lia.
      simpl. rewrite get_removeAt by lia.
      replace (currentIndex cl - 1 <? index) with false
        by (symmetry; apply Z.ltb_ge; lia).
      replace (currentIndex cl - 1 + 1) with (currentIndex cl) by lia.
      rewrite Hget. split; [lia|]. now exists entry.
    + apply Z.ltb_ge in E2. simpl.
      destruct (Z.eq_dec (currentIndex cl) (-1)) as [Hnone|Hsome].
      * rewrite (Hempty Hnone) in Hi. unfold JsArray.length in Hi.
        simpl in Hi. lia.
      * destruct (Hsel Hsome)
          as (Hrange & entry & current & Hget & Htrack & Hid).
        rewrite Htrack. split; [lia|].
        exists entry. rewrite get_removeAt by lia.
        replace (currentIndex cl <? index) with true
          by (symmetry; apply Z.ltb_lt; lia).
        auto.
Qed.

Lemma consistent_cleared : consistent None (-1) [].
Proof.
  repeat split; auto; intros; congruence.
Qed.

Lemma consistent_selected (env : Env) (q : list ITrack) (i : Z)
    (entry track : ITrack) :
  keepsId env ->
  0 <= i < JsArray.length q ->
  JsArray.get q i = Some entry -> id entry = id track ->
  consistent (Some (resolved env track)) i q.
Proof.
  intros Hk Hi Hget Hid. repeat split; try lia; try congruence.
  exists entry, (resolved env track).
  rewrite resolved_id by exact Hk. auto.
Qed.

Lemma navigated_consistent (env : Env) (h : Hook) (s' : AudioPlayerState) :
  keepsId env -> navigated env h s' ->
  selectionConsistent (state h) -> selectionConsistent s'.
Proof.
  intros Hk [| |i track Hi Hget] Hinv; try exact Hinv.
  unfold selectionConsistent. simpl.
  now apply (consistent_selected env _ i track track).
Qed.

Lemma playTrack_consistent (env : Env) (track : ITrack) (h : Hook) :
  keepsId env ->
  selectionConsistent (state h) ->
  selectionConsistent (state (playTrack env track h)).
Proof.
  intros Hk Hinv. unfold playTrack.
  destruct (match currentTrack (state h) with
            | Some _ => _ | None => _ end).
  - unfold selectionConsistent.
    destruct (togglePlay_selection h) as (-> & -> & -> & _). exact Hinv.
  - unfold selectionConsistent. rewrite loadTrack_state. simpl.
    apply (consistent_selected env _ 0 track track); auto.
    unfold JsArray.length. simpl. lia.
Qed.

Lemma enqueue_consistent (track : ITrack) (h : Hook) :
  selectionConsistent (state h) ->
  selectionConsistent (state (enqueue track h)).
Proof.
  intros (Hiff & Hsel & Hempty). unfold selectionConsistent. simpl.
  destruct (currentIndex (state h) =? -1) eqn:E.
  - apply Z.eqb_eq in E. rewrite (proj1 Hiff E), (Hempty E). simpl.
    repeat split; try lia; try congruence.
    exists track, track. auto.
  - apply Z.eqb_neq in E.
    destruct (Hsel E) as (Hrange & entry & current & Hget & Htrack & Hid).
    rewrite Htrack. repeat split; try congruence.
    + lia.
    + unfold JsArray.length in *. rewrite length_app. simpl. lia.
    + exists entry, current. rewrite get_app_before by exact Hrange. auto.
Qed.

Lemma enqueueNext_consistent (track : ITrack) (h : Hook) :
  selectionConsistent (state h) ->
  selectionConsistent (state (enqueueNext track h)).
Proof.
  intros (Hiff & Hsel & Hempty). unfold selectionConsistent. simpl.
  destruct (currentIndex (state h) =? -1) eqn:E; simpl.
  - repeat split; try lia; try congruence.
    exists track, track. auto.
  - apply Z.eqb_neq in E.
    destruct (Hsel E) as (Hrange & entry & current & Hget & Htrack & Hid).
    repeat split; try tauto; try lia.
    + rewrite spliceInsert_insertAt by lia. unfold JsArray.length in *.
      rewrite length_insertAt. lia.
    + exists entry, current. rewrite get_insertAt_before by lia. auto.
Qed.

Lemma removeFromQueue_consistent (env : Env) (trackId : string) (h : Hook) :
  keepsId env ->
  (copies trackId (queue (state h)) <= 1)%nat ->
  selectionConsistent (state h) ->
  selectionConsistent (state (removeFromQueue env trackId h)).
Proof.
  intros Hk Hone Hinv.
  set (p := fun t : ITrack => String.eqb (id t) trackId).
  destruct (Z.eq_dec (JsArray.findIndex p (queue (state h))) (-1))
    as [Habs|Hfound].
  - unfold removeFromQueue. fold p. now rewrite Habs.
  - rewrite removeFromQueue_state by exact Hfound. fold p.
    rewrite (filter_single_match p) by assumption.
    pose proof (findIndex_range p (queue (state h))) as Hrange.
    pose proof (removalSelection_consistent (state h)
                  (JsArray.findIndex p (queue (state h))) Hinv
                  ltac:(lia)) as Hsel.
    cbv zeta in Hsel.
    destruct (snd (removalSelection (state h) _ _)) as [nextTrack|].
    + destruct Hsel as (Hin & entry & Hget & Hid).
      unfold selectionConsistent. simpl.
      now apply (consistent_selected env _ _ entry nextTrack).
    + destruct Hsel as (Hnone & Hnil).
      unfold selectionConsistent. simpl. rewrite Hnone, Hnil.
      exact consistent_cleared.
Qed.

Lemma reorderQueue_consistent (from to : Z) (h : Hook) :
  selectionConsistent (state h) ->
  selectionConsistent (state (reorderQueue from to h)).
Proof.
  intros Hinv.
  destruct (reorderQueue_cases from to h) as [-> | (Hne & Hf & Ht & Heq)];
    [exact Hinv|].
  destruct Hinv as (Hiff & Hsel & Hempty).
  destruct (Z.eq_dec (currentIndex (state h)) (-1)) as [Hnone|Hsome].
  - rewrite (Hempty Hnone) in Hf. unfold JsArray.length in Hf. simpl in Hf. lia.
  - destruct (Hsel Hsome) as (Hrange & entry & current & Hget & Htrack & Hid).
    pose proof (reorderQueue_keeps_pointing from to h Hne Hf Ht Hrange) as Hkeep.
    rewrite Hget in Hkeep.
    pose proof (length_pos_of_get _ _ _ Hkeep) as Hrange'.
    unfold selectionConsistent.
    rewrite (proj1 (reorderQueue_selection from to h)), Htrack.
    repeat split; try congruence; try lia.
    exists entry, current. auto.
Qed.

Lemma step_consistent (op : Op) (h : Hook) :
  singleCopy op h ->
  selectionConsistent (state h) -> selectionConsistent (state (step op h)).
Proof.
  intros Hsafe Hinv. destruct op; simpl step; simpl in Hsafe;
    try exact Hinv; try exact consistent_cleared.
  - now apply playTrack_consistent.
  - now apply enqueue_consistent.
  - now apply enqueueNext_consistent.
  - unfold selectionConsistent.
    destruct (togglePlay_selection h) as (-> & -> & -> & _). exact Hinv.
  - exact (navigated_consistent _ _ _ Hsafe (skipNext_navigated env h) Hinv).
  - exact (navigated_consistent _ _ _ Hsafe (skipPrevious_navigated env h) Hinv).
  - unfold seek. now destruct duration.
  - destruct Hsafe. now apply removeFromQueue_consistent.
  - now apply reorderQueue_consistent.
  - exact (navigated_consistent _ _ _ Hsafe
             (playFromQueue_navigated env index h) Hinv).
  - unfold simulationTick. destruct (simulationInterval h); [|exact Hinv].
    destruct (_ >=? 100); exact Hinv.
  - exact (navigated_consistent _ _ _ Hsafe (skipNext_navigated env h) Hinv).
  - unfold progressSample. destruct (isPlaying (state h)); exact Hinv.
Qed.

(** When the id is queued once, the removal is that of the first match. *)
Lemma removeFromQueue_single_copy_queue (env : Env) (trackId : string)
    (h : Hook) :
  (copies trackId (queue (state h)) <= 1)%nat ->
  JsArray.findIndex (fun t => String.eqb (id t) trackId) (queue (state h))
  <> -1 ->
  queue (state (removeFromQueue env trackId h))
  = removeAt
      (Z.to_nat
         (JsArray.findIndex (fun t => String.eqb (id t) trackId)
            (queue (state h))))
      (queue (state h)).
Proof.
  intros Hone Hfound. rewrite removeFromQueue_queue.
  now apply (filter_single_match (fun t => String.eqb (id t) trackId)).
Qed.

(** For calls that each run to completion before the next one: the
    invariant of C1 holds along every run in which no removal names an id
    that is queued more than once and the enrichment service keeps ids. *)
Lemma selection_invariant_single_copy (h : Hook) :
  reachableSingleCopy h ->
  let s := state h in
  (currentIndex s = -1 <-> currentTrack s = None)
  /\ (currentIndex s <> -1 ->
      0 <= currentIndex s < JsArray.length (queue s)
      /\ exists entry current,
           JsArray.get (queue s) (currentIndex s) = Some entry
           /\ currentTrack s = Some current /\ id entry = id current).
Proof.
  intros Hr. cbv zeta.
  assert (Hinv : selectionConsistent (state h)).
  { induction Hr as [|op h _ IH Hsafe];
      [exact consistent_cleared|now apply step_consistent]. }
  destruct Hinv as (Hiff & Hsel & _). split; assumption.
Qed.

(** * Further properties of the hook *)

(** ** Flags and settings *)

Lemma hook_eta (h : Hook) :
  mkHook (state h) (simulationInterval h) (audio h) = h.
Proof. now destruct h. Qed.

Lemma state_eta (s : AudioPlayerState) :
  mkState (currentTrack s) (currentIndex s) (queue s) (isPlaying s)
          (progress s) (volume s) (isShuffled s) (repeatMode s)
          (isMinimized s) (isQueueOpen s) = s.
Proof. now destruct s. Qed.


(** ** Navigation *)

Lemma jsLength_nil_iff {A : Type} (l : list A) :
  JsArray.length l = 0 <-> l = [].
Proof.
  unfold JsArray.length. destruct l; simpl; split; intros; try reflexivity;
    try discriminate; lia.
Qed.

Lemma removeFromQueue_unknown_id_general (env : Env) (trackId : string)
    (h : Hook) :
  (forall t, In t (queue (state h)) -> String.eqb (id t) trackId = false) ->
  removeFromQueue env trackId h = h.
Proof.
  intros Hno. unfold removeFromQueue. now rewrite findIndex_absent.
Qed.

(** X4.  On an empty queue [skipNext], [skipPrevious], [reorderQueue] and
    [removeFromQueue] return the hook untouched, and [playFromQueue] only
    pauses: isPlaying = false, progress = 0, nothing selected.  That is
    the situation after [clearQueue] and after [closePlayer]. *)
Theorem empty_queue_calls (env : Env) (h : Hook) :
  queue (state h) = [] ->
  skipNext env h = h
  /\ skipPrevious env h = h
  /\ (forall from to, reorderQueue from to h = h)
  /\ (forall trackId, removeFromQueue env trackId h = h)
  /\ (forall index,
        state (playFromQueue env index h)
        = set_progress 0%Q (set_isPlaying false (state h))
        /\ audio (playFromQueue env index h) = audio h ++ [AudioPause])
  /\ queue (state (clearQueue h)) = []
  /\ queue (state (closePlayer h)) = [].
Proof.
  intros Hq. repeat split.
  - unfold skipNext. now rewrite Hq.
  - unfold skipPrevious. now rewrite Hq.
  - intros from to. apply reorderQueue_rejects. rewrite Hq.
    unfold JsArray.length. simpl. lia.
  - intros trackId. apply removeFromQueue_unknown_id_general.
    rewrite Hq. intros t [].
  - unfold playFromQueue. rewrite goToIndex_stop_state; [reflexivity|].
    rewrite Hq. unfold JsArray.length. simpl. lia.
  - unfold playFromQueue. rewrite goToIndex_stop_state; [reflexivity|].
    rewrite Hq. unfold JsArray.length. simpl. lia.
Qed.

Lemma empty_queue_calls_witness :
  skipNext Scenario.quiet mount = mount
  /\ skipPrevious Scenario.quiet mount = mount.
Proof.
  destruct (empty_queue_calls Scenario.quiet mount eq_refl)
    as (Hnext & Hprev & _).
  split; [exact Hnext|exact Hprev].
Defined.

(** X5.  [playFromQueue(index)] with an index outside the queue (negative
    or past the end) is no error: it pauses the audio element, sets
    isPlaying = false and progress = 0 and keeps queue and selection.
    With the index of an entry it selects that entry: currentIndex is the
    index, the current track is the loader's copy of the entry, isPlaying
    = true, progress = 0, and every other field is kept. *)
Theorem playFromQueue_selects_or_stops (env : Env) (index : Z) (h : Hook) :
  (index < 0 \/ JsArray.length (queue (state h)) <= index ->
   state (playFromQueue env index h)
   = set_progress 0%Q (set_isPlaying false (state h))
   /\ audio (playFromQueue env index h) = audio h ++ [AudioPause]
   /\ simulationInterval (playFromQueue env index h) = simulationInterval h)
  /\ (forall entry, JsArray.get (queue (state h)) index = Some entry ->
      state (playFromQueue env index h)
      = set_currentTrack (Some (resolved env entry))
          (set_progress 0%Q
             (set_isPlaying true (set_currentIndex index (state h)))))
  /\ (0 <= index < JsArray.length (queue (state h)) ->
      exists entry, JsArray.get (queue (state h)) index = Some entry).
Proof.
  split; [|split].
  - intros Hout. unfold playFromQueue.
    rewrite goToIndex_stop_state by exact Hout. repeat split.
  - intros entry Hget. unfold playFromQueue.
    apply goToIndex_play_state; [|exact Hget].
    now apply (length_pos_of_get _ _ entry).
  - apply get_in_range.
Qed.

Lemma playFromQueue_selects_or_stops_witness :
  state (playFromQueue Scenario.quiet 7 Scenario.threeTracks)
  = set_progress 0%Q (set_isPlaying false (state Scenario.threeTracks))
  /\ currentIndex (state (playFromQueue Scenario.quiet 2 Scenario.threeTracks))
     = 2.
Proof.
  destruct (playFromQueue_selects_or_stops Scenario.quiet 7
              Scenario.threeTracks) as (Hout & _).
  destruct (playFromQueue_selects_or_stops Scenario.quiet 2
              Scenario.threeTracks) as (_ & Hin & _).
  split.
  - apply Hout. right. vm_compute. discriminate.
  - rewrite (Hin Scenario.T3 eq_refl). reflexivity.
Defined.

(** X6.  In repeat-one mode [skipNext] restarts the selected entry,
    shuffled or not: same index, the loader's copy of the entry as
    current track, isPlaying = true, progress = 0.  [skipPrevious] does
    not look at repeat-one: with shuffle off it still moves one entry
    back. *)
Theorem repeat_one_restarts (env : Env) (h : Hook) (entry : ITrack) :
  repeatMode (state h) = RepeatOne ->
  JsArray.get (queue (state h)) (currentIndex (state h)) = Some entry ->
  state (skipNext env h)
  = set_currentTrack (Some (resolved env entry))
      (set_progress 0%Q (set_isPlaying true (state h)))
  /\ (forall before,
        isShuffled (state h) = false ->
        JsArray.get (queue (state h)) (currentIndex (state h) - 1)
        = Some before ->
        state (skipPrevious env h)
        = set_currentTrack (Some (resolved env before))
            (set_progress 0%Q
               (set_isPlaying true
                  (set_currentIndex (currentIndex (state h) - 1) (state h))))).
Proof.
  intros Hr Hget.
  pose proof (length_pos_of_get _ _ _ Hget) as Hin.
  split.
  - unfold skipNext. rewrite Hr.
    replace (JsArray.length (queue (state h)) =? 0) with false
      by (symmetry; apply Z.eqb_neq; lia).
    replace (currentIndex (state h) >=? 0) with true
      by (symmetry; apply Z.geb_le; lia).
    cbn [isRepeatOne andb].
    now rewrite (goToIndex_play_state _ _ _ _ entry) by auto.
  - intros before Hs Hb.
    pose proof (length_pos_of_get _ _ _ Hb) as Hinb.
    unfold skipPrevious. rewrite Hs.
    replace (JsArray.length (queue (state h)) =? 0) with false
      by (symmetry; apply Z.eqb_neq; lia).
    replace (currentIndex (state h) - 1 <? 0) with false
      by (symmetry; apply Z.ltb_ge; lia).
    now rewrite (goToIndex_play_state _ _ _ _ before) by auto.
Qed.

Lemma repeat_one_restarts_witness :
  currentIndex
    (state (skipNext Scenario.quiet (toggleRepeat Scenario.threeTracks))) = 1.
Proof.
  destruct (repeat_one_restarts Scenario.quiet
              (toggleRepeat Scenario.threeTracks) Scenario.T2
              eq_refl eq_refl) as [Hnext _].
  rewrite Hnext. reflexivity.
Defined.

(** X7.  With shuffle off and outside repeat-one mode, [skipNext] selects
    the entry after the current one and [skipPrevious] the entry before
    it (loader's copy as current track, isPlaying = true, progress = 0).
    [skipPrevious] at the first entry, unless repeat is all, only stops:
    the audio element is paused, isPlaying = false, progress = 0, and the
    selection stays on the first entry. *)
Theorem sequential_skips (env : Env) (h : Hook) :
  isShuffled (state h) = false ->
  (forall following,
     repeatMode (state h) <> RepeatOne ->
     JsArray.get (queue (state h)) (currentIndex (state h) + 1)
     = Some following ->
     state (skipNext env h)
     = set_currentTrack (Some (resolved env following))
         (set_progress 0%Q
            (set_isPlaying true
               (set_currentIndex (currentIndex (state h) + 1) (state h)))))
  /\ (forall before,
        JsArray.get (queue (state h)) (currentIndex (state h) - 1)
        = Some before ->
        state (skipPrevious env h)
        = set_currentTrack (Some (resolved env before))
            (set_progress 0%Q
               (set_isPlaying true
                  (set_currentIndex (currentIndex (state h) - 1) (state h)))))
  /\ (queue (state h) <> [] -> currentIndex (state h) <= 0 ->
      repeatMode (state h) <> RepeatAll ->
      state (skipPrevious env h)
      = set_progress 0%Q (set_isPlaying false (state h))
      /\ audio (skipPrevious env h) = audio h ++ [AudioPause]).
Proof.
  intros Hs. split; [|split].
  - intros following Hr Hget.
    pose proof (length_pos_of_get _ _ _ Hget) as Hin.
    unfold skipNext. rewrite Hs.
    replace (JsArray.length (queue (state h)) =? 0) with false
      by (symmetry; apply Z.eqb_neq; lia).
    replace (isRepeatOne (repeatMode (state h))) with false
      by (destruct (repeatMode (state h)) eqn:E; simpl; congruence).
    cbn [andb].
    replace (currentIndex (state h) + 1
             >=? JsArray.length (queue (state h))) with false
      by (symmetry; rewrite Z.geb_leb; apply Z.leb_gt; lia).
    now rewrite (goToIndex_play_state _ _ _ _ following) by auto.
  - intros before Hb.
    pose proof (length_pos_of_get _ _ _ Hb) as Hinb.
    unfold skipPrevious. rewrite Hs.
    replace (JsArray.length (queue (state h)) =? 0) with false
      by (symmetry; apply Z.eqb_neq; lia).
    replace (currentIndex (state h) - 1 <? 0) with false
      by (symmetry; apply Z.ltb_ge; lia).
    now rewrite (goToIndex_play_state _ _ _ _ before) by auto.
  - intros Hq Hi Hr. unfold skipPrevious. rewrite Hs.
    replace (JsArray.length (queue (state h)) =? 0) with false
      by (symmetry; apply Z.eqb_neq; rewrite jsLength_nil_iff; exact Hq).
    replace (currentIndex (state h) - 1 <? 0) with true
      by (symmetry; apply Z.ltb_lt; lia).
    replace (isRepeatAll (repeatMode (state h))) with false
      by (destruct (repeatMode (state h)) eqn:E; simpl; congruence).
    rewrite goToIndex_stop_state by exact I. split; reflexivity.
Qed.

Lemma sequential_skips_witness :
  currentIndex (state (skipNext Scenario.quiet Scenario.threeTracks)) = 2
  /\ currentIndex (state (skipPrevious Scenario.quiet Scenario.threeTracks))
     = 0.
Proof.
  destruct (sequential_skips Scenario.quiet Scenario.threeTracks eq_refl)
    as (Hnext & Hprev & _).
  split.
  - rewrite (Hnext Scenario.T3); [reflexivity|discriminate|reflexivity].
  - rewrite (Hprev Scenario.T1); reflexivity.
Defined.

Lemma next_circular (i len : Z) :
  0 <= i < len -> 1 < len ->
  0 <= Z.rem (i + 1) len < len /\ Z.rem (i + 1) len <> i.
Proof.
  intros Hi Hlen. rewrite Z.rem_mod_nonneg by lia.
  destruct (Z.eq_dec (i + 1) len) as [Heq|Hne].
  - rewrite Heq, Z.mod_same by lia. lia.
  - rewrite Z.mod_small by lia. lia.
Qed.

(** X8.  With shuffle on, outside repeat-one mode and with more than one
    entry queued, [skipNext] never selects the index that was current: it
    selects the drawn index, and when the draw hit the current index it
    selects the circularly next one, [(currentIndex + 1) % length], that
    is currentIndex + 1 or, from the last position, 0.  [skipPrevious]
    applies no such correction and selects the drawn index whatever it
    is. *)
Theorem shuffled_skips (env : Env) (h : Hook) :
  isShuffled (state h) = true ->
  0 <= randomIndex env < JsArray.length (queue (state h)) ->
  (repeatMode (state h) <> RepeatOne ->
   1 < JsArray.length (queue (state h)) ->
   0 <= currentIndex (state (skipNext env h))
     < JsArray.length (queue (state h))
   /\ currentIndex (state (skipNext env h)) <> currentIndex (state h)
   /\ (randomIndex env <> currentIndex (state h) ->
       currentIndex (state (skipNext env h)) = randomIndex env)
   /\ (randomIndex env = currentIndex (state h) ->
       currentIndex (state (skipNext env h))
       = Z.rem (currentIndex (state h) + 1)
               (JsArray.length (queue (state h)))
       /\ (currentIndex (state h) + 1 < JsArray.length (queue (state h)) ->
           currentIndex (state (skipNext env h)) = currentIndex (state h) + 1)
       /\ (currentIndex (state h) + 1 = JsArray.length (queue (state h)) ->
           currentIndex (state (skipNext env h)) = 0))
   /\ isPlaying (state (skipNext env h)) = true)
  /\ currentIndex (state (skipPrevious env h)) = randomIndex env.
Proof.
  intros Hs Hrnd. split.
  - intros Hr Hlen. unfold skipNext. rewrite Hs.
    replace (JsArray.length (queue (state h)) =? 0) with false
      by (symmetry; apply Z.eqb_neq; lia).
    replace (isRepeatOne (repeatMode (state h))) with false
      by (destruct (repeatMode (state h)) eqn:E; simpl; congruence).
    replace (JsArray.length (queue (state h)) >? 1) with true
      by (symmetry; rewrite Z.gtb_ltb; apply Z.ltb_lt; lia).
    cbn [andb].
    destruct (randomIndex env =? currentIndex (state h)) eqn:E.
    + apply Z.eqb_eq in E.
      destruct (next_circular (randomIndex env)
                  (JsArray.length (queue (state h))) Hrnd Hlen)
        as [Hin Hne].
      replace (Z.rem (randomIndex env + 1) (JsArray.length (queue (state h)))
               >=? JsArray.length (queue (state h))) with false
        by (symmetry; rewrite Z.geb_leb; apply Z.leb_gt; lia).
      destruct (get_in_range (queue (state h)) _ Hin) as [entry Hget].
      rewrite (goToIndex_play_state _ _ _ _ entry) by auto. simpl.
      split; [lia|]. split; [lia|]. split; [lia|]. split; [|reflexivity].
      intros _. rewrite E. split; [reflexivity|]. split.
      * intros Hnext. now rewrite Z.rem_small by lia.
      * intros Hlast. rewrite Hlast. apply Z.rem_same. lia.
    + apply Z.eqb_neq in E.
      replace (randomIndex env >=? JsArray.length (queue (state h)))
        with false
        by (symmetry; rewrite Z.geb_leb; apply Z.leb_gt; lia).
      destruct (get_in_range (queue (state h)) _ Hrnd) as [entry Hget].
      rewrite (goToIndex_play_state _ _ _ _ entry) by auto. simpl.
      repeat split; lia.
  - unfold skipPrevious. rewrite Hs.
    replace (JsArray.length (queue (state h)) =? 0) with false
      by (symmetry; apply Z.eqb_neq; lia).
    replace (randomIndex env <? 0) with false
      by (symmetry; apply Z.ltb_ge; lia).
    destruct (get_in_range (queue (state h)) _ Hrnd) as [entry Hget].
    now rewrite (goToIndex_play_state _ _ _ _ entry) by auto.
Qed.

Lemma shuffled_skips_witness :
  currentIndex
    (state (skipNext (mkEnv 1 (fun _ => None) true)
              (toggleShuffle Scenario.threeTracks))) = 2
  /\ currentIndex
       (state (skipPrevious (mkEnv 1 (fun _ => None) true)
                 (toggleShuffle Scenario.threeTracks))) = 1.
Proof.
  assert (Hrnd : 0 <= 1 < JsArray.length
                            (queue (state (toggleShuffle Scenario.threeTracks))))
    by (vm_compute; split; [discriminate|reflexivity]).
  destruct (shuffled_skips (mkEnv 1 (fun _ => None) true)
              (toggleShuffle Scenario.threeTracks) eq_refl Hrnd)
    as [Hnext Hprev].
  split; [|exact Hprev].
  destruct Hnext as (_ & _ & _ & Hhit & _);
    [discriminate|vm_compute; reflexivity|].
  destruct (Hhit eq_refl) as (_ & Hstep & _).
  apply Hstep. vm_compute. reflexivity.
Defined.

(** ** playTrack and the two enqueue calls *)

(** X9.  [playTrack] with a track whose id is not that of the current
    track replaces the whole queue by that one track, selects it and
    starts it: queue = [track], currentIndex = 0, isPlaying = true,
    progress = 0, nothing up next, settings kept.  Calling it again with
    the same track does not reload it but pauses it (the enrichment
    service keeping ids): isPlaying = false, and no synthetic timer is
    left running. *)
Theorem playTrack_replaces_queue (env again : Env) (track : ITrack) (h : Hook) :
  (forall current, currentTrack (state h) = Some current ->
                   id current <> id track) ->
  state (playTrack env track h)
  = mkState (Some (resolved env track)) 0 [track] true 0%Q
      (volume (state h)) (isShuffled (state h)) (repeatMode (state h))
      (isMinimized (state h)) (isQueueOpen (state h))
  /\ upNext (state (playTrack env track h)) = []
  /\ (keepsId env ->
      state (playTrack again track (playTrack env track h))
      = set_isPlaying false (state (playTrack env track h))
      /\ simulationInterval (playTrack again track (playTrack env track h))
         = None).
Proof.
  intros Hother.
  assert (Hload : playTrack env track h
                  = loadTrack (state h) env track true
                      (setState (fun prev =>
                         set_progress 0%Q
                           (set_isPlaying true
                              (set_currentTrack (Some track)
                                 (set_currentIndex 0
                                    (set_queue [track] prev))))) h)).
  { unfold playTrack. destruct (currentTrack (state h)) as [current|] eqn:Hc;
      [|reflexivity].
    now rewrite (proj2 (String.eqb_neq _ _) (Hother current eq_refl)). }
  assert (Hstate : state (playTrack env track h)
                   = mkState (Some (resolved env track)) 0 [track] true 0%Q
                       (volume (state h)) (isShuffled (state h))
                       (repeatMode (state h)) (isMinimized (state h))
                       (isQueueOpen (state h)))
    by (rewrite Hload, loadTrack_state; reflexivity).
  split; [exact Hstate|]. split; [now rewrite Hstate|].
  intros Hk. clear Hload.
  destruct (playTrack env track h) as [s1 sim1 au1]. simpl in Hstate.
  subst s1. unfold playTrack. cbn [state currentTrack].
  rewrite (resolved_id env track Hk), String.eqb_refl.
  unfold togglePlay. cbn [state currentTrack isPlaying].
  split; reflexivity.
Qed.

Lemma playTrack_replaces_queue_witness :
  queue (state (playTrack Scenario.quiet Scenario.T3 Scenario.endOfQueue))
  = [Scenario.T3]
  /\ isPlaying
       (state (playTrack Scenario.quiet Scenario.T3
                 (playTrack Scenario.quiet Scenario.T3 Scenario.endOfQueue)))
     = false.
Proof.
  destruct (playTrack_replaces_queue Scenario.quiet Scenario.quiet
              Scenario.T3 Scenario.endOfQueue) as (Hs & _ & Hagain).
  - intros current Hc. vm_compute in Hc. injection Hc as <-. discriminate.
  - split; [now rewrite Hs|].
    destruct Hagain as [Hp _]; [intros t t' Ht; discriminate|].
    now rewrite Hp.
Defined.





(** X11.  With a selection inside the queue, [enqueueNext] puts the track
    at the head of [upNext] and [enqueue] puts it at its end; neither
    moves the current index or changes the current track. *)
Theorem enqueue_extends_upNext (track : ITrack) (h : Hook) :
  0 <= currentIndex (state h) < JsArray.length (queue (state h)) ->
  upNext (state (enqueueNext track h)) = track :: upNext (state h)
  /\ upNext (state (enqueue track h)) = upNext (state h) ++ [track]
  /\ currentIndex (state (enqueueNext track h)) = currentIndex (state h)
  /\ currentTrack (state (enqueueNext track h)) = currentTrack (state h)
  /\ currentIndex (state (enqueue track h)) = currentIndex (state h).
Proof.
  intros Hi.
  assert (Hne : (currentIndex (state h) =? -1) = false)
    by (apply Z.eqb_neq; lia).
  assert (Hk : (Z.to_nat (currentIndex (state h) + 1)
                <= List.length (queue (state h)))%nat)
    by (unfold JsArray.length in Hi; lia).
  unfold upNext, enqueueNext, enqueue. simpl. rewrite Hne. simpl.
  rewrite !slice_nonneg by lia.
  repeat split.
  - unfold JsArray.spliceInsert. rewrite clampStart_inside by lia.
    rewrite skipn_app, length_firstn, Nat.min_l by exact Hk.
    rewrite skipn_firstn_comm, Nat.sub_diag. reflexivity.
  - rewrite skipn_app.
    replace (Z.to_nat (currentIndex (state h) + 1)
             - List.length (queue (state h)))%nat with O by lia.
    reflexivity.
Qed.

Lemma enqueue_extends_upNext_witness :
  upNext (state (enqueueNext Scenario.T1 Scenario.threeTracks))
  = Scenario.T1 :: upNext (state Scenario.threeTracks).
Proof.
  apply (enqueue_extends_upNext Scenario.T1 Scenario.threeTracks).
  vm_compute. split; discriminate || reflexivity.
Defined.

(** ** removeFromQueue *)

(** X12.  Whatever the queue, after [removeFromQueue(trackId)] the queue
    holds the entries with another id, in their order, and no entry with
    that id; it is shorter by the number of entries that had the id. *)
Theorem removeFromQueue_keeps_other_ids (env : Env) (trackId : string)
    (h : Hook) :
  let q' := queue (state (removeFromQueue env trackId h)) in
  q' = filter (fun t => negb (String.eqb (id t) trackId)) (queue (state h))
  /\ (forall t, In t q' <-> In t (queue (state h)) /\ id t <> trackId)
  /\ (List.length q' + copies trackId (queue (state h)))%nat
     = List.length (queue (state h)).
Proof.
  cbv zeta. rewrite removeFromQueue_queue. split; [reflexivity|]. split.
  - intros t. rewrite filter_In, negb_true_iff, String.eqb_neq. reflexivity.
  - unfold copies. rewrite Nat.add_comm.
    apply (filter_length (fun t => String.eqb (id t) trackId)).
Qed.

Lemma removeFromQueue_single_state (env : Env) (trackId : string) (h : Hook) :
  let index :=
    JsArray.findIndex (fun t => String.eqb (id t) trackId) (queue (state h)) in
  let nextQueue := removeAt (Z.to_nat index) (queue (state h)) in
  (copies trackId (queue (state h)) <= 1)%nat ->
  index <> -1 ->
  state (removeFromQueue env trackId h) =
  match snd (removalSelection (state h) index nextQueue) with
  | Some nextTrack =>
      set_currentTrack (Some (resolved env nextTrack))
        (set_progress 0%Q
           (set_currentIndex
              (fst (removalSelection (state h) index nextQueue))
              (set_queue nextQueue (state h))))
  | None =>
      set_progress 0%Q
        (set_isPlaying false
           (set_currentTrack None
              (set_currentIndex
                 (fst (removalSelection (state h) index nextQueue))
                 (set_queue nextQueue (state h)))))
  end.
Proof.
  cbv zeta. intros Hone Hfound.
  rewrite removeFromQueue_state by exact Hfound.
  now rewrite (filter_single_match (fun t => String.eqb (id t) trackId))
    by assumption.
Qed.

(** X13.  Removing a queued track that is not the current one, its id
    being queued once and the selection being consistent: the index moves
    down by one when the removed entry was before the current one and
    stays otherwise, so that it designates the same entry as before; the
    current track keeps that entry's id, isPlaying is kept, and progress
    is reset to 0 (the current track is loaded again). *)
Theorem removeFromQueue_other_entry (env : Env) (trackId : string) (h : Hook) :
  keepsId env ->
  selectionConsistent (state h) ->
  (copies trackId (queue (state h)) <= 1)%nat ->
  JsArray.findIndex (fun t => String.eqb (id t) trackId) (queue (state h))
  <> -1 ->
  JsArray.findIndex (fun t => String.eqb (id t) trackId) (queue (state h))
  <> currentIndex (state h) ->
  let index :=
    JsArray.findIndex (fun t => String.eqb (id t) trackId) (queue (state h)) in
  let s' := state (removeFromQueue env trackId h) in
  queue s' = removeAt (Z.to_nat index) (queue (state h))
  /\ currentIndex s'
     = (if index <? currentIndex (state h)
        then currentIndex (state h) - 1 else currentIndex (state h))
  /\ (exists entry kept,
        JsArray.get (queue (state h)) (currentIndex (state h)) = Some entry
        /\ JsArray.get (queue s') (currentIndex s') = Some entry
        /\ currentTrack s' = Some kept /\ id kept = id entry)
  /\ isPlaying s' = isPlaying (state h)
  /\ progress s' = 0%Q.
Proof.
  intros Hk Hinv Hone Hfound Hother. cbv zeta.
  set (index := JsArray.findIndex (fun t => String.eqb (id t) trackId)
                  (queue (state h))) in *.
  pose proof (findIndex_range (fun t => String.eqb (id t) trackId)
                (queue (state h))) as Hrange. fold index in Hrange.
  rewrite (removeFromQueue_single_state env trackId h Hone Hfound).
  fold index. destruct Hinv as (Hiff & Hsel & Hempty).
  assert (Hsome : currentIndex (state h) <> -1).
  { intros Hnone. rewrite (Hempty Hnone) in Hrange.
    unfold JsArray.length in Hrange. simpl in Hrange. lia. }
  destruct (Hsel Hsome) as (Hin & entry & current & Hget & Htrack & Hid).
  unfold removalSelection.
  replace (index =? currentIndex (state h)) with false
    by (symmetry; now apply Z.eqb_neq).
  destruct (index <? currentIndex (state h)) eqn:E.
  - apply Z.ltb_lt in E.
    replace (Z.max (currentIndex (state h) - 1) 0)
      with (currentIndex (state h) - 1) by lia.
    assert (Hnew : JsArray.get (removeAt (Z.to_nat index) (queue (state h)))
                     (currentIndex (state h) - 1) = Some entry).
    { rewrite get_removeAt by lia.
      replace (currentIndex (state h) - 1 <? index) with false
        by (symmetry; apply Z.ltb_ge; lia).
      now replace (currentIndex (state h) - 1 + 1)
        with (currentIndex (state h)) by lia. }
    cbn [fst snd]. rewrite Hnew. simpl.
    repeat split. exists entry, (resolved env entry).
    repeat split; auto using resolved_id.
  - apply Z.ltb_ge in E. cbn [fst snd]. rewrite Htrack. simpl.
    repeat split. exists entry, (resolved env current).
    repeat split; auto.
    + rewrite get_removeAt by lia.
      now replace (currentIndex (state h) <? index) with true
        by (symmetry; apply Z.ltb_lt; lia).
    + now rewrite resolved_id.
Qed.

Lemma quiet_keepsId : keepsId Scenario.quiet.
Proof. intros t t' Ht. discriminate. Qed.

Lemma threeTracks_consistent : selectionConsistent (state Scenario.threeTracks).
Proof.
  repeat split; try discriminate; try (vm_compute; congruence).
  exists Scenario.T2, Scenario.T2. repeat split.
Qed.

Lemma removeFromQueue_other_entry_witness :
  currentIndex (state (removeFromQueue Scenario.quiet "t1" Scenario.threeTracks))
  = 0
  /\ queue (state (removeFromQueue Scenario.quiet "t1" Scenario.threeTracks))
     = [Scenario.T2; Scenario.T3].
Proof.
  destruct (removeFromQueue_other_entry Scenario.quiet "t1"
              Scenario.threeTracks quiet_keepsId threeTracks_consistent)
    as (Hq & Hi & _).
  - vm_compute. lia.
  - vm_compute. discriminate.
  - vm_compute. discriminate.
  - split; [exact Hi|exact Hq].
Defined.

(** X14.  Removing the current track, its id being queued once.  If it
    was the only entry the player is cleared (empty queue, index -1, no
    current track, isPlaying = false, progress = 0) and the audio element
    paused.  If it was the last of several entries the entry before it
    becomes current; otherwise the index stays and the entry that followed
    becomes current.  In both cases isPlaying is kept and progress is 0. *)
Theorem removeFromQueue_current_entry (env : Env) (trackId : string) (h : Hook) :
  (copies trackId (queue (state h)) <= 1)%nat ->
  JsArray.findIndex (fun t => String.eqb (id t) trackId) (queue (state h))
  = currentIndex (state h) ->
  currentIndex (state h) <> -1 ->
  let len := JsArray.length (queue (state h)) in
  let s' := state (removeFromQueue env trackId h) in
  (len = 1 ->
   s' = set_progress 0%Q
          (set_isPlaying false
             (set_currentTrack None
                (set_currentIndex (-1) (set_queue [] (state h)))))
   /\ audio (removeFromQueue env trackId h) = audio h ++ [AudioPause])
  /\ (1 < len -> currentIndex (state h) = len - 1 ->
      exists prior,
        JsArray.get (queue (state h)) (len - 2) = Some prior
        /\ currentIndex s' = len - 2
        /\ JsArray.get (queue s') (currentIndex s') = Some prior
        /\ currentTrack s' = Some (resolved env prior)
        /\ isPlaying s' = isPlaying (state h) /\ progress s' = 0%Q)
  /\ (currentIndex (state h) < len - 1 ->
      exists following,
        JsArray.get (queue (state h)) (currentIndex (state h) + 1)
        = Some following
        /\ currentIndex s' = currentIndex (state h)
        /\ JsArray.get (queue s') (currentIndex s') = Some following
        /\ currentTrack s' = Some (resolved env following)
        /\ isPlaying s' = isPlaying (state h) /\ progress s' = 0%Q).
Proof.
  intros Hone Hcur Hsome. cbv zeta.
  pose proof (findIndex_range (fun t => String.eqb (id t) trackId)
                (queue (state h))) as Hrange.
  rewrite Hcur in Hrange.
  assert (Hfound : JsArray.findIndex (fun t => String.eqb (id t) trackId)
                     (queue (state h)) <> -1) by congruence.
  pose proof (jsLength_removeAt (currentIndex (state h)) (queue (state h))
                ltac:(lia)) as Hlen.
  split; [|split].
  - intros Hlen1.
    assert (Hnil : removeAt (Z.to_nat (currentIndex (state h)))
                     (queue (state h)) = [])
      by (apply jsLength_nil_iff; lia).
    split.
    + rewrite (removeFromQueue_single_state env trackId h Hone Hfound).
      rewrite Hcur, Hnil. unfold removalSelection.
      rewrite Z.eqb_refl. reflexivity.
    + unfold removeFromQueue.
      rewrite (filter_single_match (fun t => String.eqb (id t) trackId))
        by assumption.
      rewrite Hcur, Hnil. unfold removalSelection.
      rewrite Z.eqb_refl.
      replace (currentIndex (state h) =? -1) with false
        by (symmetry; now apply Z.eqb_neq).
      reflexivity.
  - intros Hlen1 Hlast.
    destruct (get_in_range (queue (state h))
                (JsArray.length (queue (state h)) - 2)) as [prior Hprior];
      [lia|].
    exists prior.
    assert (Hnew : JsArray.get
                     (removeAt (Z.to_nat (currentIndex (state h)))
                        (queue (state h)))
                     (JsArray.length (queue (state h)) - 2) = Some prior).
    { rewrite get_removeAt by lia.
      now replace (JsArray.length (queue (state h)) - 2
                   <? currentIndex (state h)) with true
        by (symmetry; apply Z.ltb_lt; lia). }
    rewrite (removeFromQueue_single_state env trackId h Hone Hfound).
    rewrite Hcur. unfold removalSelection. rewrite Z.eqb_refl, Hlen.
    replace (JsArray.length (queue (state h)) - 1 =? 0) with false
      by (symmetry; apply Z.eqb_neq; lia).
    replace (currentIndex (state h)
             >=? JsArray.length (queue (state h)) - 1) with true
      by (symmetry; apply Z.geb_le; lia).
    cbn [fst snd].
    replace (JsArray.length (queue (state h)) - 1 - 1)
      with (JsArray.length (queue (state h)) - 2) by lia.
    rewrite Hnew. simpl. repeat split; assumption.
  - intros Hmid.
    destruct (get_in_range (queue (state h)) (currentIndex (state h) + 1))
      as [following Hfollowing]; [lia|].
    exists following.
    assert (Hnew : JsArray.get
                     (removeAt (Z.to_nat (currentIndex (state h)))
                        (queue (state h)))
                     (currentIndex (state h)) = Some following).
    { rewrite get_removeAt by lia. now rewrite Z.ltb_irrefl. }
    rewrite (removeFromQueue_single_state env trackId h Hone Hfound).
    rewrite Hcur. unfold removalSelection. rewrite Z.eqb_refl, Hlen.
    replace (JsArray.length (queue (state h)) - 1 =? 0) with false
      by (symmetry; apply Z.eqb_neq; lia).
    replace (currentIndex (state h)
             >=? JsArray.length (queue (state h)) - 1) with false
      by (symmetry; rewrite Z.geb_leb; apply Z.leb_gt; lia).
    cbn [fst snd]. rewrite Hnew. simpl. repeat split; assumption.
Qed.

Lemma removeFromQueue_current_entry_witness :
  currentTrack
    (state (removeFromQueue Scenario.quiet "t2" Scenario.threeTracks))
  = Some Scenario.T3.
Proof.
  destruct (removeFromQueue_current_entry Scenario.quiet "t2"
              Scenario.threeTracks) as (_ & _ & Hmid).
  - vm_compute. lia.
  - reflexivity.
  - discriminate.
  - destruct Hmid as (following & Hget & _ & _ & Htrack & _).
    + vm_compute. reflexivity.
    + rewrite Htrack. vm_compute in Hget. injection Hget as <-. reflexivity.
Defined.

(** ** The track loader *)

(** X15.  [loadTrack] starts real playback or the synthetic clock, never
    both.  Asked to play, it calls the audio element (source, volume as a
    fraction of 100, play) exactly when the track it ends up with, its own
    or the enrichment reply, carries a preview reference; the synthetic
    timer is started from 0 in every other case (no preview, enrichment
    rejected) and when [play] rejects.  Asked not to play, it makes no
    call on the audio element and leaves no timer. *)
Theorem loadTrack_real_or_synthetic (cl : AudioPlayerState) (env : Env)
    (track : ITrack) (h : Hook) :
  let candidate := resolved env track in
  (simulationInterval (loadTrack cl env track false h) = None
   /\ audio (loadTrack cl env track false h) = audio h)
  /\ simulationInterval (loadTrack cl env track true h)
     = (if hasPreview candidate && playResolves env then None else Some 0)
  /\ (hasPreview candidate = false ->
      audio (loadTrack cl env track true h) = audio h)
  /\ (forall url,
        hasPreview candidate = true -> preview_url candidate = Some url ->
        audio (loadTrack cl env track true h) = audio h ++ startCalls cl url).
Proof.
  cbv zeta. unfold loadTrack, resolved.
  destruct (hasPreview track) eqn:Hp.
  - unfold playResolved. rewrite Hp.
    destruct (preview_url track) as [url|] eqn:Hu;
      [|unfold hasPreview in Hp; rewrite Hu in Hp; discriminate].
    cbn [andb]. repeat split; try discriminate.
    + now destruct (playResolves env).
    + intros url' _ Hurl. injection Hurl as <-.
      destruct (playResolves env); simpl; now rewrite <- !app_assoc.
  - destruct (enhanceTrackWithPreview env track) as [e|] eqn:He.
    + unfold playResolved.
      destruct (hasPreview e) eqn:Hpe.
      * destruct (preview_url e) as [url|] eqn:Hu;
          [|unfold hasPreview in Hpe; rewrite Hu in Hpe; discriminate].
        cbn [andb]. repeat split; try discriminate.
        -- now destruct (playResolves env).
        -- intros url' _ Hurl. injection Hurl as <-.
           destruct (playResolves env); simpl; now rewrite <- !app_assoc.
      * destruct (preview_url e); cbn [andb]; repeat split;
          intros; discriminate.
    + rewrite Hp. repeat split; intros; discriminate.
Qed.

Lemma loadTrack_real_or_synthetic_witness :
  audio (loadTrack initialState Scenario.quiet Scenario.T2 true mount)
  = startCalls initialState "https://p.example/t2.mp3"
  /\ simulationInterval
       (loadTrack initialState Scenario.quiet Scenario.T1 true mount)
     = Some 0.
Proof.
  destruct (loadTrack_real_or_synthetic initialState Scenario.quiet
              Scenario.T2 mount) as (_ & _ & _ & Hreal).
  destruct (loadTrack_real_or_synthetic initialState Scenario.quiet
              Scenario.T1 mount) as (_ & Hsim & _).
  split.
  - exact (Hreal "https://p.example/t2.mp3"%string eq_refl eq_refl).
  - exact Hsim.
Defined.

(** ** What holds after any run *)




(** ** reorderQueue, undone *)

Section RelocateFacts.
Context {A : Type}.
Implicit Types (l : list A) (x : A) (n : nat).




End RelocateFacts.




(** ** Queue growth and settings along a run *)



Lemma simulationTicks_to_end (m : nat) :
  forall (h : Hook) (n : Z),
    simulationInterval h = Some n -> 0 <= n -> n + Z.of_nat m + 1 = 100 ->
    simulationTicks (S m) h
    = mkHook (set_progress 0%Q (set_isPlaying false (state h))) None (audio h).
Proof.
  induction m as [|m IH]; intros h n Hs Hn Hsum.
  - simpl. now rewrite (simulationTick_finishing n) by (auto; lia).
  - change (simulationTicks (S (S m)) h)
      with (simulationTicks (S m) (simulationTick h)).
    rewrite (simulationTick_running n) by (auto; lia).
    now rewrite (IH _ (n + 1)) by (simpl; auto; lia).
Qed.

Lemma run_clock (ops : list Op) : clockInRange (run ops mount).
Proof.
  assert (Hgen : forall h, clockInRange h -> clockInRange (run ops h)).
  { induction ops as [|op ops IH]; intros h Hh; [exact Hh|].
    simpl. apply IH. now apply step_clock. }
  apply Hgen. exact I.
Qed.

Lemma navigated_settings env h s' :
  navigated env h s' -> settings s' = settings (state h).
Proof. now intros [| |i track _ _]. Qed.

(** X21.  Settings change only through their own calls.  Every call or
    event other than [setVolume], the toggles, the panel calls and
    [closePlayer] leaves volume, shuffle, repeat mode and the two
    presentation flags as they are: playing, skipping, seeking,
    enqueueing, removing, reordering, clearing the queue, timer ticks and
    engine events included. *)
Theorem settings_survive_playback (op : Op) (h : Hook) :
  touchesSettings op = false ->
  settings (state (step op h)) = settings (state h).
Proof.
  intros Hop. destruct op; try discriminate; simpl step; try reflexivity.
  - unfold playTrack.
    destruct (match currentTrack (state h) with
              | Some _ => _ | None => _ end).
    + unfold togglePlay. destruct (currentTrack (state h)); [|reflexivity].
      destruct (isPlaying (state h)), (hasPreview i); reflexivity.
    + now rewrite loadTrack_state.
  - simpl. unfold settings. simpl.
    now destruct (currentIndex (state h) =? -1).
  - unfold togglePlay. destruct (currentTrack (state h)); [|reflexivity].
    destruct (isPlaying (state h)), (hasPreview i); reflexivity.
  - apply (navigated_settings env h), skipNext_navigated.
  - apply (navigated_settings env h), skipPrevious_navigated.
  - unfold seek. now destruct duration.
  - destruct (Z.eq_dec
                (JsArray.findIndex (fun t => String.eqb (id t) trackId)
                   (queue (state h))) (-1)) as [Habs|Hfound].
    + unfold removeFromQueue. now rewrite Habs.
    + rewrite removeFromQueue_state by exact Hfound.
      now destruct (snd _).
  - now destruct (reorderQueue_cases from to h) as [-> | (_ & _ & _ & ->)].
  - apply (navigated_settings env h), playFromQueue_navigated.
  - unfold simulationTick. destruct (simulationInterval h); [|reflexivity].
    now destruct (_ >=? 100).
  - apply (navigated_settings env h), skipNext_navigated.
  - unfold progressSample. now destruct (isPlaying (state h)).
Qed.

Lemma settings_survive_playback_witness :
  settings
    (state (step (RemoveFromQueue Scenario.quiet "t2")
              (setVolume 30%Q Scenario.threeTracks)))
  = (30%Q, false, RepeatOff, false, false).
Proof.
  rewrite (settings_survive_playback (RemoveFromQueue Scenario.quiet "t2")
             (setVolume 30%Q Scenario.threeTracks) eq_refl).
  reflexivity.
Defined.

(** ** The selection across reorders and single-copy runs *)

(** X22.  A reorder that takes place while an entry of the queue is
    selected keeps the selection on that entry: the rebased index
    designates in the new queue the entry the old index designated in the
    old one, and the current track, isPlaying and progress are not
    touched. *)
Theorem reorderQueue_same_current_entry (from to : Z) (h : Hook) :
  from <> to ->
  0 <= from < JsArray.length (queue (state h)) ->
  0 <= to < JsArray.length (queue (state h)) ->
  0 <= currentIndex (state h) < JsArray.length (queue (state h)) ->
  let s' := state (reorderQueue from to h) in
  JsArray.get (queue s') (currentIndex s')
  = JsArray.get (queue (state h)) (currentIndex (state h))
  /\ 0 <= currentIndex s' < JsArray.length (queue s')
  /\ currentTrack s' = currentTrack (state h)
  /\ isPlaying s' = isPlaying (state h)
  /\ progress s' = progress (state h).
Proof.
  intros Hne Hf Ht Hc. cbv zeta.
  pose proof (reorderQueue_keeps_pointing from to h Hne Hf Ht Hc) as Hkeep.
  split; [exact Hkeep|]. split.
  - destruct (get_in_range (queue (state h)) _ Hc) as [entry Hget].
    rewrite Hget in Hkeep. exact (length_pos_of_get _ _ _ Hkeep).
  - rewrite reorderQueue_moves by assumption. repeat split.
Qed.

Lemma reorderQueue_same_current_entry_witness :
  JsArray.get (queue (state (reorderQueue 1 0 Scenario.threeTracks)))
              (currentIndex (state (reorderQueue 1 0 Scenario.threeTracks)))
  = Some Scenario.T2.
Proof.
  refine (proj1 (reorderQueue_same_current_entry 1 0 Scenario.threeTracks
                   _ _ _ _));
    vm_compute; repeat split; discriminate.
Defined.


(** * The mounted hook *)

(** ** A block against the call run to completion *)

Lemma resolved_unanswered (drawn : Z) (track : ITrack) :
  resolved (unanswered drawn) track = track.
Proof. unfold resolved. now destruct (hasPreview track). Qed.

Lemma playResolvedStart_state volume enhancedTrack shouldPlay m :
  state (Live.hook (Live.playResolvedStart volume enhancedTrack shouldPlay m))
  = set_currentTrack (Some enhancedTrack) (state (Live.hook m)).
Proof.
  unfold Live.playResolvedStart.
  destruct (preview_url enhancedTrack), (hasPreview enhancedTrack), shouldPlay;
    reflexivity.
Qed.

Lemma loadTrackStart_state cl track shouldPlay m :
  state (Live.hook (Live.loadTrackStart cl track shouldPlay m))
  = set_currentTrack (Some track)
      (set_progress 0%Q (set_isPlaying shouldPlay (state (Live.hook m)))).
Proof.
  unfold Live.loadTrackStart.
  destruct (hasPreview track); [|reflexivity].
  now rewrite playResolvedStart_state.
Qed.

Lemma goToIndexStart_state cl drawn nextIndex autoPlay m :
  state (Live.hook (Live.goToIndexStart cl nextIndex autoPlay m))
  = state (goToIndex cl (unanswered drawn) nextIndex autoPlay (Live.hook m)).
Proof.
  unfold Live.goToIndexStart, goToIndex.
  destruct nextIndex as [i|]; [|reflexivity].
  destruct ((i <? 0) || (i >=? JsArray.length (queue cl))); [reflexivity|].
  destruct (JsArray.get (queue cl) i) as [track|]; [|reflexivity].
  destruct autoPlay; [|reflexivity].
  now rewrite loadTrackStart_state, loadTrack_state, resolved_unanswered.
Qed.

Lemma togglePlayStart_state m :
  state (Live.hook (Live.togglePlayStart m)) = state (togglePlay (Live.hook m)).
Proof.
  unfold Live.togglePlayStart, togglePlay.
  destruct (currentTrack (state (Live.hook m))) as [track|]; [|reflexivity].
  destruct (isPlaying (state (Live.hook m))), (hasPreview track); reflexivity.
Qed.

(** The state a block leaves is the state of the call run to completion
    with the enrichment service rejecting: replies apart, the callbacks
    above say what a call has done when it returns. *)
Lemma block_state (op : Op) (m : Live.Mounted) :
  (forall p, op <> ProgressSample p) ->
  state (Live.hook (Live.block (Live.Sync op) m))
  = state (step (withheld op) (Live.hook m)).
Proof.
  intros Hop.
  destruct op; cbv beta iota delta [Live.block withheld step];
    try reflexivity.
  - (* playTrack *)
    unfold Live.playTrackStart, playTrack, Live.isCurrent.
    destruct (match currentTrack (state (Live.hook m)) with
              | Some _ => _ | None => _ end);
      [apply togglePlayStart_state|].
    now rewrite loadTrackStart_state, loadTrack_state, resolved_unanswered.
  - apply togglePlayStart_state.
  - (* skipNext *)
    unfold Live.skipNextStart, skipNext.
    cbn [randomIndex unanswered].
    split_ifs; first [reflexivity | apply goToIndexStart_state].
  - unfold Live.skipPreviousStart, skipPrevious.
    cbn [randomIndex unanswered].
    split_ifs; first [reflexivity | apply goToIndexStart_state].
  - (* removeFromQueue *)
    unfold Live.removeFromQueueStart, removeFromQueue.
    destruct (_ =? -1); [reflexivity|].
    destruct (removalSelection _ _ _) as [nextIndex [nextTrack|]];
      [|reflexivity].
    now rewrite loadTrackStart_state, loadTrack_state, resolved_unanswered.
  - unfold playFromQueue. apply goToIndexStart_state.
  - unfold handleEnded, Live.skipNextStart, skipNext.
    cbn [randomIndex unanswered].
    split_ifs; first [reflexivity | apply goToIndexStart_state].
  - now destruct (Hop currentProgress).
Qed.

Lemma commit_state before queueAssigned m :
  state (Live.hook (Live.commit before queueAssigned m))
  = state (Live.hook m).
Proof. unfold Live.commit. now destruct (_ || _). Qed.

Lemma commit_rest before queueAssigned m :
  Live.leaked (Live.commit before queueAssigned m) = Live.leaked m
  /\ Live.awaiting (Live.commit before queueAssigned m) = Live.awaiting m
  /\ audio (Live.hook (Live.commit before queueAssigned m))
     = audio (Live.hook m).
Proof. unfold Live.commit. now destruct (_ || _). Qed.

Lemma step_state (e : Live.Event) (m : Live.Mounted) :
  state (Live.hook (Live.step e m)) = state (Live.hook (Live.block e m)).
Proof. apply commit_state. Qed.

Lemma nth_error_appended {A : Type} (l : list A) (x : A) :
  nth_error (l ++ [x]) (List.length l) = Some x.
Proof. now rewrite nth_error_app2, Nat.sub_diag by lia. Qed.

Lemma nth_error_end {A : Type} (l : list A) :
  nth_error l (List.length l) = None.
Proof. apply nth_error_None. lia. Qed.

Lemma removeAt_appended {A : Type} (l : list A) (x : A) :
  removeAt (List.length l) (l ++ [x]) = l.
Proof. induction l as [|y rest IH]; simpl; [reflexivity|now rewrite IH]. Qed.

Lemma settleNow_idle env m0 m1 :
  Live.awaiting m1 = Live.awaiting m0 -> Live.settleNow env m0 m1 = m1.
Proof.
  intros Hsame. unfold Live.settleNow. cbv zeta.
  rewrite Hsame, nth_error_end. cbv iota.
  now rewrite Hsame, nth_error_end.
Qed.

Lemma playResolvedStart_settled cl env enhancedTrack shouldPlay m :
  let m1 := Live.playResolvedStart (volume cl) enhancedTrack shouldPlay m in
  let k := List.length (Live.awaiting m) in
  (match nth_error (Live.awaiting m1) k with
   | Some (Live.AwaitEnrichment _ _ _) => False
   | _ => True
   end)
  /\ Live.hook
       (match nth_error (Live.awaiting m1) k with
        | Some Live.AwaitPlay =>
            Live.block (Live.PlaySettled k (playResolves env)) m1
        | _ => m1
        end)
     = playResolved cl env enhancedTrack shouldPlay (Live.hook m).
Proof.
  cbv zeta. unfold Live.playResolvedStart, playResolved.
  destruct (preview_url enhancedTrack) as [url|].
  - destruct (hasPreview enhancedTrack && shouldPlay).
    + unfold Live.suspend. cbn [Live.awaiting Live.onHook Live.block].
      rewrite nth_error_appended. split; [exact I|].
      unfold Live.afterPlay. now destruct (playResolves env).
    + destruct shouldPlay; cbn [Live.awaiting Live.startTimer Live.onHook];
        rewrite nth_error_end; split; auto.
  - destruct shouldPlay; cbn [Live.awaiting Live.startTimer Live.onHook];
      rewrite nth_error_end; split; auto.
Qed.

Lemma loadTrackStart_completes cl env track shouldPlay m0 m :
  Live.awaiting m = Live.awaiting m0 ->
  Live.hook (Live.settleNow env m0 (Live.loadTrackStart cl track shouldPlay m))
  = loadTrack cl env track shouldPlay (Live.hook m).
Proof.
  intros Hsame. unfold Live.settleNow, Live.loadTrackStart, loadTrack.
  cbv zeta. rewrite <- Hsame.
  set (m' := Live.onHook _ (Live.onHook clearSimulation m)).
  assert (Hm' : Live.awaiting m' = Live.awaiting m) by reflexivity.
  destruct (hasPreview track).
  - destruct (playResolvedStart_settled cl env track shouldPlay m')
      as [Hnone Hhook].
    cbv zeta in Hnone, Hhook. rewrite Hm' in Hnone, Hhook.
    destruct (nth_error
                (Live.awaiting
                   (Live.playResolvedStart (volume cl) track shouldPlay m'))
                (List.length (Live.awaiting m))) as [[| ]|] eqn:E;
      [contradiction| |]; cbv iota; rewrite E; exact Hhook.
  - unfold Live.suspend. cbn [Live.awaiting]. rewrite Hm'.
    rewrite nth_error_appended. cbn [Live.block Live.awaiting].
    rewrite nth_error_appended, removeAt_appended.
    unfold Live.afterEnrichment.
    destruct (enhanceTrackWithPreview env track) as [reply|].
    + set (m2 := Live.mkMounted _ _ _ _).
      destruct (playResolvedStart_settled cl env reply shouldPlay m2)
        as [_ Hhook].
      exact Hhook.
    + destruct shouldPlay; cbn [Live.awaiting Live.startTimer];
        now rewrite nth_error_end.
Qed.

Lemma goToIndexStart_completes cl env nextIndex autoPlay m :
  Live.hook (Live.settleNow env m (Live.goToIndexStart cl nextIndex autoPlay m))
  = goToIndex cl env nextIndex autoPlay (Live.hook m).
Proof.
  unfold Live.goToIndexStart, goToIndex.
  destruct nextIndex as [i|]; [|now rewrite settleNow_idle].
  destruct ((i <? 0) || (i >=? JsArray.length (queue cl)));
    [now rewrite settleNow_idle|].
  destruct (JsArray.get (queue cl) i) as [track|];
    [|now rewrite settleNow_idle].
  destruct autoPlay; [|now rewrite settleNow_idle].
  now rewrite loadTrackStart_completes.
Qed.

Lemma togglePlayStart_hook m :
  Live.hook (Live.togglePlayStart m) = togglePlay (Live.hook m)
  /\ Live.awaiting (Live.togglePlayStart m) = Live.awaiting m.
Proof.
  unfold Live.togglePlayStart, togglePlay.
  destruct (currentTrack (state (Live.hook m))) as [track|]; [|auto].
  destruct (isPlaying (state (Live.hook m))), (hasPreview track); auto.
Qed.

(** A call whose awaits are settled at once, before anything else
    happens and before any commit, is the call of the callbacks above:
    block, late parts included, compose to the call run to completion. *)
Lemma call_run_to_completion (op : Op) (env : Env) (m : Live.Mounted) :
  carries op env ->
  Live.hook (Live.settleNow env m (Live.block (Live.Sync op) m))
  = step op (Live.hook m).
Proof.
  intros Hc.
  destruct op; cbv beta iota delta [carries] in Hc; try contradiction;
    subst; cbv beta iota delta [Live.block step];
    try (now rewrite settleNow_idle).
  - (* playTrack *)
    unfold Live.playTrackStart, playTrack, Live.isCurrent.
    destruct (match currentTrack (state (Live.hook m)) with
              | Some _ => _ | None => _ end).
    + destruct (togglePlayStart_hook m) as [Hh Ha].
      now rewrite settleNow_idle.
    + now rewrite loadTrackStart_completes.
  - destruct (togglePlayStart_hook m) as [Hh Ha].
    now rewrite settleNow_idle.
  - unfold Live.skipNextStart, skipNext.
    split_ifs; first [now rewrite settleNow_idle
                     | apply goToIndexStart_completes].
  - unfold Live.skipPreviousStart, skipPrevious.
    split_ifs; first [now rewrite settleNow_idle
                     | apply goToIndexStart_completes].
  - unfold Live.removeFromQueueStart, removeFromQueue.
    destruct (_ =? -1); [now rewrite settleNow_idle|].
    destruct (removalSelection _ _ _) as [nextIndex [nextTrack|]];
      [|now rewrite settleNow_idle].
    now rewrite loadTrackStart_completes.
  - unfold playFromQueue. apply goToIndexStart_completes.
  - unfold handleEnded, Live.skipNextStart, skipNext.
    split_ifs; first [now rewrite settleNow_idle
                     | apply goToIndexStart_completes].
Qed.

(** ** Counters and progress of the mounted hook *)

Lemma startTimer_counters m :
  countersInRange m -> countersInRange (Live.startTimer m).
Proof.
  intros [Hc Hl]. unfold clockInRange in Hc.
  split; [unfold clockInRange; simpl; lia|]. simpl.
  destruct (simulationInterval (Live.hook m));
    [constructor; [lia|exact Hl]|exact Hl].
Qed.

Lemma counters_kept m m' :
  simulationInterval (Live.hook m') = simulationInterval (Live.hook m)
  \/ simulationInterval (Live.hook m') = None ->
  Live.leaked m' = Live.leaked m ->
  countersInRange m -> countersInRange m'.
Proof.
  intros Hs Hl [Hc Hf]. split; [|now rewrite Hl].
  unfold clockInRange in *. destruct Hs as [-> | ->]; [exact Hc|exact I].
Qed.

Lemma playResolvedStart_counters volume enhancedTrack shouldPlay m :
  countersInRange m ->
  countersInRange (Live.playResolvedStart volume enhancedTrack shouldPlay m).
Proof.
  intros Hm. unfold Live.playResolvedStart.
  destruct (preview_url enhancedTrack) as [url|];
    [destruct (hasPreview enhancedTrack && shouldPlay)|];
    try destruct shouldPlay;
    try apply startTimer_counters;
    (apply (counters_kept m); [left; reflexivity|reflexivity|exact Hm]).
Qed.

Lemma loadTrackStart_counters cl track shouldPlay m :
  countersInRange m ->
  countersInRange (Live.loadTrackStart cl track shouldPlay m).
Proof.
  intros Hm. unfold Live.loadTrackStart.
  destruct (hasPreview track); [apply playResolvedStart_counters|];
    (apply (counters_kept m); [right; reflexivity|reflexivity|exact Hm]).
Qed.

Lemma goToIndexStart_counters cl nextIndex autoPlay m :
  countersInRange m ->
  countersInRange (Live.goToIndexStart cl nextIndex autoPlay m).
Proof.
  intros Hm. unfold Live.goToIndexStart.
  assert (Hstop : forall g c,
             countersInRange
               (Live.onHook (fun h => setState g (audioCall c h)) m)).
  { intros g c.
    apply (counters_kept m); [left; reflexivity|reflexivity|exact Hm]. }
  destruct nextIndex as [i|]; [|apply Hstop].
  destruct ((i <? 0) || (i >=? JsArray.length (queue cl))); [apply Hstop|].
  assert (Hset : forall g, countersInRange (Live.onHook (setState g) m)).
  { intros g.
    apply (counters_kept m); [left; reflexivity|reflexivity|exact Hm]. }
  destruct (JsArray.get (queue cl) i) as [track|]; [|apply Hset].
  destruct autoPlay; [|apply Hset].
  apply loadTrackStart_counters, Hset.
Qed.

Lemma togglePlayStart_counters m :
  countersInRange m -> countersInRange (Live.togglePlayStart m).
Proof.
  intros Hm. unfold Live.togglePlayStart.
  destruct (currentTrack (state (Live.hook m))) as [track|]; [|exact Hm].
  destruct (isPlaying (state (Live.hook m))).
  - apply (counters_kept m); [right; reflexivity|reflexivity|exact Hm].
  - destruct (hasPreview track).
    + apply (counters_kept m); [left; reflexivity|reflexivity|exact Hm].
    + apply (counters_kept (Live.startTimer m));
        [left; reflexivity|reflexivity|apply startTimer_counters, Hm].
Qed.

Lemma skipNextStart_counters drawn m :
  countersInRange m -> countersInRange (Live.skipNextStart drawn m).
Proof.
  intros Hm. unfold Live.skipNextStart.
  split_ifs; auto using goToIndexStart_counters.
Qed.

Lemma Forall_cut {A : Type} (P : A -> Prop) (k : nat) (l : list A) :
  Forall P l -> Forall P (firstn k l) /\ Forall P (skipn k l).
Proof.
  intros H. apply Forall_app. now rewrite firstn_skipn.
Qed.

Lemma leakedTick_counters k m :
  countersInRange m -> countersInRange (Live.leakedTick k m).
Proof.
  intros [Hc Hl]. unfold Live.leakedTick.
  destruct (nth_error (Live.leaked m) k) as [n|] eqn:Hn; [|now split].
  assert (Hpos : 0 <= n).
  { apply nth_error_In in Hn. rewrite Forall_forall in Hl. now apply Hl. }
  split.
  - destruct (n + 1 >=? 100); [exact I|exact Hc].
  - cbn [Live.leaked]. apply Forall_app. split.
    + exact (proj1 (Forall_cut _ k _ Hl)).
    + constructor; [lia|exact (proj2 (Forall_cut _ (S k) _ Hl))].
Qed.

Lemma block_counters e m :
  countersInRange m -> countersInRange (Live.block e m).
Proof.
  intros Hm.
  assert (Hkeep : forall f,
             (forall h, simulationInterval (f h) = simulationInterval h) ->
             countersInRange (Live.onHook f m)).
  { intros f Hf.
    apply (counters_kept m); [left; apply Hf|reflexivity|exact Hm]. }
  assert (Hclear : forall f,
             (forall h, simulationInterval (f h) = None) ->
             countersInRange (Live.onHook f m)).
  { intros f Hf.
    apply (counters_kept m); [right; apply Hf|reflexivity|exact Hm]. }
  destruct e as [op|k reply|k resolves|k].
  - destruct op; cbv beta iota delta [Live.block];
      try (apply Hkeep; reflexivity); try exact Hm;
      try (now apply togglePlayStart_counters);
      try (now apply skipNextStart_counters);
      try (now apply goToIndexStart_counters).
    + (* playTrack *)
      unfold Live.playTrackStart.
      destruct (Live.isCurrent track (state (Live.hook m)));
        [now apply togglePlayStart_counters|].
      apply loadTrackStart_counters, Hkeep. reflexivity.
    + unfold Live.skipPreviousStart.
      split_ifs; auto using goToIndexStart_counters.
    + apply Hkeep. intros h. unfold seek. now destruct duration.
    + apply (counters_kept m); [right; reflexivity|reflexivity|exact Hm].
    + (* removeFromQueue *)
      unfold Live.removeFromQueueStart.
      destruct (_ =? -1); [exact Hm|].
      destruct (removalSelection _ _ _) as [nextIndex [nextTrack|]].
      * apply loadTrackStart_counters, Hkeep. reflexivity.
      * apply (counters_kept m); [left; reflexivity|reflexivity|exact Hm].
    + (* simulationTick *)
      destruct Hm as [Hc Hl]. split; [|exact Hl].
      cbn [Live.hook Live.onHook]. now apply (step_clock SimulationTick).
    + destruct (Live.sampling m); [|exact Hm].
      apply Hkeep. reflexivity.
  - (* enrichment reply *)
    cbn [Live.block].
    destruct (nth_error (Live.awaiting m) k) as [[track shouldPlay volume|]|];
      try exact Hm.
    set (m1 := Live.mkMounted _ _ _ _).
    assert (Hm1 : countersInRange m1) by exact Hm.
    unfold Live.afterEnrichment. destruct reply as [enhancedTrack|].
    + now apply playResolvedStart_counters.
    + destruct shouldPlay; [now apply startTimer_counters|exact Hm1].
  - cbn [Live.block].
    destruct (nth_error (Live.awaiting m) k) as [[track shouldPlay volume|]|];
      try exact Hm.
    set (m1 := Live.mkMounted _ _ _ _).
    assert (Hm1 : countersInRange m1) by exact Hm.
    unfold Live.afterPlay.
    destruct resolves; [exact Hm1|now apply startTimer_counters].
  - now apply leakedTick_counters.
Qed.

Lemma commit_counters before queueAssigned m :
  countersInRange m -> countersInRange (Live.commit before queueAssigned m).
Proof.
  intros Hm. unfold Live.commit. destruct (_ || _); [|exact Hm].
  apply (counters_kept m); [right; reflexivity|reflexivity|exact Hm].
Qed.

Lemma step_counters e m :
  countersInRange m -> countersInRange (Live.step e m).
Proof. intros Hm. now apply commit_counters, block_counters. Qed.

Lemma run_counters events m :
  countersInRange m -> countersInRange (Live.run events m).
Proof.
  revert m. induction events as [|e rest IH]; intros m Hm; [exact Hm|].
  apply IH. now apply step_counters.
Qed.

Lemma mounted_counters : countersInRange Live.mounted.
Proof. split; [exact I|constructor]. Qed.

(** What the two late parts of a load and a leaked timer write. *)
Lemma reply_block_state k reply m :
  let s' := state (Live.hook (Live.block (Live.EnrichmentReplied k reply) m)) in
  s' = state (Live.hook m)
  \/ exists track shouldPlay volume enhancedTrack,
       nth_error (Live.awaiting m) k
       = Some (Live.AwaitEnrichment track shouldPlay volume)
       /\ reply = Some enhancedTrack
       /\ s' = set_currentTrack (Some enhancedTrack) (state (Live.hook m)).
Proof.
  cbn [Live.block].
  destruct (nth_error (Live.awaiting m) k) as [[track shouldPlay volume|]|];
    [|now left|now left].
  unfold Live.afterEnrichment. destruct reply as [enhancedTrack|].
  - right. exists track, shouldPlay, volume, enhancedTrack.
    repeat split. now rewrite playResolvedStart_state.
  - left. now destruct shouldPlay.
Qed.

Lemma settled_block_state k resolves m :
  state (Live.hook (Live.block (Live.PlaySettled k resolves) m))
  = state (Live.hook m).
Proof.
  cbn [Live.block].
  destruct (nth_error (Live.awaiting m) k) as [[track shouldPlay volume|]|];
    try reflexivity.
  now destruct resolves.
Qed.

Lemma leakedTick_state k m :
  let s := state (Live.hook m) in
  let s' := state (Live.hook (Live.leakedTick k m)) in
  currentTrack s' = currentTrack s /\ currentIndex s' = currentIndex s
  /\ queue s' = queue s
  /\ (s' = s
      \/ exists n, nth_error (Live.leaked m) k = Some n
           /\ ((n + 1 < 100 /\ progress s' = inject_Z (n + 1)
                /\ isPlaying s' = isPlaying s)
               \/ (100 <= n + 1 /\ progress s' = 0%Q
                   /\ isPlaying s' = false))).
Proof.
  unfold Live.leakedTick.
  destruct (nth_error (Live.leaked m) k) as [n|]; [|now auto].
  cbn [Live.hook]. destruct (n + 1 >=? 100) eqn:E.
  - repeat split. right. exists n. split; [reflexivity|right].
    rewrite Z.geb_leb in E. apply Z.leb_le in E. now repeat split.
  - repeat split. right. exists n. split; [reflexivity|left].
    rewrite Z.geb_leb in E. apply Z.leb_gt in E. now repeat split.
Qed.

Lemma withheld_admissible op : admissible op -> admissible (withheld op).
Proof. now destruct op. Qed.

Lemma withheld_isEnqueue op : isEnqueue (withheld op) = isEnqueue op.
Proof. now destruct op. Qed.

Lemma step_percent e m :
  Live.admissible e -> countersInRange m ->
  percent (progress (state (Live.hook m))) ->
  percent (progress (state (Live.hook (Live.step e m)))).
Proof.
  intros Hadm [Hc Hl] Hp. rewrite step_state.
  destruct e as [op|k reply|k resolves|k].
  - destruct (match op with ProgressSample _ => true | _ => false end) eqn:Hs.
    + destruct op; try discriminate. cbn [Live.block].
      destruct (Live.sampling m); [exact Hadm|exact Hp].
    + rewrite block_state by (intros p ->; discriminate).
      apply step_progress; [|exact Hc|exact Hp].
      apply withheld_admissible. exact Hadm.
  - pose proof (reply_block_state k reply m) as Hr. cbv zeta in Hr.
    destruct Hr as [-> | (? & ? & ? & ? & _ & _ & ->)]; exact Hp.
  - now rewrite settled_block_state.
  - cbn [Live.block].
    pose proof (leakedTick_state k m) as Ht. cbv zeta in Ht.
    destruct Ht
      as (_ & _ & _ & [-> | (n & Hn & [(Hlt & -> & _) | (_ & -> & _)])]);
      [exact Hp| |exact percent_zero].
    apply percent_counter.
    apply nth_error_In in Hn. rewrite Forall_forall in Hl.
    specialize (Hl n Hn). cbv beta in Hl. lia.
Qed.

Lemma run_percent events m :
  Forall Live.admissible events -> countersInRange m ->
  percent (progress (state (Live.hook m))) ->
  percent (progress (state (Live.hook (Live.run events m)))).
Proof.
  intros Hadm. revert m.
  induction Hadm as [|e rest He _ IH]; intros m Hm Hp; [exact Hp|].
  apply IH; [now apply step_counters|now apply step_percent].
Qed.

Lemma step_track_or_zero e m :
  Live.selectsWithoutLoading e = false ->
  currentTrack (state (Live.hook (Live.step e m)))
  = currentTrack (state (Live.hook m))
  \/ progress (state (Live.hook (Live.step e m))) = 0%Q.
Proof.
  intros He. rewrite step_state.
  destruct e as [op|k reply|k resolves|k]; try discriminate.
  - destruct (match op with ProgressSample _ => true | _ => false end) eqn:Hs.
    + destruct op; try discriminate. cbn [Live.block].
      left. now destruct (Live.sampling m).
    + rewrite block_state by (intros p ->; discriminate).
      apply step_track_or_reset. rewrite withheld_isEnqueue.
      now destruct op.
  - left. now rewrite settled_block_state.
  - left. cbn [Live.block]. apply (leakedTick_state k m).
Qed.

Lemma step_progress_kept e m :
  Live.selectsWithoutLoading e = true ->
  progress (state (Live.hook (Live.step e m)))
  = progress (state (Live.hook m)).
Proof.
  intros He. rewrite step_state.
  destruct e as [op|k reply|k resolves|k]; try discriminate.
  - destruct op; try discriminate; cbn [Live.block Live.onHook Live.hook].
    + reflexivity.
    + unfold enqueueNext. cbn.
      now destruct (currentIndex (state (Live.hook m)) =? -1).
  - pose proof (reply_block_state k reply m) as Hr. cbv zeta in Hr.
    destruct Hr as [-> | (? & ? & ? & ? & _ & _ & ->)]; reflexivity.
Qed.

(** C7 (as corrected).  In the mounted hook, after any sequence of calls,
    timer firings and late replies whose percentages lie in [0, 100],
    progress lies in [0, 100] at every commit.  Every event other than
    [enqueue], [enqueueNext] and the arrival of an enrichment reply leaves
    progress 0 when the state at its commit has another current track
    than before.  Those three leave progress as it was: they are the ways
    the current track changes without a reset. *)
Theorem progress_bounded_and_reset_on_return (events : list Live.Event)
    (e : Live.Event) (m : Live.Mounted) :
  Forall Live.admissible events ->
  percent (progress (state (Live.hook (Live.run events Live.mounted))))
  /\ (Live.selectsWithoutLoading e = false ->
      currentTrack (state (Live.hook (Live.step e m)))
      <> currentTrack (state (Live.hook m)) ->
      progress (state (Live.hook (Live.step e m))) = 0%Q)
  /\ (Live.selectsWithoutLoading e = true ->
      progress (state (Live.hook (Live.step e m)))
      = progress (state (Live.hook m))).
Proof.
  intros Hadm. split; [|split].
  - apply run_percent;
      [exact Hadm|exact mounted_counters|exact percent_zero].
  - intros He Hchanged.
    destruct (step_track_or_zero e m He) as [Hsame|Hzero];
      [contradiction|exact Hzero].
  - apply step_progress_kept.
Qed.

Lemma progress_bounded_and_reset_on_return_witness :
  percent (progress (state (Live.hook Late.overtaken)))
  /\ progress (state (Live.hook (Live.step Late.lateReply Late.overtaken)))
     = progress (state (Live.hook Late.overtaken)).
Proof.
  destruct (progress_bounded_and_reset_on_return
              Late.overtaking Late.lateReply Late.overtaken)
    as (Hbound & _ & Hkept).
  - repeat constructor.
  - split; [exact Hbound|exact (Hkept eq_refl)].
Defined.

(** On the code: a timer the ref has lost is never cancelled.  After its
    100th firing it has stopped playback and cancelled the timer the ref
    held; its next firing writes 101 before it writes 0 again. *)
Lemma leaked_timer_counts_past_100 :
  Live.leaked Late.twoClocks = [0]
  /\ simulationInterval (Live.hook Late.twoClocks) = Some 0
  /\ (let m := Live.run (repeat (Live.LeakedTick 0) 100) Late.twoClocks in
      Live.leaked m = [100]
      /\ simulationInterval (Live.hook m) = None
      /\ isPlaying (state (Live.hook m)) = false
      /\ progress (state (Live.hook m)) = 0%Q
      /\ Live.leakedWrite 0 m = Some 101%Q
      /\ progress (state (Live.hook (Live.step (Live.LeakedTick 0) m)))
         = 0%Q).
Proof. vm_compute. repeat split. Qed.

(** On the code: [playTrack(T1)] waits for the enrichment service,
    [playTrack(T3)] takes over and its synthetic clock reaches 5; the
    reply for T1 then becomes the current track, over the queue [T3] and
    with progress still 5. *)
Lemma late_reply_selects_without_reset :
  let before := state (Live.hook Late.overtaken) in
  let after := state (Live.hook (Live.step Late.lateReply Late.overtaken)) in
  currentTrack before = Some Scenario.T3
  /\ progress before = 5%Q
  /\ currentTrack after = Some Late.T1enriched
  /\ progress after = 5%Q
  /\ queue after = [Scenario.T3] /\ currentIndex after = 0.
Proof. vm_compute. repeat split. Qed.

(** ** Commits that restart no effect, and commits that do *)

Lemma sameMode_refl r : Live.sameMode r r = true.
Proof. now destruct r. Qed.

Lemma sameMode_next r : Live.sameMode r (nextRepeatMode r) = false.
Proof. now destruct r. Qed.

(** No dependency of either effect changed: the commit leaves the
    component alone. *)
Lemma commit_idle before m :
  isPlaying (state (Live.hook m)) = isPlaying before ->
  volume (state (Live.hook m)) = volume before ->
  currentIndex (state (Live.hook m)) = currentIndex before ->
  isShuffled (state (Live.hook m)) = isShuffled before ->
  repeatMode (state (Live.hook m)) = repeatMode before ->
  Live.commit before false m = m.
Proof.
  intros Hp Hv Hi Hs Hr.
  unfold Live.commit, Live.playingChanged, Live.skipNextChanged. cbv zeta.
  rewrite Hp, Hv, Hi, Hs, Hr.
  rewrite !Bool.eqb_reflx, Qeq_bool_refl, Z.eqb_refl, sameMode_refl.
  reflexivity.
Qed.

(** X2.  A call that only changes a setting or a presentation flag
    ([seek], [setVolume], [toggleShuffle], [toggleRepeat],
    [toggleFavorite], [toggleMinimize], the three panel calls) leaves
    queue, currentIndex, currentTrack and isPlaying as they were, and
    neither suspends a load nor leaks a timer.  [toggleShuffle],
    [toggleRepeat] and a [setVolume] to another volume change a
    dependency of [skipNext]: at the commit the clean-up of the audio
    effect cancels the synthetic timer and the sampling timer, and
    nothing restarts them.  The other calls leave both timers alone. *)
Theorem settings_keep_selection (op : Op) (m : Live.Mounted) :
  isSetting op = true ->
  let s := state (Live.hook m) in
  let m' := Live.step (Live.Sync op) m in
  let s' := state (Live.hook m') in
  queue s' = queue s /\ currentIndex s' = currentIndex s
  /\ currentTrack s' = currentTrack s /\ isPlaying s' = isPlaying s
  /\ Live.leaked m' = Live.leaked m /\ Live.awaiting m' = Live.awaiting m
  /\ simulationInterval (Live.hook m')
     = (if renewsSkipNext op s then None
        else simulationInterval (Live.hook m))
  /\ Live.sampling m'
     = (if renewsSkipNext op s then false else Live.sampling m).
Proof.
  intros Hop. cbv zeta. unfold Live.step.
  destruct op; try discriminate;
    cbv beta iota delta [Live.block Live.assignsQueue renewsSkipNext];
    try (rewrite commit_idle;
         [repeat split; try reflexivity; unfold seek; now destruct duration
         |try reflexivity; unfold seek; now destruct duration ..]).
  - (* setVolume *)
    unfold Live.commit, Live.playingChanged, Live.skipNextChanged.
    cbn [Live.onHook Live.hook setVolume audioCall setState state
         set_volume isPlaying volume currentIndex isShuffled repeatMode].
    rewrite !Bool.eqb_reflx, Z.eqb_refl, sameMode_refl.
    cbn [negb orb].
    destruct (Qeq_bool (volume (state (Live.hook m))) v);
      cbn [negb orb andb]; repeat split.
  - (* toggleShuffle *)
    unfold Live.commit, Live.playingChanged, Live.skipNextChanged.
    cbn [Live.onHook Live.hook toggleShuffle setState state
         set_isShuffled isPlaying volume currentIndex isShuffled repeatMode].
    rewrite !Bool.eqb_reflx, Z.eqb_refl, Qeq_bool_refl, sameMode_refl.
    replace (Bool.eqb (isShuffled (state (Live.hook m)))
               (negb (isShuffled (state (Live.hook m))))) with false
      by now destruct (isShuffled (state (Live.hook m))).
    cbn [negb orb andb]. repeat split.
  - (* toggleRepeat *)
    unfold Live.commit, Live.playingChanged, Live.skipNextChanged.
    cbn [Live.onHook Live.hook toggleRepeat setState state
         set_repeatMode isPlaying volume currentIndex isShuffled repeatMode].
    rewrite !Bool.eqb_reflx, Z.eqb_refl, Qeq_bool_refl, sameMode_next.
    cbn [negb orb andb]. repeat split.
Qed.

Lemma settings_keep_selection_witness :
  simulationInterval (Live.hook Late.ticking) = Some 5
  /\ isPlaying
       (state (Live.hook (Live.step (Live.Sync ToggleShuffle) Late.ticking)))
     = true
  /\ simulationInterval
       (Live.hook (Live.step (Live.Sync ToggleShuffle) Late.ticking))
     = None.
Proof.
  pose proof (settings_keep_selection ToggleShuffle Late.ticking eq_refl) as H.
  cbv zeta in H. destruct H as (_ & _ & _ & Hplaying & _ & _ & Htimer & _).
  split; [reflexivity|]. split; [rewrite Hplaying; reflexivity|exact Htimer].
Defined.

(** ** togglePlay in the mounted hook *)

(** Flipping isPlaying restarts the [isPlaying] effect: its clean-up
    cancels the timer the ref holds, and sampling goes on exactly when
    the hook now plays. *)
Lemma commit_flipped before m :
  isPlaying (state (Live.hook m)) = negb (isPlaying before) ->
  Live.commit before false m
  = Live.mkMounted (clearSimulation (Live.hook m)) (Live.leaked m)
      (Live.awaiting m) (negb (isPlaying before)).
Proof.
  intros Hp. unfold Live.commit, Live.playingChanged. cbv zeta. rewrite Hp.
  now destruct (isPlaying before).
Qed.

(** X3.  [togglePlay] does nothing without a current track.  With one it
    flips isPlaying and nothing else in the state, so that two calls
    restore the state.  Pausing pauses the audio element.  Resuming calls
    [play] on the element when the current track has a non-empty
    preview_url, and otherwise starts a synthetic timer (a timer the ref
    held goes on firing unreferenced).  Either way isPlaying has changed,
    so at the commit the clean-up of the [isPlaying] effect cancels the
    timer the ref holds: after [togglePlay] no referenced synthetic timer
    runs, the one just started included. *)
Theorem togglePlay_pauses_and_resumes (m : Live.Mounted) :
  let s := state (Live.hook m) in
  let m' := Live.step (Live.Sync TogglePlay) m in
  (currentTrack s = None -> m' = m)
  /\ (forall track, currentTrack s = Some track ->
      state (Live.hook m') = set_isPlaying (negb (isPlaying s)) s
      /\ state (Live.hook (Live.step (Live.Sync TogglePlay) m')) = s
      /\ simulationInterval (Live.hook m') = None
      /\ Live.sampling m' = negb (isPlaying s)
      /\ Live.awaiting m' = Live.awaiting m
      /\ (isPlaying s = true ->
          audio (Live.hook m') = audio (Live.hook m) ++ [AudioPause]
          /\ Live.leaked m' = Live.leaked m)
      /\ (isPlaying s = false -> hasPreview track = true ->
          audio (Live.hook m') = audio (Live.hook m) ++ [AudioPlay]
          /\ Live.leaked m' = Live.leaked m)
      /\ (isPlaying s = false -> hasPreview track = false ->
          audio (Live.hook m') = audio (Live.hook m)
          /\ Live.leaked m'
             = match simulationInterval (Live.hook m) with
               | Some n => n :: Live.leaked m
               | None => Live.leaked m
               end)).
Proof.
  cbv zeta. split.
  - intros Hnone. unfold Live.step. cbn [Live.block Live.assignsQueue].
    unfold Live.togglePlayStart. rewrite Hnone. now apply commit_idle.
  - intros track Htrack.
    assert (Hstep : forall m0 t,
               currentTrack (state (Live.hook m0)) = Some t ->
               Live.step (Live.Sync TogglePlay) m0
               = Live.mkMounted
                   (clearSimulation (Live.hook (Live.togglePlayStart m0)))
                   (Live.leaked (Live.togglePlayStart m0))
                   (Live.awaiting (Live.togglePlayStart m0))
                   (negb (isPlaying (state (Live.hook m0))))).
    { intros m0 t Ht. unfold Live.step. cbn [Live.block Live.assignsQueue].
      apply commit_flipped.
      rewrite togglePlayStart_state. unfold togglePlay. rewrite Ht.
      destruct (isPlaying (state (Live.hook m0))) eqn:Ep, (hasPreview t);
        cbn; now rewrite Ep. }
    assert (Hstate : forall m0 t,
               currentTrack (state (Live.hook m0)) = Some t ->
               state (Live.hook (Live.togglePlayStart m0))
               = set_isPlaying (negb (isPlaying (state (Live.hook m0))))
                   (state (Live.hook m0))).
    { intros m0 t Ht. unfold Live.togglePlayStart. rewrite Ht.
      destruct (isPlaying (state (Live.hook m0))) eqn:Ep, (hasPreview t);
        cbn; now rewrite Ep. }
    rewrite (Hstep m track Htrack).
    cbn [Live.hook Live.leaked Live.awaiting Live.sampling clearSimulation
         state simulationInterval audio].
    rewrite (Hstate m track Htrack).
    split; [reflexivity|]. split.
    { rewrite (Hstep _ track)
        by (cbn [Live.hook clearSimulation state];
            now rewrite (Hstate m track Htrack)).
      cbn [Live.hook clearSimulation state].
      rewrite (Hstate _ track)
        by (cbn [Live.hook clearSimulation state];
            now rewrite (Hstate m track Htrack)).
      cbn [Live.hook clearSimulation state].
      rewrite (Hstate m track Htrack).
      destruct (state (Live.hook m)) as [t i q p pr v sh r mi qo].
      cbn. now rewrite Bool.negb_involutive. }
    split; [reflexivity|]. split; [reflexivity|].
    unfold Live.togglePlayStart. rewrite Htrack.
    split; [now destruct (isPlaying (state (Live.hook m))),
                         (hasPreview track)|].
    split; [|split].
    + now intros ->.
    + now intros -> ->.
    + now intros -> ->.
Qed.

Lemma togglePlay_pauses_and_resumes_witness :
  isPlaying (state (Live.hook Late.ticking)) = true
  /\ currentTrack (state (Live.hook Late.ticking)) = Some Scenario.T1
  /\ (let paused := Live.step (Live.Sync TogglePlay) Late.ticking in
      let resumed := Live.step (Live.Sync TogglePlay) paused in
      state (Live.hook resumed) = state (Live.hook Late.ticking)
      /\ simulationInterval (Live.hook paused) = None
      /\ simulationInterval (Live.hook resumed) = None).
Proof.
  split; [reflexivity|]. split; [reflexivity|]. cbv zeta.
  destruct (togglePlay_pauses_and_resumes Late.ticking) as [_ Hfirst].
  destruct (Hfirst Scenario.T1 eq_refl) as (_ & Hback & Hpaused & _).
  destruct (togglePlay_pauses_and_resumes
              (Live.step (Live.Sync TogglePlay) Late.ticking)) as [_ Hsecond].
  destruct (Hsecond Scenario.T1 eq_refl) as (_ & _ & Hresumed & _).
  split; [exact Hback|]. split; [exact Hpaused|exact Hresumed].
Defined.

(** ** seek in the mounted hook *)

(** X16.  [seek] stores the given position as progress, unvalidated, and
    changes nothing else in the state; no effect is restarted, so both
    timers go on.  The audio element is repositioned only when its
    duration is known; the assignment is made from the position and the
    duration.  While the ref holds a synthetic timer with counter [n]
    below 99, its next firing overwrites the sought position with
    [n + 1]. *)
Theorem seek_is_display_only (duration : option Q) (position : Q)
    (m : Live.Mounted) :
  let m' := Live.step (Live.Sync (Seek duration position)) m in
  state (Live.hook m') = set_progress position (state (Live.hook m))
  /\ simulationInterval (Live.hook m') = simulationInterval (Live.hook m)
  /\ Live.leaked m' = Live.leaked m /\ Live.awaiting m' = Live.awaiting m
  /\ Live.sampling m' = Live.sampling m
  /\ audio (Live.hook m')
     = match duration with
       | Some d => audio (Live.hook m) ++ [AudioSetCurrentTime position d]
       | None => audio (Live.hook m)
       end
  /\ (forall n, simulationInterval (Live.hook m) = Some n -> n + 1 < 100 ->
      progress
        (state (Live.hook (Live.step (Live.Sync SimulationTick) m')))
      = inject_Z (n + 1)).
Proof.
  cbv zeta.
  assert (Hstep : Live.step (Live.Sync (Seek duration position)) m
                  = Live.onHook (seek duration position) m).
  { unfold Live.step. cbn [Live.block Live.assignsQueue].
    apply commit_idle; unfold seek; now destruct duration. }
  rewrite Hstep.
  repeat split; try (unfold seek; now destruct duration).
  intros n Hn Hlt. rewrite step_state. cbn [Live.block Live.onHook Live.hook].
  unfold simulationTick.
  replace (simulationInterval (seek duration position (Live.hook m)))
    with (Some n) by (unfold seek; now destruct duration).
  cbv zeta.
  destruct (n + 1 >=? 100) eqn:E; [|reflexivity].
  rewrite Z.geb_leb in E. apply Z.leb_le in E. lia.
Qed.

Lemma seek_is_display_only_witness :
  simulationInterval (Live.hook Late.ticking) = Some 5
  /\ progress
       (state (Live.hook (Live.step (Live.Sync (Seek None 50%Q)) Late.ticking)))
     = 50%Q
  /\ progress
       (state
          (Live.hook
             (Live.step (Live.Sync SimulationTick)
                (Live.step (Live.Sync (Seek None 50%Q)) Late.ticking))))
     = 6%Q.
Proof.
  destruct (seek_is_display_only None 50%Q Late.ticking)
    as (Hstate & _ & _ & _ & _ & _ & Htick).
  split; [reflexivity|]. split.
  - rewrite Hstate. reflexivity.
  - exact (Htick 5 eq_refl ltac:(lia)).
Defined.

(** ** What holds after any run of the mounted hook *)

Lemma removalSelection_anchored (cl : AudioPlayerState) (index : Z)
    (nextQueue : list ITrack) :
  anchored cl -> 0 <= index -> queue cl <> [] ->
  match snd (removalSelection cl index nextQueue) with
  | Some _ => fst (removalSelection cl index nextQueue) <> -1
  | None => fst (removalSelection cl index nextQueue) = -1 -> nextQueue = []
  end.
Proof.
  intros [_ Hsent] Hi Hq. unfold removalSelection.
  destruct (index =? currentIndex cl) eqn:E1.
  - apply Z.eqb_eq in E1.
    destruct (JsArray.length nextQueue =? 0) eqn:E2.
    + apply Z.eqb_eq, jsLength_nil_iff in E2. simpl. auto.
    + apply Z.eqb_neq in E2.
      assert (0 <= JsArray.length nextQueue) by (unfold JsArray.length; lia).
      destruct (currentIndex cl >=? JsArray.length nextQueue); simpl;
        destruct (JsArray.get nextQueue _); lia.
  - destruct (index <? currentIndex cl) eqn:E2; simpl.
    + destruct (JsArray.get nextQueue _); lia.
    + destruct (currentTrack cl) as [current|];
        intros Hnone; apply Hsent in Hnone; contradiction.
Qed.

Lemma togglePlay_anchored (h : Hook) :
  anchored (state h) -> anchored (state (togglePlay h)).
Proof.
  intros [Hplay Hsent].
  destruct (togglePlay_selection h) as (Hi & Ht & Hq & _).
  split.
  - rewrite Ht. destruct (currentTrack (state h)) eqn:E; [discriminate|].
    unfold togglePlay. rewrite E. exact Hplay.
  - rewrite Hi, Hq. exact Hsent.
Qed.

Lemma step_anchored (op : Op) (h : Hook) :
  anchored (state h) -> anchored (state (step op h)).
Proof.
  intros Hg. pose proof Hg as [Hplay Hsent].
  destruct op; simpl step; try exact Hg.
  - (* playTrack *)
    unfold playTrack.
    destruct (match currentTrack (state h) with
              | Some _ => _ | None => _ end).
    + now apply togglePlay_anchored.
    + rewrite loadTrack_state. split; simpl; [discriminate|lia].
  - (* enqueue *)
    split; simpl.
    + destruct (currentTrack (state h)); discriminate.
    + destruct (currentIndex (state h) =? -1) eqn:E; [lia|].
      apply Z.eqb_neq in E. contradiction.
  - (* enqueueNext *)
    simpl. destruct (currentIndex (state h) =? -1) eqn:E; simpl.
    + split; simpl; [discriminate|lia].
    + apply Z.eqb_neq in E. split; simpl; [exact Hplay|contradiction].
  - now apply togglePlay_anchored.
  - destruct (skipNext_navigated env h) as [| |i track Hi _];
      [exact Hg|split; simpl; [discriminate|exact Hsent]
      |split; simpl; [discriminate|lia]].
  - destruct (skipPrevious_navigated env h) as [| |i track Hi _];
      [exact Hg|split; simpl; [discriminate|exact Hsent]
      |split; simpl; [discriminate|lia]].
  - unfold seek. destruct duration; exact Hg.
  - split; simpl; [discriminate|auto].
  - (* removeFromQueue *)
    set (p := fun t : ITrack => String.eqb (id t) trackId).
    destruct (Z.eq_dec (JsArray.findIndex p (queue (state h))) (-1))
      as [Habs|Hfound].
    + unfold removeFromQueue. fold p. now rewrite Habs.
    + rewrite removeFromQueue_state by exact Hfound. fold p.
      pose proof (findIndex_range p (queue (state h))) as Hrange.
      assert (Hq : queue (state h) <> []).
      { intros Hnil. rewrite Hnil in Hfound. simpl in Hfound. congruence. }
      pose proof (removalSelection_anchored (state h)
                    (JsArray.findIndex p (queue (state h)))
                    (filter (fun t => negb (p t)) (queue (state h)))
                    Hg ltac:(lia) Hq) as Hsel.
      destruct (snd (removalSelection (state h) _ _)) as [nextTrack|].
      * split; simpl; [discriminate|contradiction].
      * split; simpl; [discriminate|exact Hsel].
  - (* reorderQueue *)
    destruct (reorderQueue_cases from to h) as [-> | (_ & Hf & Ht & ->)];
      [exact Hg|].
    split; simpl; [exact Hplay|].
    intros Hnone. exfalso.
    assert (Hsome : currentIndex (state h) <> -1).
    { intros Hc. rewrite (Hsent Hc) in Hf.
      unfold JsArray.length in Hf. simpl in Hf. lia. }
    unfold rebase in Hnone. revert Hnone.
    split_ifs; bools_to_Z; lia.
  - destruct (playFromQueue_navigated env index h) as [| |i track Hi _];
      [exact Hg|split; simpl; [discriminate|exact Hsent]
      |split; simpl; [discriminate|lia]].
  - split; simpl; [discriminate|auto].
  - (* simulationTick *)
    unfold simulationTick. destruct (simulationInterval h); [|exact Hg].
    destruct (_ >=? 100); [split; simpl; [discriminate|exact Hsent]|exact Hg].
  - unfold handleEnded.
    destruct (skipNext_navigated env h) as [| |i track Hi _];
      [exact Hg|split; simpl; [discriminate|exact Hsent]
      |split; simpl; [discriminate|lia]].
  - split; simpl; [discriminate|exact Hsent].
  - unfold progressSample. destruct (isPlaying (state h)); exact Hg.
Qed.

Lemma live_step_anchored (e : Live.Event) (m : Live.Mounted) :
  anchored (state (Live.hook m)) ->
  anchored (state (Live.hook (Live.step e m))).
Proof.
  intros Hg. rewrite step_state.
  destruct e as [op|k reply|k resolves|k].
  - destruct (match op with ProgressSample _ => true | _ => false end) eqn:Hs.
    + destruct op; try discriminate. cbn [Live.block].
      now destruct (Live.sampling m).
    + rewrite block_state by (intros p ->; discriminate).
      now apply step_anchored.
  - pose proof (reply_block_state k reply m) as Hr. cbv zeta in Hr.
    destruct Hr as [-> | (? & ? & ? & ? & _ & _ & ->)]; [exact Hg|].
    destruct Hg as [_ Hsent]. split; [discriminate|exact Hsent].
  - now rewrite settled_block_state.
  - cbn [Live.block].
    pose proof (leakedTick_state k m) as Ht. cbv zeta in Ht.
    destruct Hg as [Hplay Hsent].
    destruct Ht as (Htrack & Hindex & Hqueue & Hrest).
    split; [|now rewrite Hindex, Hqueue].
    rewrite Htrack.
    destruct Hrest as [-> | (n & _ & [(_ & _ & ->) | (_ & _ & ->)])];
      [exact Hplay|exact Hplay|discriminate].
Qed.

(** X17.  After any sequence of calls of the context type, timer firings
    and late replies on the mounted hook (repeated ids, overtaken loads
    and leaked timers included), isPlaying is never true without a
    current track, and whenever currentIndex = -1 the queue is empty.
    (The raw setters [setQueue] and [setCurrentIndex] are not events
    here.) *)
Theorem nothing_plays_unselected (events : list Live.Event) :
  let s := state (Live.hook (Live.run events Live.mounted)) in
  (isPlaying s = true -> currentTrack s <> None)
  /\ (currentIndex s = -1 -> queue s = []).
Proof.
  cbv zeta. change (anchored (state (Live.hook (Live.run events Live.mounted)))).
  assert (Hgen : forall m,
             anchored (state (Live.hook m)) ->
             anchored (state (Live.hook (Live.run events m)))).
  { induction events as [|e rest IH]; intros m Hm; [exact Hm|].
    apply IH. now apply live_step_anchored. }
  apply Hgen. split; [discriminate|reflexivity].
Qed.

Lemma nothing_plays_unselected_witness :
  let s :=
    state (Live.hook (Live.run (Late.overtaking ++ [Late.lateReply])
                        Live.mounted)) in
  isPlaying s = true /\ currentTrack s <> None.
Proof.
  cbv zeta.
  destruct (nothing_plays_unselected (Late.overtaking ++ [Late.lateReply]))
    as [Hplay _].
  assert (Hp : isPlaying
                 (state (Live.hook (Live.run (Late.overtaking ++ [Late.lateReply])
                                      Live.mounted))) = true)
    by (vm_compute; reflexivity).
  split; [exact Hp|exact (Hplay Hp)].
Defined.

(** On the code: [playTrack(T1)] waits for the enrichment service and
    the queue is cleared; the reply then becomes the current track and is
    played on the audio element, while currentIndex is -1, the queue is
    empty and isPlaying is false. *)
Lemma late_reply_selects_over_cleared_queue :
  let m' := Live.step Late.lateReply Late.clearedWhileLoading in
  let s := state (Live.hook m') in
  currentTrack (state (Live.hook Late.clearedWhileLoading)) = None
  /\ currentTrack s = Some Late.T1enriched
  /\ currentIndex s = -1 /\ queue s = [] /\ isPlaying s = false
  /\ last (audio (Live.hook m')) AudioPause = AudioPlay.
Proof. vm_compute. repeat split. Qed.

(** ** The synthetic clock in the mounted hook *)

(** A block that assigns the queue restarts the audio effect. *)
Lemma commit_assigned before m :
  Live.commit before true m
  = Live.mkMounted (clearSimulation (Live.hook m)) (Live.leaked m)
      (Live.awaiting m)
      (Live.playingChanged before (state (Live.hook m))
       && isPlaying (state (Live.hook m))).
Proof.
  unfold Live.commit, Live.skipNextChanged. cbv zeta. cbn [orb].
  now rewrite Bool.orb_true_r.
Qed.

Lemma commit_timer_none before queueAssigned m :
  simulationInterval (Live.hook m) = None ->
  simulationInterval (Live.hook (Live.commit before queueAssigned m)) = None.
Proof. intros Hn. unfold Live.commit. now destruct (_ || _). Qed.

(** A firing below 100 restarts no effect. *)
Lemma tick_running (m : Live.Mounted) (n : Z) :
  simulationInterval (Live.hook m) = Some n -> n + 1 < 100 ->
  Live.step (Live.Sync SimulationTick) m
  = Live.mkMounted
      (mkHook (set_progress (inject_Z (n + 1)) (state (Live.hook m)))
              (Some (n + 1)) (audio (Live.hook m)))
      (Live.leaked m) (Live.awaiting m) (Live.sampling m).
Proof.
  intros Hn Hlt. unfold Live.step. cbn [Live.block Live.assignsQueue].
  assert (Htick : simulationTick (Live.hook m)
                  = mkHook (set_progress (inject_Z (n + 1))
                              (state (Live.hook m)))
                      (Some (n + 1)) (audio (Live.hook m))).
  { unfold simulationTick. rewrite Hn. cbv zeta.
    destruct (n + 1 >=? 100) eqn:E; [|reflexivity].
    rewrite Z.geb_leb in E. apply Z.leb_le in E. lia. }
  rewrite commit_idle; unfold Live.onHook; cbn [Live.hook];
    rewrite Htick; reflexivity.
Qed.

(** The firing that reaches 100 ends the clock. *)
Lemma tick_last (m : Live.Mounted) :
  simulationInterval (Live.hook m) = Some 99 ->
  let m' := Live.step (Live.Sync SimulationTick) m in
  simulationInterval (Live.hook m') = None
  /\ state (Live.hook m')
     = set_progress 0%Q
         (set_isPlaying false
            (set_progress 100%Q (state (Live.hook m)))).
Proof.
  intros Hn. cbv zeta. split.
  - unfold Live.step. apply commit_timer_none.
    cbn [Live.block Live.onHook Live.hook].
    unfold simulationTick. now rewrite Hn.
  - rewrite step_state. cbn [Live.block Live.onHook Live.hook].
    unfold simulationTick. now rewrite Hn.
Qed.

Lemma ticks_to_end (k : nat) (m : Live.Mounted) (n : Z) :
  simulationInterval (Live.hook m) = Some n ->
  0 <= n -> n + Z.of_nat (S k) = 100 ->
  let m' := Live.run (repeat (Live.Sync SimulationTick) (S k)) m in
  let s := state (Live.hook m) in
  let s' := state (Live.hook m') in
  simulationInterval (Live.hook m') = None
  /\ isPlaying s' = false /\ progress s' = 0%Q
  /\ currentTrack s' = currentTrack s /\ currentIndex s' = currentIndex s
  /\ queue s' = queue s /\ settings s' = settings s.
Proof.
  revert m n. induction k as [|k IH]; intros m n Hn Hpos Hsum.
  - assert (n = 99) by lia. subst n.
    destruct (tick_last m Hn) as [Htimer Hstate].
    cbv zeta. cbn [repeat Live.run fold_left].
    rewrite Hstate. now repeat split.
  - cbv zeta. change (repeat (Live.Sync SimulationTick) (S (S k)))
      with (Live.Sync SimulationTick :: repeat (Live.Sync SimulationTick) (S k)).
    unfold Live.run. cbn [fold_left]. fold (Live.run (repeat (Live.Sync SimulationTick) (S k))).
    rewrite (tick_running m n Hn) by lia.
    set (m1 := Live.mkMounted _ _ _ _).
    destruct (IH m1 (n + 1) eq_refl ltac:(lia) ltac:(lia))
      as (H1 & H2 & H3 & H4 & H5 & H6 & H7).
    now repeat split.
Qed.

(** X20.  After any sequence of calls, timer firings and late replies,
    a synthetic timer held by the ref has a counter [n] with
    [0 <= n < 100]; if nothing happens but its own firings, [100 - n] of
    them end it with isPlaying = false and progress = 0, the selection
    and the settings being as they were.  It need not get there:
    [enqueue] and [enqueueNext] assign a new queue array, so the audio
    effect is restarted and its clean-up cancels the timer, while
    isPlaying and progress stay as they are. *)
Theorem synthetic_clock_ends_unless_cancelled (events : list Live.Event)
    (n : Z) (track : ITrack) :
  let m := Live.run events Live.mounted in
  let s := state (Live.hook m) in
  simulationInterval (Live.hook m) = Some n ->
  0 <= n < 100
  /\ (let m' :=
        Live.run (repeat (Live.Sync SimulationTick) (Z.to_nat (100 - n))) m in
      let s' := state (Live.hook m') in
      simulationInterval (Live.hook m') = None
      /\ isPlaying s' = false /\ progress s' = 0%Q
      /\ currentTrack s' = currentTrack s /\ currentIndex s' = currentIndex s
      /\ queue s' = queue s /\ settings s' = settings s)
  /\ (forall e,
      e = Live.Sync (Enqueue track) \/ e = Live.Sync (EnqueueNext track) ->
      let s' := state (Live.hook (Live.step e m)) in
      simulationInterval (Live.hook (Live.step e m)) = None
      /\ isPlaying s' = isPlaying s /\ progress s' = progress s).
Proof.
  cbv zeta. intros Hn.
  assert (Hrange : 0 <= n < 100).
  { pose proof (run_counters events Live.mounted mounted_counters) as [Hc _].
    unfold clockInRange in Hc. now rewrite Hn in Hc. }
  split; [exact Hrange|]. split.
  - destruct (Z.to_nat (100 - n)) as [|k] eqn:Hk; [lia|].
    apply (ticks_to_end k _ n Hn); lia.
  - intros e [-> | ->]; unfold Live.step; cbn [Live.block Live.assignsQueue];
      rewrite commit_assigned; cbn [Live.hook Live.onHook clearSimulation
                                    simulationInterval state];
      (split; [reflexivity|]).
    + split; reflexivity.
    + unfold enqueueNext. cbn.
      now destruct (currentIndex (state (Live.hook (Live.run events Live.mounted))) =? -1).
Qed.

Lemma synthetic_clock_ends_unless_cancelled_witness :
  let m := Live.run Late.clockStarted Live.mounted in
  simulationInterval (Live.hook m) = Some 5
  /\ isPlaying
       (state
          (Live.hook
             (Live.run
                (repeat (Live.Sync SimulationTick) (Z.to_nat (100 - 5))) m)))
     = false
  /\ simulationInterval
       (Live.hook (Live.step (Live.Sync (Enqueue Scenario.T3)) m)) = None
  /\ isPlaying
       (state (Live.hook (Live.step (Live.Sync (Enqueue Scenario.T3)) m)))
     = isPlaying (state (Live.hook m))
  /\ isPlaying (state (Live.hook m)) = true.
Proof.
  cbv zeta.
  assert (Hn : simulationInterval
                 (Live.hook (Live.run Late.clockStarted Live.mounted))
               = Some 5)
    by (vm_compute; reflexivity).
  assert (Hp : isPlaying
                 (state (Live.hook (Live.run Late.clockStarted Live.mounted)))
               = true)
    by (vm_compute; reflexivity).
  destruct (synthetic_clock_ends_unless_cancelled
              Late.clockStarted 5 Scenario.T3 Hn)
    as (_ & (_ & Hstopped & _) & Hcancel).
  destruct (Hcancel (Live.Sync (Enqueue Scenario.T3)) (or_introl eq_refl))
    as (Hnone & Hplaying & _).
  split; [exact Hn|]. split; [exact Hstopped|]. split; [exact Hnone|].
  split; [exact Hplaying|exact Hp].
Defined.

(** ** The selection invariant in the mounted hook *)

Lemma Forall_removeAt {A : Type} (P : A -> Prop) (k : nat) (l : list A) :
  Forall P l -> Forall P (removeAt k l).
Proof.
  intros H. revert k.
  induction H as [|x rest Hx Hrest IH]; intros [|k]; simpl; auto.
Qed.

Lemma keepsId_unanswered (drawn : Z) : keepsId (unanswered drawn).
Proof. intros t t' H. discriminate. Qed.

Lemma withheld_singleCopy (op : Op) (h : Hook) :
  match op with
  | RemoveFromQueue _ trackId => (copies trackId (queue (state h)) <= 1)%nat
  | _ => True
  end ->
  singleCopy (withheld op) h.
Proof.
  destruct op; simpl; auto using keepsId_unanswered.
Qed.

Lemma playResolvedStart_suspends volume enhancedTrack shouldPlay m :
  Live.awaiting (Live.playResolvedStart volume enhancedTrack shouldPlay m)
  = Live.awaiting m
  \/ Live.awaiting (Live.playResolvedStart volume enhancedTrack shouldPlay m)
     = Live.awaiting m ++ [Live.AwaitPlay].
Proof.
  unfold Live.playResolvedStart.
  destruct (preview_url enhancedTrack) as [url|];
    [destruct (hasPreview enhancedTrack && shouldPlay)|];
    try destruct shouldPlay; auto.
Qed.

Lemma loadTrackStart_suspends cl track shouldPlay m0 m :
  Live.awaiting m = Live.awaiting m0 ->
  suspendedBy m0 (Live.loadTrackStart cl track shouldPlay m).
Proof.
  intros Hsame. unfold suspendedBy, Live.loadTrackStart. rewrite <- Hsame.
  destruct (hasPreview track).
  - destruct (playResolvedStart_suspends (volume cl) track shouldPlay
                (Live.onHook
                   (setState (fun prev =>
                      set_progress 0%Q
                        (set_isPlaying shouldPlay
                           (set_currentTrack (Some track) prev))))
                   (Live.onHook clearSimulation m))) as [H | H];
      rewrite H; auto.
  - right. right. exists track, shouldPlay, (volume cl). split; reflexivity.
Qed.

Lemma goToIndexStart_suspends cl nextIndex autoPlay m :
  suspendedBy m (Live.goToIndexStart cl nextIndex autoPlay m).
Proof.
  unfold Live.goToIndexStart.
  destruct nextIndex as [i|]; [|now left].
  destruct ((i <? 0) || (i >=? JsArray.length (queue cl))); [now left|].
  destruct (JsArray.get (queue cl) i) as [track|]; [|now left].
  destruct autoPlay; [|now left].
  now apply loadTrackStart_suspends.
Qed.

Lemma skipNextStart_suspends drawn m :
  suspendedBy m (Live.skipNextStart drawn m).
Proof.
  unfold Live.skipNextStart.
  split_ifs; first [now left | apply goToIndexStart_suspends].
Qed.

Lemma block_suspends (op : Op) (m : Live.Mounted) :
  suspendedBy m (Live.block (Live.Sync op) m).
Proof.
  destruct op; cbv beta iota delta [Live.block]; try (now left);
    try apply skipNextStart_suspends; try apply goToIndexStart_suspends.
  - unfold Live.playTrackStart.
    destruct (Live.isCurrent track (state (Live.hook m))).
    + left. apply togglePlayStart_hook.
    + now apply loadTrackStart_suspends.
  - left. apply togglePlayStart_hook.
  - unfold Live.skipPreviousStart.
    split_ifs; first [now left | apply goToIndexStart_suspends].
  - unfold Live.removeFromQueueStart.
    destruct (_ =? -1); [now left|].
    destruct (removalSelection _ _ _) as [nextIndex [nextTrack|]];
      [|now left].
    now apply loadTrackStart_suspends.
  - left. now destruct (Live.sampling m).
Qed.

(** A call that neither loads a track nor clears the selection keeps a
    current track that is there. *)
Lemma step_keeps_track (op : Op) (h : Hook) (current : ITrack) :
  reselects op = false -> selectionConsistent (state h) ->
  currentTrack (state h) = Some current ->
  currentTrack (state (step op h)) = Some current.
Proof.
  intros Hop (Hiff & _ & _) Hc.
  destruct op; try discriminate; simpl step; try exact Hc.
  - simpl. now rewrite Hc.
  - simpl. destruct (currentIndex (state h) =? -1) eqn:E; [|exact Hc].
    apply Z.eqb_eq, Hiff in E. congruence.
  - now rewrite (proj1 (proj2 (togglePlay_selection h))).
  - unfold seek. now destruct duration.
  - now rewrite (proj1 (reorderQueue_selection from to h)).
  - unfold simulationTick. destruct (simulationInterval h); [|exact Hc].
    now destruct (_ >=? 100).
  - unfold progressSample. now destruct (isPlaying (state h)).
Qed.

Lemma withheld_reselects op : reselects (withheld op) = reselects op.
Proof. now destruct op. Qed.

Lemma live_step_selection (e : Live.Event) (m : Live.Mounted) :
  orderly e m ->
  selectionConsistent (state (Live.hook m)) /\ repliesForCurrent m ->
  selectionConsistent (state (Live.hook (Live.step e m)))
  /\ repliesForCurrent (Live.step e m).
Proof.
  intros Hord [Hinv Hrep].
  unfold repliesForCurrent in *.
  destruct (commit_rest (state (Live.hook m)) (Live.assignsQueue e m)
              (Live.block e m)) as (_ & Haw & _).
  fold (Live.step e m) in Haw. rewrite Haw, step_state. clear Haw.
  destruct e as [op|k reply|k resolves|k].
  - (* a call or an event *)
    destruct Hord as [Hquiet Hcopies].
    assert (Hstate : state (Live.hook (Live.block (Live.Sync op) m))
                     = state (step (withheld op) (Live.hook m))
                       \/ exists p, op = ProgressSample p
                            /\ currentTrack (state (Live.hook (Live.block (Live.Sync op) m)))
                               = currentTrack (state (Live.hook m))
                            /\ currentIndex (state (Live.hook (Live.block (Live.Sync op) m)))
                               = currentIndex (state (Live.hook m))
                            /\ queue (state (Live.hook (Live.block (Live.Sync op) m)))
                               = queue (state (Live.hook m))).
    { destruct (match op with ProgressSample _ => true | _ => false end)
        eqn:Hs.
      - right. destruct op; try discriminate. exists currentProgress.
        cbn [Live.block]. now destruct (Live.sampling m).
      - left. apply block_state. intros p ->. discriminate. }
    assert (Hinv' : selectionConsistent
                      (state (Live.hook (Live.block (Live.Sync op) m)))).
    { destruct Hstate as [-> | (p & _ & Ht & Hi & Hq)].
      - apply step_consistent; [|exact Hinv].
        apply withheld_singleCopy. destruct op; auto.
      - unfold selectionConsistent. now rewrite Ht, Hi, Hq. }
    split; [exact Hinv'|].
    assert (Hold : Forall (fun s =>
                     match s with
                     | Live.AwaitEnrichment track _ _ =>
                         exists current,
                           currentTrack
                             (state (Live.hook (Live.block (Live.Sync op) m)))
                           = Some current
                           /\ id current = id track
                     | Live.AwaitPlay => True
                     end) (Live.awaiting m)).
    { destruct (reselects op) eqn:Hre.
      - specialize (Hquiet eq_refl). unfold noReplyAwaited in Hquiet.
        eapply Forall_impl; [|exact Hquiet].
        intros [track shouldPlay volume|]; [contradiction|auto].
      - eapply Forall_impl; [|exact Hrep].
        intros [track shouldPlay volume|]; [|auto].
        intros (current & Hc & Hid). exists current. split; [|exact Hid].
        destruct Hstate as [-> | (p & _ & -> & _)]; [|exact Hc].
        apply step_keeps_track; [|exact Hinv|exact Hc].
        now rewrite withheld_reselects. }
    destruct (block_suspends op m)
      as [-> | [-> | (track & shouldPlay & volume & -> & Hcur)]].
    + exact Hold.
    + apply Forall_app. split; [exact Hold|now constructor].
    + apply Forall_app. split; [exact Hold|].
      constructor; [|constructor]. now exists track.
  - (* an enrichment reply *)
    cbn [Live.block].
    destruct (nth_error (Live.awaiting m) k)
      as [[track shouldPlay volume|]|] eqn:Hk; try (now split).
    assert (Hfor : exists current,
               currentTrack (state (Live.hook m)) = Some current
               /\ id current = id track).
    { rewrite Forall_forall in Hrep.
      exact (Hrep _ (nth_error_In _ _ Hk)). }
    destruct Hfor as (current & Hc & Hid).
    set (m1 := Live.mkMounted _ _ _ _).
    assert (Hrep1 : Forall (fun s =>
                      match s with
                      | Live.AwaitEnrichment track _ _ =>
                          exists current,
                            currentTrack (state (Live.hook m)) = Some current
                            /\ id current = id track
                      | Live.AwaitPlay => True
                      end) (Live.awaiting m1)).
    { now apply Forall_removeAt. }
    unfold Live.afterEnrichment. destruct reply as [enhancedTrack|].
    + cbn [orderly] in Hord. rewrite Hk in Hord.
      rewrite playResolvedStart_state.
      split.
      * destruct Hinv as (Hiff & Hsel & Hnil).
        rewrite Hc in Hiff, Hsel.
        assert (Hidx : currentIndex (state (Live.hook m)) <> -1).
        { intros Habs. apply Hiff in Habs. discriminate. }
        split; [|split]; cbn.
        -- split; [intros Habs; contradiction|discriminate].
        -- intros _. destruct (Hsel Hidx) as (Hr & entry & c & Hget & Hsome & He).
           split; [exact Hr|]. exists entry, enhancedTrack.
           repeat split; [exact Hget|]. congruence.
        -- exact Hnil.
      * assert (Hnew : Forall (fun s =>
                         match s with
                         | Live.AwaitEnrichment track _ _ =>
                             exists current,
                               Some enhancedTrack = Some current
                               /\ id current = id track
                         | Live.AwaitPlay => True
                         end) (Live.awaiting m1)).
        { eapply Forall_impl; [|exact Hrep1].
          intros [t sp v|]; [|auto].
          intros (c & Hc' & Hid'). exists enhancedTrack.
          split; [reflexivity|]. congruence. }
        destruct (playResolvedStart_suspends volume enhancedTrack shouldPlay m1)
          as [-> | ->]; [exact Hnew|].
        apply Forall_app. split; [exact Hnew|now constructor].
    + destruct shouldPlay; now split.
  - (* audio.play() settles *)
    rewrite settled_block_state. split; [exact Hinv|].
    cbn [Live.block].
    destruct (nth_error (Live.awaiting m) k)
      as [[track shouldPlay volume|]|]; try exact Hrep.
    unfold Live.afterPlay.
    destruct resolves; cbn [Live.awaiting Live.startTimer];
      now apply Forall_removeAt.
  - (* a leaked timer fires *)
    cbn [Live.block].
    pose proof (leakedTick_state k m) as Ht. cbv zeta in Ht.
    destruct Ht as (Htrack & Hindex & Hqueue & _).
    split.
    + unfold selectionConsistent. now rewrite Htrack, Hindex, Hqueue.
    + rewrite Htrack. unfold Live.leakedTick.
      now destruct (nth_error (Live.leaked m) k).
Qed.

(** X23.  In the mounted hook, along any sequence of calls, timer
    firings and replies in which (a) a call that loads another track or
    clears the selection ([playTrack], [skipNext], [skipPrevious],
    [playFromQueue], [removeFromQueue], [clearQueue], [closePlayer], the
    ended event) comes only while no enrichment reply is awaited, (b)
    every [removeFromQueue] names an id queued at most once, and (c)
    every enrichment reply has the id of the track asked about, the
    selection stays consistent: currentIndex = -1 exactly when there is
    no current track, and otherwise 0 <= currentIndex < queue.length and
    queue[currentIndex].id equals currentTrack.id. *)
Theorem selection_consistent_on_orderly_runs (events : list Live.Event) :
  orderlyRun events Live.mounted ->
  let s := state (Live.hook (Live.run events Live.mounted)) in
  (currentIndex s = -1 <-> currentTrack s = None)
  /\ (currentIndex s <> -1 ->
      0 <= currentIndex s < JsArray.length (queue s)
      /\ exists entry current,
           JsArray.get (queue s) (currentIndex s) = Some entry
           /\ currentTrack s = Some current /\ id entry = id current).
Proof.
  cbv zeta.
  assert (Hgen : forall m,
             orderlyRun events m ->
             selectionConsistent (state (Live.hook m)) /\ repliesForCurrent m ->
             selectionConsistent (state (Live.hook (Live.run events m)))).
  { induction events as [|e rest IH]; intros m Hrun Hm; [apply Hm|].
    destruct Hrun as [He Hrest].
    apply (IH (Live.step e m) Hrest).
    now apply live_step_selection. }
  intros Hord.
  destruct (Hgen Live.mounted Hord) as (Hiff & Hsel & _).
  - split; [exact consistent_cleared|constructor].
  - split; assumption.
Qed.

Lemma selection_consistent_on_orderly_runs_witness :
  orderlyRun Late.inTurn Live.mounted
  /\ (let s := state (Live.hook (Live.run Late.inTurn Live.mounted)) in
      currentIndex s = 1
      /\ 0 <= currentIndex s < JsArray.length (queue s)).
Proof.
  assert (Hord : orderlyRun Late.inTurn Live.mounted).
  { vm_compute. repeat split; intros; repeat constructor. }
  split; [exact Hord|]. cbv zeta.
  destruct (selection_consistent_on_orderly_runs Late.inTurn Hord)
    as [_ Hsel].
  assert (Hi : currentIndex
                 (state (Live.hook (Live.run Late.inTurn Live.mounted))) = 1)
    by (vm_compute; reflexivity).
  split; [exact Hi|]. apply Hsel. rewrite Hi. discriminate.
Defined.

(** On the code: with [playTrack(T1)] still waiting for the service when
    [playTrack(T3)] comes, the reply for T1 becomes the current track
    while the queue is [T3]; the selection is no longer consistent. *)
Lemma overtaken_load_breaks_selection :
  let s := state (Live.hook (Live.step Late.lateReply Late.overtaken)) in
  currentIndex s = 0
  /\ JsArray.get (queue s) (currentIndex s) = Some Scenario.T3
  /\ currentTrack s = Some Late.T1enriched
  /\ id Scenario.T3 <> id Late.T1enriched.
Proof. vm_compute. repeat split. discriminate. Qed.
